(** * Inventory ledger and serial allocation: a shallow embedding

    The development follows [src/App.tsx], which holds the application
    component ([App]) and the item detail dialog ([ItemDetailModal]):

    - [JS]       the string and number primitives the code relies on
                 ([toUpperCase], [trim], [padStart], [parseInt], [+],
                 [-], [Number.prototype.toString]) and the backtracking
                 regular-expression operators of its two patterns;
    - [Transaction], [Item]  the records of [./types];
    - the ledger fold [calculateStock] / [currentStock];
    - the serial allocator [suggestNextSerial] / [parseSerialRange];
    - the handlers of [App] and of [ItemDetailModal], as functions on
      the React state they read and set;
    - the persist-and-push effect of [App], as a transition system.

    Strings are sequences of 7-bit ASCII characters.

    Numbers are the doubles of the code.  The code builds them from
    decimal digits with [parseInt] and from one another with [+], [-]
    and [i++], so all of them are integers -- the quantities of a
    collection that was loaded are taken to be integers too -- and a
    double that is an integer is represented by that integer, in [Z].
    What the
    arithmetic of doubles does to integers is written out ([JS.round]):
    up to 2^53 every integer is a double; beyond, only every second,
    then every fourth, ... is, and each result is the double nearest to
    the exact one, the even significand winning a tie.  The range of
    the exponent is not represented: a run of 309 digits or more, which
    the code reads as [Infinity], is read as the number it denotes,
    rounded.

    A call that does not return ([NoReturn]) is told apart from one
    that returns or throws: the loop of [parseSerialRange] does not end
    once its counter no longer moves, and goes on pushing the same
    serial for as long as the engine finds memory for it. *)

From Stdlib Require Import List Ascii String ZArith NArith Lia Bool Permutation.
From Stdlib Require Import DecimalN.
Import ListNotations.

Local Open Scope string_scope.
Local Open Scope Z_scope.

(* ================================================================== *)
(** ** JavaScript primitives *)
(* ================================================================== *)

Module JS.

(** *** Character classes *)

Definition code (c : ascii) : nat := nat_of_ascii c.

Definition between (lo hi : nat) (c : ascii) : bool :=
  (lo <=? code c)%nat && (code c <=? hi)%nat.

(** [\d] *)
Definition is_digit (c : ascii) : bool := between 48 57 c.

(** [[a-zA-Z]] *)
Definition is_alpha (c : ascii) : bool := between 97 122 c || between 65 90 c.

(** [\s]: tab, line feed, vertical tab, form feed, carriage return, space. *)
Definition is_space (c : ascii) : bool := between 9 13 c || (code c =? 32)%nat.

(** [.] without the [s] flag: anything but a line terminator. *)
Definition is_dot (c : ascii) : bool :=
  negb ((code c =? 10)%nat || (code c =? 13)%nat).

(** *** String methods *)

Definition upper (c : ascii) : ascii :=
  if between 97 122 c then ascii_of_nat (code c - 32) else c.

Fixpoint toUpperCase (s : string) : string :=
  match s with
  | EmptyString => EmptyString
  | String c s' => String (upper c) (toUpperCase s')
  end.

Fixpoint trimStart (s : string) : string :=
  match s with
  | String c s' => if is_space c then trimStart s' else s
  | EmptyString => EmptyString
  end.

Fixpoint trimEnd (s : string) : string :=
  match s with
  | String c s' =>
      match trimEnd s' with
      | EmptyString => if is_space c then EmptyString else String c EmptyString
      | r => String c r
      end
  | EmptyString => EmptyString
  end.

Definition trim (s : string) : string := trimEnd (trimStart s).

(** [s.includes(c)] for a one-character needle. *)
Fixpoint includes (c : ascii) (s : string) : bool :=
  match s with
  | EmptyString => false
  | String d s' => Ascii.eqb c d || includes c s'
  end.

Fixpoint repeat (c : ascii) (n : nat) : string :=
  match n with
  | O => EmptyString
  | S n' => String c (repeat c n')
  end.

(** [s.padStart(n, '0')] *)
Definition padStart (s : string) (n : nat) : string :=
  repeat "0" (n - String.length s) ++ s.

(** Truthiness of a string: [!!s]. *)
Definition truthy (s : string) : bool :=
  match s with EmptyString => false | _ => true end.

(** *** Numbers *)

(** [2^53]: up to it, in size, every integer is a double. *)
Definition two53 : Z := 9007199254740992.

(** The double nearest to the integer [a >= 0]: from [2^53] on, the 53
    leading bits of [a] are kept, [unit] being the weight of the last of
    them, and what is cut off rounds to the nearest, or to the even
    significand when it is half a unit. *)
Definition nearest (a : Z) : Z :=
  if a <? two53 then a
  else
    let unit := 2 ^ (Z.log2 a - 52) in
    let m := a / unit in
    let rest := a mod unit in
    let m' := if 2 * rest <? unit then m
              else if unit <? 2 * rest then m + 1
              else if Z.even m then m else m + 1 in
    m' * unit.

(** The double nearest to the integer [z]. *)
Definition round (z : Z) : Z := Z.sgn z * nearest (Z.abs z).

(** [a + b] and [a - b] on doubles: the exact result, rounded. *)
Definition add (a b : Z) : Z := round (a + b).
Definition sub (a b : Z) : Z := round (a - b).

Arguments nearest : simpl never.
Arguments round : simpl never.
Arguments add : simpl never.
Arguments sub : simpl never.

Definition digitVal (c : ascii) : Z := Z.of_nat (code c - 48).

(** Value of a run of decimal digits, most significant first. *)
Fixpoint digitsVal (acc : Z) (s : string) : Z :=
  match s with
  | EmptyString => acc
  | String c s' => digitsVal (10 * acc + digitVal c) s'
  end.

Fixpoint takeDigits (s : string) : string :=
  match s with
  | String c s' => if is_digit c then String c (takeDigits s') else EmptyString
  | EmptyString => EmptyString
  end.

(** The longest run of digits at the head of [r], as a number: the
    double nearest to what the digits denote; [None] is [NaN]. *)
Definition unsignedInt (r : string) : option Z :=
  match takeDigits r with
  | EmptyString => None
  | ds => Some (round (digitsVal 0 ds))
  end.

(** [parseInt(s, 10)]: leading white space is skipped, an optional
    sign is read, then the longest run of digits. *)
Definition parseInt (s : string) : option Z :=
  match trimStart s with
  | String c r =>
      if Ascii.eqb c "-" then option_map Z.opp (unsignedInt r)
      else if Ascii.eqb c "+" then unsignedInt r
      else unsignedInt (String c r)
  | EmptyString => None
  end.

(** [x || 0] on a number: [NaN] and [0] are falsy. *)
Definition orZero (x : option Z) : Z :=
  match x with Some v => v | None => 0 end.

Fixpoint digitsOfUint (d : Decimal.uint) : string :=
  match d with
  | Decimal.Nil => EmptyString
  | Decimal.D0 d => String "0" (digitsOfUint d)
  | Decimal.D1 d => String "1" (digitsOfUint d)
  | Decimal.D2 d => String "2" (digitsOfUint d)
  | Decimal.D3 d => String "3" (digitsOfUint d)
  | Decimal.D4 d => String "4" (digitsOfUint d)
  | Decimal.D5 d => String "5" (digitsOfUint d)
  | Decimal.D6 d => String "6" (digitsOfUint d)
  | Decimal.D7 d => String "7" (digitsOfUint d)
  | Decimal.D8 d => String "8" (digitsOfUint d)
  | Decimal.D9 d => String "9" (digitsOfUint d)
  end.

(** The decimal digits of the integer [n >= 0]. *)
Definition decimal (n : Z) : string := digitsOfUint (N.to_uint (Z.to_N n)).

(** [Number::toString] writes as few digits as read back as the number:
    the integer it writes for the double [v >= 0] is the one with the
    fewest digits before its trailing zeros among those whose nearest
    double is [v], and the nearest to [v] among these (the even one when
    two are as near).  The search goes from one digit up; [unit] is the
    weight of the last digit kept and [k] the number of lengths still to
    try. *)
Fixpoint shortestFrom (k : nat) (unit : Z) (v : Z) : Z :=
  match k with
  | O => v
  | S k' =>
      let below := v / unit * unit in
      let above := below + unit in
      match round below =? v, round above =? v with
      | true, true =>
          if v - below <? above - v then below
          else if above - v <? v - below then above
          else if Z.even (v / unit) then below else above
      | true, false => below
      | false, true => above
      | false, false => shortestFrom k' (unit / 10) v
      end
  end.

Definition shortest (v : Z) : Z :=
  let n := String.length (decimal v) in
  shortestFrom n (10 ^ Z.of_nat (n - 1)) v.

(** [s] without its trailing zeros. *)
Fixpoint dropZeros (s : string) : string :=
  match s with
  | EmptyString => EmptyString
  | String c s' =>
      match dropZeros s' with
      | EmptyString => if Ascii.eqb c "0" then EmptyString else String c EmptyString
      | r => String c r
      end
  end.

(** The exponent notation of the integer [c], as in [1.5e+21]. *)
Definition exponential (c : Z) : string :=
  let ds := decimal c in
  let exponent := decimal (Z.of_nat (String.length ds - 1)) in
  match dropZeros ds with
  | String d EmptyString => String d "" ++ "e+" ++ exponent
  | String d rest => String d (String "." rest) ++ "e+" ++ exponent
  | EmptyString => ds
  end.

(** Integers below [10^21] are written in full, the others in exponent
    notation. *)
Definition render (c : Z) : string :=
  if c <? 10 ^ 21 then decimal c else exponential c.

(** [n.toString()] for a double [n] that is an integer. *)
Definition toString (n : Z) : string :=
  match n with
  | Zneg p => String "-" (render (shortest (Zpos p)))
  | _ => render (shortest n)
  end.

Arguments shortest : simpl never.
Arguments render : simpl never.
Arguments toString : simpl never.

(** *** Regular-expression operators

    A pattern is run the way the engine runs it: every quantifier
    tries its alternatives in priority order and hands the matched
    text and the rest of the input to the continuation [k]; the first
    alternative under which the rest of the pattern succeeds wins.
    All quantifiers of the two patterns of the code range over a
    character class. *)

Section Regex.
Context {A : Type}.
Variable p : ascii -> bool.

(** [p*?]: shortest first. *)
Fixpoint lazyStar (s : string) (k : string -> string -> option A) : option A :=
  match k EmptyString s with
  | Some r => Some r
  | None =>
      match s with
      | String c s' =>
          if p c then lazyStar s' (fun m => k (String c m)) else None
      | EmptyString => None
      end
  end.

(** [p+?] *)
Definition lazyPlus (s : string) (k : string -> string -> option A) : option A :=
  match s with
  | String c s' => if p c then lazyStar s' (fun m => k (String c m)) else None
  | EmptyString => None
  end.

(** [p*]: longest first. *)
Fixpoint greedyStar (s : string) (k : string -> string -> option A) : option A :=
  match s with
  | String c s' =>
      if p c then
        match greedyStar s' (fun m => k (String c m)) with
        | Some r => Some r
        | None => k EmptyString s
        end
      else k EmptyString s
  | EmptyString => k EmptyString s
  end.

(** [p+] *)
Definition greedyPlus (s : string) (k : string -> string -> option A) : option A :=
  match s with
  | String c s' => if p c then greedyStar s' (fun m => k (String c m)) else None
  | EmptyString => None
  end.
End Regex.

(** A literal character. *)
Definition lit {A} (c : ascii) (s : string) (k : string -> option A) : option A :=
  match s with
  | String d s' => if Ascii.eqb c d then k s' else None
  | EmptyString => None
  end.

(** [$] *)
Definition eos {A} (s : string) (v : A) : option A :=
  match s with EmptyString => Some v | _ => None end.

(** [(r)?], greedy: the group is tried before its omission. *)
Definition orElse {A} (x y : option A) : option A :=
  match x with Some r => Some r | None => y end.

End JS.

(* ================================================================== *)
(** ** Serial allocator ([ItemDetailModal], module level) *)
(* ================================================================== *)

(** [/^([a-zA-Z]+)(\d+)$/]: the captures 1 and 2. *)
Definition serialRegex (s : string) : option (string * string) :=
  JS.greedyPlus JS.is_alpha s (fun g1 s1 =>
  JS.greedyPlus JS.is_digit s1 (fun g2 s2 =>
  JS.eos s2 (g1, g2))).

(** The state of the [forEach] loop of [suggestNextSerial]. *)
Definition suggestStep (st : Z * string) (s : string) : Z * string :=
  let '(maxNum, currentPrefix) := st in
  match serialRegex s with
  | Some (g1, g2) =>
      (* [num > maxNum] is false when [num] is [NaN] *)
      (match JS.parseInt g2 with
       | Some num => if maxNum <? num then num else maxNum
       | None => maxNum
       end, g1)
  | None => (maxNum, currentPrefix)
  end.

Definition suggestNextSerial (usedSerials : list string) : string :=
  match usedSerials with
  | [] => "SN00001"
  | _ =>
      let '(maxNum, currentPrefix) := fold_left suggestStep usedSerials (0, "SN") in
      let nextNum := JS.add maxNum 1 in
      let padLength := Nat.max 5 (String.length (JS.toString nextNum)) in
      currentPrefix ++ JS.padStart (JS.toString nextNum) padLength
  end.

(** The captures of [/^(.+?)(\d+)\s*~\s*(.+?)?(\d+)$/]; capture 3 is
    [None] when its optional group took no part in the match. *)
Record RangeMatch := {
  rm_prefix : string;        (* rangeMatch[1] *)
  rm_start : string;         (* rangeMatch[2] *)
  rm_endPrefix : option string;  (* rangeMatch[3] *)
  rm_end : string            (* rangeMatch[4] *)
}.

Definition rangeRegex (input : string) : option RangeMatch :=
  JS.lazyPlus JS.is_dot input (fun g1 s1 =>
  JS.greedyPlus JS.is_digit s1 (fun g2 s2 =>
  JS.greedyStar JS.is_space s2 (fun _ s3 =>
  JS.lit "~" s3 (fun s4 =>
  JS.greedyStar JS.is_space s4 (fun _ s5 =>
  JS.orElse
    (JS.lazyPlus JS.is_dot s5 (fun g3 s6 =>
     JS.greedyPlus JS.is_digit s6 (fun g4 s7 =>
     JS.eos s7 (Build_RangeMatch g1 g2 (Some g3) g4))))
    (JS.greedyPlus JS.is_digit s5 (fun g4 s7 =>
     JS.eos s7 (Build_RangeMatch g1 g2 None g4)))))))).

(** The only [throw] of the file is the [new Error(...)] of
    [parseSerialRange]; its message (in Korean) says that a serial range
    holds at most 100 numbers at a time. *)
Inductive Error := RangeTooLarge.

(** What a call does: it returns a value, it throws, or it does
    neither because its loop never ends. *)
Inductive Thrown (A : Type) :=
| Returned (v : A)
| Threw (e : Error)
| NoReturn.
Arguments Returned {A} v.
Arguments Threw {A} e.
Arguments NoReturn {A}.

(** The loop [for (let i = startNum; i <= endNum; i++)] of
    [parseSerialRange] from the counter [i], over [rounds] rounds at
    most: the serials it pushes when it ends within them, [NoReturn]
    when it has not ended by then.  The counter is a double: from 2^53
    on [i++] may leave it as it is, and the loop then never ends. *)
Fixpoint rangeLoop (prefix : string) (padLength : nat) (endNum : Z)
    (rounds : nat) (i : Z) : Thrown (list string) :=
  if endNum <? i then Returned []
  else
    match rounds with
    | O => NoReturn
    | S rounds' =>
        match rangeLoop prefix padLength endNum rounds' (JS.add i 1) with
        | Returned results =>
            Returned ((prefix ++ JS.padStart (JS.toString i) padLength) :: results)
        | other => other
        end
    end.

(** [parseSerialRange].  Its loop is run for 100 rounds, which decides
    it: the guard before the loop lets it start only when
    [endNum - startNum < 100], and it then ends within 100 rounds or
    never does ([rangeLoop_decided]). *)
Definition parseSerialRange (input : string) : Thrown (list string) :=
  match rangeRegex input with
  | None => Returned [JS.trim input]
  | Some rangeMatch =>
      let prefix := rm_prefix rangeMatch in
      let startNumStr := rm_start rangeMatch in
      let endNumStr := rm_end rangeMatch in
      match JS.parseInt startNumStr, JS.parseInt endNumStr with
      | Some startNum, Some endNum =>
          if endNum <? startNum then Returned [JS.trim input]
          else if 100 <=? JS.sub endNum startNum then Threw RangeTooLarge
          else rangeLoop prefix (String.length startNumStr) endNum 100 startNum
      | _, _ => Returned [JS.trim input]
      end
  end.

(* ================================================================== *)
(** ** Data model ([./types]) *)
(* ================================================================== *)

(** The declarations of [./types] are read off their uses: the fields
    the code reads and writes, a field being optional ([option]) when
    some object literal of the code omits it. *)

Inductive TransactionType := purchase | release.
Inductive ItemType := part | product.

Definition TransactionType_eqb (a b : TransactionType) : bool :=
  match a, b with
  | purchase, purchase | release, release => true
  | _, _ => false
  end.

Definition ItemType_eqb (a b : ItemType) : bool :=
  match a, b with
  | part, part | product, product => true
  | _, _ => false
  end.

Module Transaction.
Record t := mk {
  id : string;
  type : TransactionType;
  quantity : Z;
  date : string;
  remarks : option string;
  modelName : option string;
  userId : option string;
  serialNumber : option string;
  customerName : option string;
  address : option string;
  phoneNumber : option string
}.

(** [Partial<Transaction>]: [None] is an absent key. *)
Record partial := mkPartial {
  p_id : option string;
  p_type : option TransactionType;
  p_quantity : option Z;
  p_date : option string;
  p_remarks : option string;
  p_modelName : option string;
  p_userId : option string;
  p_serialNumber : option string;
  p_customerName : option string;
  p_address : option string;
  p_phoneNumber : option string
}.

Definition empty : partial :=
  mkPartial None None None None None None None None None None None.

(** [{ ...t }] *)
Definition spread (x : t) : partial :=
  mkPartial (Some (id x)) (Some (type x)) (Some (quantity x)) (Some (date x))
    (remarks x) (modelName x) (userId x) (serialNumber x)
    (customerName x) (address x) (phoneNumber x).

Definition over {A} (new : option A) (old : A) : A :=
  match new with Some v => v | None => old end.

Definition overOpt {A} (new old : option A) : option A :=
  match new with Some v => Some v | None => old end.

(** [{ ...t, ...updatedData }] *)
Definition merge (x : t) (u : partial) : t :=
  mk (over (p_id u) (id x)) (over (p_type u) (type x))
     (over (p_quantity u) (quantity x)) (over (p_date u) (date x))
     (overOpt (p_remarks u) (remarks x)) (overOpt (p_modelName u) (modelName x))
     (overOpt (p_userId u) (userId x)) (overOpt (p_serialNumber u) (serialNumber x))
     (overOpt (p_customerName u) (customerName x)) (overOpt (p_address u) (address x))
     (overOpt (p_phoneNumber u) (phoneNumber x)).

(** [{ ...transaction, id: newId }] *)
Definition withId (x : t) (newId : string) : t :=
  mk newId (type x) (quantity x) (date x) (remarks x) (modelName x) (userId x)
     (serialNumber x) (customerName x) (address x) (phoneNumber x).
End Transaction.

Module Item.
Record t := mk {
  id : string;
  type : ItemType;
  code : string;
  name : string;
  drawingNumber : option string;
  spec : option string;
  remarks : option string;
  registrationDate : string;
  modelName : option string;
  application : option string;
  transactions : list Transaction.t
}.

(** [{ ...item, transactions: ts }] *)
Definition withTransactions (i : t) (ts : list Transaction.t) : t :=
  mk (id i) (type i) (code i) (name i) (drawingNumber i) (spec i) (remarks i)
     (registrationDate i) (modelName i) (application i) ts.

(** The keys of [editFormData], the only [Partial<Item>] the code ever
    passes to [handleUpdateItem]: the effect on [item] sets all eight,
    and every later [setEditFormData] spreads the previous object. *)
Record edit := mkEdit {
  e_name : string;
  e_code : string;
  e_modelName : option string;
  e_application : option string;
  e_drawingNumber : option string;
  e_spec : string;
  e_remarks : option string;
  e_registrationDate : string
}.

(** [{ ...item, ...updatedData }] *)
Definition merge (i : t) (u : edit) : t :=
  mk (id i) (type i) (e_code u) (e_name u) (e_drawingNumber u) (Some (e_spec u))
     (e_remarks u) (e_registrationDate u) (e_modelName u) (e_application u)
     (transactions i).
End Item.

(* ================================================================== *)
(** ** Ledger *)
(* ================================================================== *)

(** The reducer of both folds:
    [t.type === 'purchase' ? acc + t.quantity : acc - t.quantity]. *)
Definition stockStep (acc : Z) (t : Transaction.t) : Z :=
  match Transaction.type t with
  | purchase => JS.add acc (Transaction.quantity t)
  | release => JS.sub acc (Transaction.quantity t)
  end.

(** [App]: [calculateStock]. *)
Definition calculateStock (item : Item.t) : Z :=
  fold_left stockStep (Item.transactions item) 0.

(** [ItemDetailModal]: the memo [currentStock]. *)
Definition currentStock (item : Item.t) : Z :=
  fold_left stockStep (Item.transactions item) 0.

(* ================================================================== *)
(** ** [App]: the collection and its handlers *)
(* ================================================================== *)

Inductive Role := admin | product_only.

Definition ADMIN_PASSWORD : string := "0000".
Definition PRODUCT_ONLY_PASSWORD : string := "1111".

(** What a handler shows with [alert]; the texts are Korean in the
    source, the constructors name what each says. *)
Inductive Alert :=
| WrongPassword                       (* the password is wrong *)
| ErrorMessage (e : Error)            (* [alert(err.message)] *)
| SerialsExist (shown : list string)  (* these serials already exist *)
| InvalidQuantity                     (* enter a valid quantity *)
| ExceedsStock                        (* release exceeds the current stock *)
| Registered (n : nat)                (* n records were registered *)
| NameAndCodeRequired
| CodeExists.

Fixpoint take {A} (n : nat) (l : list A) : list A :=
  match n, l with
  | S n', x :: l' => x :: take n' l'
  | _, _ => []
  end.

Definition includesString (l : list string) (s : string) : bool :=
  existsb (String.eqb s) l.

(** [Array.from(new Set(serials))]: first occurrences, in order. *)
Fixpoint setFrom (seen : list string) (l : list string) : list string :=
  match l with
  | [] => seen
  | x :: l' => setFrom (if includesString seen x then seen else seen ++ [x]) l'
  end.

Definition optTruthy (s : option string) : bool :=
  match s with Some v => JS.truthy v | None => false end.

Module App.

Definition serialsOf (item : Item.t) : list string :=
  flat_map (fun t =>
    match Transaction.serialNumber t with
    | Some sn => if JS.truthy sn then [JS.toUpperCase sn] else []
    | None => []
    end) (Item.transactions item).

(** The memo [allUsedSerials]. *)
Definition allUsedSerials (items : list Item.t) : list string :=
  setFrom [] (flat_map serialsOf items).

(** The remark of the seeding transaction (Korean in the source:
    registration of the initial quantity). *)
Definition INITIAL_REMARK : string := "initial quantity registration".

(** [handleAddItem]; [itemId] and [tId] are the two [generateId]
    results, [now] is [new Date().toISOString()].  [itemData] is an
    [Omit<Item, 'id' | 'transactions'>]: the two omitted fields of the
    record are overwritten, as the spread does. *)
Definition handleAddItem (itemId tId now : string) (itemData : Item.t)
    (initialQuantity : Z) (items : list Item.t) : list Item.t :=
  let seed :=
    if 0 <? initialQuantity then
      [Transaction.mk tId purchase initialQuantity now (Some INITIAL_REMARK)
         None None None None None None]
    else [] in
  Item.withTransactions
    (Item.mk itemId (Item.type itemData) (Item.code itemData) (Item.name itemData)
       (Item.drawingNumber itemData) (Item.spec itemData) (Item.remarks itemData)
       (Item.registrationDate itemData) (Item.modelName itemData)
       (Item.application itemData) [])
    seed :: items.

Definition handleUpdateItem (itemId : string) (updatedData : Item.edit)
    (items : list Item.t) : list Item.t :=
  map (fun item =>
    if String.eqb (Item.id item) itemId then Item.merge item updatedData else item)
    items.

(** [transaction] is an [Omit<Transaction, 'id'>]: its [id] is
    overwritten with [newId], the [generateId] result. *)
Definition handleAddTransaction (newId : string) (itemId : string)
    (transaction : Transaction.t) (items : list Item.t) : list Item.t :=
  let newTransaction := Transaction.withId transaction newId in
  map (fun item =>
    if String.eqb (Item.id item) itemId
    then Item.withTransactions item (Item.transactions item ++ [newTransaction])
    else item) items.

Definition handleUpdateTransaction (itemId transactionId : string)
    (updatedData : Transaction.partial) (items : list Item.t) : list Item.t :=
  map (fun item =>
    if String.eqb (Item.id item) itemId
    then Item.withTransactions item
           (map (fun t =>
              if String.eqb (Transaction.id t) transactionId
              then Transaction.merge t updatedData else t)
              (Item.transactions item))
    else item) items.

Definition handleDeleteTransaction (itemId transactionId : string)
    (items : list Item.t) : list Item.t :=
  map (fun item =>
    if String.eqb (Item.id item) itemId
    then Item.withTransactions item
           (filter (fun t => negb (String.eqb (Transaction.id t) transactionId))
              (Item.transactions item))
    else item) items.

(** The part of the component state the item deletion reads and sets. *)
Record State := mkState {
  items : list Item.t;
  authRole : option Role;
  deletePassword : string;
  itemToDelete : option string     (* the [id] of [itemToDelete] *)
}.

Definition handleDeleteItemConfirm (st : State) : list Alert * State :=
  let correctPassword :=
    match authRole st with
    | Some admin => ADMIN_PASSWORD
    | _ => PRODUCT_ONLY_PASSWORD
    end in
  if negb (String.eqb (deletePassword st) correctPassword) then
    ([WrongPassword], st)
  else
    match itemToDelete st with
    | Some target =>
        ([], mkState
               (filter (fun i => negb (String.eqb (Item.id i) target)) (items st))
               (authRole st) "" None)
    | None => ([], st)
    end.

End App.

(* ================================================================== *)
(** ** [AddItemModal]: [handleSubmit] *)
(* ================================================================== *)

Module AddItemModal.

Record FormData := mkForm {
  registrationDate : string;
  code : string;
  name : string;
  drawingNumber : string;
  spec : string;
  remarks : string;
  initialQuantity : string
}.

(** The memo [isCodeDuplicate]. *)
Definition isCodeDuplicate (formData : FormData) (existingCodes : list string) : bool :=
  if negb (JS.truthy (JS.trim (code formData))) then false
  else existsb (fun c =>
         String.eqb (JS.toUpperCase c) (JS.toUpperCase (JS.trim (code formData))))
         existingCodes.

(** [handleSubmit], with [onAddItem] bound to [App.handleAddItem] and
    [existingCodes] to the codes of [items]. *)
Definition handleSubmit (itemId tId now : string) (itemType : ItemType)
    (formData : FormData) (items : list Item.t) : list Alert * list Item.t :=
  if negb (JS.truthy (code formData)) || negb (JS.truthy (name formData)) then
    ([NameAndCodeRequired], items)
  else if isCodeDuplicate formData (map Item.code items) then
    ([CodeExists], items)
  else
    let quantity := JS.orZero (JS.parseInt (initialQuantity formData)) in
    ([], App.handleAddItem itemId tId now
           (Item.mk "" itemType (code formData) (name formData)
              (Some (drawingNumber formData)) (Some (spec formData))
              (Some (remarks formData)) (registrationDate formData)
              (Some "") (Some "") [])
           quantity items).

End AddItemModal.

(* ================================================================== *)
(** ** [ItemDetailModal]: state and handlers *)
(* ================================================================== *)

Module Modal.

Inductive ActionType := act_item | act_trans_save | act_trans_delete.

(** [showPasswordInput]: [{ type; targetId? }]. *)
Record Action := mkAction {
  a_type : ActionType;
  targetId : option string
}.

(** The names of the inputs wired to [handleTransEditChange]. *)
Inductive EditField :=
| f_quantity | f_modelName | f_userId | f_serialNumber
| f_customerName | f_phoneNumber | f_address | f_remarks.

Record State := mkState {
  transactionType : TransactionType;
  quantity : string;
  transRemarks : string;
  transModelName : string;
  transUserId : string;
  serialNumber : string;
  customerName : string;
  address : string;
  phoneNumber : string;
  isEditing : bool;
  editingTransactionId : option string;
  transEditData : Transaction.partial;
  showPasswordInput : option Action;
  password : string;
  editFormData : Item.edit
}.

Definition setDialog (st : State) (a : option Action) (pw : string)
    (editing : bool) (editingId : option string) : State :=
  mkState (transactionType st) (quantity st) (transRemarks st) (transModelName st)
    (transUserId st) (serialNumber st) (customerName st) (address st)
    (phoneNumber st) editing editingId (transEditData st) a pw (editFormData st).

Definition setTransEditData (st : State) (d : Transaction.partial)
    (editingId : option string) : State :=
  mkState (transactionType st) (quantity st) (transRemarks st) (transModelName st)
    (transUserId st) (serialNumber st) (customerName st) (address st)
    (phoneNumber st) (isEditing st) editingId d (showPasswordInput st)
    (password st) (editFormData st).

(** The state after a registered transaction: the form is cleared and
    the serial field holds the next suggestion. *)
Definition resetForm (st : State) (suggestion : string) : State :=
  mkState (transactionType st) "" "" "" "" suggestion "" "" ""
    (isEditing st) (editingTransactionId st) (transEditData st)
    (showPasswordInput st) (password st) (editFormData st).

(** The memo [isSerialDuplicate]; the submit button is disabled while
    it holds. *)
Definition isSerialDuplicate (allUsedSerials : list string) (st : State) : bool :=
  if negb (JS.truthy (JS.trim (serialNumber st))) || JS.includes "~" (serialNumber st)
  then false
  else includesString allUsedSerials (JS.toUpperCase (serialNumber st)).

(** The object literal of the range branch of [handleAddTransaction]. *)
Definition rangeTransaction (now : string) (st : State) (s : string) : Transaction.t :=
  Transaction.mk "" (transactionType st) 1 now
    (Some (transRemarks st)) (Some (transModelName st)) (Some (transUserId st))
    (Some s) (Some (customerName st)) (Some (address st)) (Some (phoneNumber st)).

(** The object literal of its other branch. *)
Definition singleTransaction (now : string) (item : Item.t) (st : State)
    (count : Z) : Transaction.t :=
  let ifProduct (v : string) : string :=
    match Item.type item with product => v | part => "" end in
  Transaction.mk "" (transactionType st) count now
    (Some (transRemarks st)) (Some (transModelName st)) (Some (transUserId st))
    (Some (ifProduct (JS.toUpperCase (serialNumber st))))
    (Some (ifProduct (customerName st))) (Some (ifProduct (address st)))
    (Some (ifProduct (phoneNumber st))).

(** [targetSerials.forEach(s => onAddTransaction(item.id, {...}))];
    [fresh k] is the [generateId] result of the [k]-th call. *)
Fixpoint addEach (fresh : nat -> string) (now : string) (itemId : string)
    (st : State) (k : nat) (targetSerials : list string)
    (items : list Item.t) : list Item.t :=
  match targetSerials with
  | [] => items
  | s :: rest =>
      addEach fresh now itemId st (S k) rest
        (App.handleAddTransaction (fresh k) itemId (rangeTransaction now st s) items)
  end.

(** The first lines of [handleAddTransaction]: [targetSerials] and
    [isRange], or the error caught from [parseSerialRange]. *)
Definition expandInput (item : Item.t) (st : State) : Thrown (list string * bool) :=
  if ItemType_eqb (Item.type item) product && JS.includes "~" (serialNumber st)
  then match parseSerialRange (JS.toUpperCase (serialNumber st)) with
       | Returned l => Returned (l, true)
       | Threw e => Threw e
       | NoReturn => NoReturn
       end
  else Returned ([JS.trim (JS.toUpperCase (serialNumber st))], false).

(** [targetSerials.filter(s => !!s && allUsedSerials.includes(s))] *)
Definition duplicatesIn (allUsedSerials targetSerials : list string) : list string :=
  filter (fun s => JS.truthy s && includesString allUsedSerials s) targetSerials.

(** [isRange ? targetSerials.length : (parseInt(quantity, 10) || 0)] *)
Definition countOf (st : State) (targetSerials : list string) (isRange : bool) : Z :=
  if isRange then Z.of_nat (List.length targetSerials)
  else JS.orZero (JS.parseInt (quantity st)).

(** [handleAddTransaction], once [targetSerials] and [isRange] are
    there. *)
Definition submitExpanded (fresh : nat -> string) (now : string)
    (item : Item.t) (allUsedSerials : list string)
    (items : list Item.t) (st : State) (targetSerials : list string)
    (isRange : bool) : list Alert * list Item.t * State :=
  let duplicates := duplicatesIn allUsedSerials targetSerials in
  if (0 <? List.length duplicates)%nat then
    ([SerialsExist (take 5 duplicates)], items, st)
  else
    let count := countOf st targetSerials isRange in
    if count <=? 0 then ([InvalidQuantity], items, st)
    else if TransactionType_eqb (transactionType st) release
            && (currentStock item <? count)
    then ([ExceedsStock], items, st)
    else
      let suggestion := suggestNextSerial (allUsedSerials ++ targetSerials) in
      if isRange then
        ([Registered (List.length targetSerials)],
         addEach fresh now (Item.id item) st 0 targetSerials items,
         resetForm st suggestion)
      else
        ([],
         App.handleAddTransaction (fresh 0%nat) (Item.id item)
           (singleTransaction now item st count) items,
         resetForm st suggestion).

(** [handleAddTransaction]: the props [item] and [allUsedSerials], the
    collection [items] behind [onAddTransaction], and the form state.
    The call shows alerts and leaves a collection and a form state, or
    does not return ([None]) when [parseSerialRange] does not. *)
Definition handleAddTransaction (fresh : nat -> string) (now : string)
    (item : Item.t) (allUsedSerials : list string)
    (items : list Item.t) (st : State)
    : option (list Alert * list Item.t * State) :=
  match expandInput item st with
  | NoReturn => None
  | Threw e => Some ([ErrorMessage e], items, st)
  | Returned (targetSerials, isRange) =>
      Some (submitExpanded fresh now item allUsedSerials items st
              targetSerials isRange)
  end.

(** [handleEditTransaction] *)
Definition handleEditTransaction (t : Transaction.t) (st : State) : State :=
  setTransEditData st (Transaction.spread t) (Some (Transaction.id t)).

(** [{ ...prev, [name]: processedValue }] *)
Definition setField (name : EditField) (value : string)
    (prev : Transaction.partial) : Transaction.partial :=
  let '(Transaction.mkPartial i ty q d rem mn uid sn cn ad ph) := prev in
  match name with
  | f_quantity =>
      Transaction.mkPartial i ty (Some (JS.orZero (JS.parseInt value))) d rem mn uid sn cn ad ph
  | f_serialNumber =>
      Transaction.mkPartial i ty q d rem mn uid (Some (JS.toUpperCase value)) cn ad ph
  | f_modelName => Transaction.mkPartial i ty q d rem (Some value) uid sn cn ad ph
  | f_userId => Transaction.mkPartial i ty q d rem mn (Some value) sn cn ad ph
  | f_customerName => Transaction.mkPartial i ty q d rem mn uid sn (Some value) ad ph
  | f_phoneNumber => Transaction.mkPartial i ty q d rem mn uid sn cn ad (Some value)
  | f_address => Transaction.mkPartial i ty q d rem mn uid sn cn (Some value) ph
  | f_remarks => Transaction.mkPartial i ty q d (Some value) mn uid sn cn ad ph
  end.

(** [handleTransEditChange], on the input [name] holding [value]. *)
Definition handleTransEditChange (name : EditField) (value : string)
    (st : State) : State :=
  setTransEditData st (setField name value (transEditData st))
    (editingTransactionId st).

(** [handleSaveTransEdit] and [handleDeleteTrans] *)
Definition handleSaveTransEdit (tId : string) (st : State) : State :=
  setDialog st (Some (mkAction act_trans_save (Some tId))) (password st)
    (isEditing st) (editingTransactionId st).

Definition handleDeleteTrans (tId : string) (st : State) : State :=
  setDialog st (Some (mkAction act_trans_delete (Some tId))) (password st)
    (isEditing st) (editingTransactionId st).

(** The input of the password dialog: [setPassword(e.target.value)]. *)
Definition typePassword (pw : string) (st : State) : State :=
  setDialog st (showPasswordInput st) pw (isEditing st)
    (editingTransactionId st).

(** [handleActionConfirm]: the props [item] and [authRole], the
    collection behind the three callbacks, and the dialog state. *)
Definition handleActionConfirm (authRole : Role) (item : Item.t)
    (items : list Item.t) (st : State) : list Alert * list Item.t * State :=
  let requiredPass :=
    match authRole with
    | admin => ADMIN_PASSWORD
    | product_only => PRODUCT_ONLY_PASSWORD
    end in
  if negb (String.eqb (password st) requiredPass) then ([WrongPassword], items, st)
  else
    let currentAction := showPasswordInput st in
    let cleared editing editingId := setDialog st None "" editing editingId in
    let unchanged := ([], items, cleared (isEditing st) (editingTransactionId st)) in
    match currentAction with
    | Some (mkAction act_item _) =>
        ([], App.handleUpdateItem (Item.id item) (editFormData st) items,
         cleared false (editingTransactionId st))
    | Some (mkAction act_trans_save (Some tid)) =>
        if JS.truthy tid then
          ([], App.handleUpdateTransaction (Item.id item) tid (transEditData st) items,
           cleared (isEditing st) None)
        else unchanged
    | Some (mkAction act_trans_delete (Some tid)) =>
        if JS.truthy tid then
          ([], App.handleDeleteTransaction (Item.id item) tid items,
           cleared (isEditing st) (editingTransactionId st))
        else unchanged
    | _ => unchanged
    end.

(** [setSerialNumber] *)
Definition setSerialNumber (s : string) (st : State) : State :=
  mkState (transactionType st) (quantity st) (transRemarks st) (transModelName st)
    (transUserId st) s (customerName st) (address st) (phoneNumber st)
    (isEditing st) (editingTransactionId st) (transEditData st)
    (showPasswordInput st) (password st) (editFormData st).

(** The effect on [item] and [allUsedSerials]: an empty serial field of
    a product is filled with the suggestion. *)
Definition suggestOnOpen (item : Item.t) (allUsedSerials : list string)
    (st : State) : State :=
  if ItemType_eqb (Item.type item) product && negb (JS.truthy (serialNumber st))
  then setSerialNumber (suggestNextSerial allUsedSerials) st
  else st.

(** The memo [isCodeDuplicate] of the dialog. *)
Definition isCodeDuplicate (item : Item.t) (existingCodes : list string)
    (st : State) : bool :=
  let code := Item.e_code (editFormData st) in
  if negb (JS.truthy code) || String.eqb code (Item.code item) then false
  else existsb (fun c => String.eqb (JS.toUpperCase c) (JS.toUpperCase code))
         existingCodes.

(** [handleToggleEdit] *)
Definition handleToggleEdit (item : Item.t) (existingCodes : list string)
    (st : State) : list Alert * State :=
  if isEditing st then
    if negb (JS.truthy (Item.e_name (editFormData st)))
       || negb (JS.truthy (Item.e_code (editFormData st)))
    then ([NameAndCodeRequired], st)
    else if isCodeDuplicate item existingCodes st then ([CodeExists], st)
    else ([], setDialog st (Some (mkAction act_item None)) (password st)
                (isEditing st) (editingTransactionId st))
  else ([], setDialog st (showPasswordInput st) (password st) true
              (editingTransactionId st)).

End Modal.

(* ================================================================== *)
(** ** [App]: the persist-and-push effect *)
(* ================================================================== *)

Module Sync.

(** The delay of the [setTimeout], in milliseconds (an earlier revision
    of the component waits 1000; no property below depends on the
    value). *)
Definition DEBOUNCE_MS : Z := 2000.

(** A pending [setTimeout(() => saveToServer(items), DEBOUNCE_MS)]:
    the id [setTimeout] returned, the time it is due, and the [items]
    its callback closes over. *)
Record Timer := mkTimer {
  timerId : nat;
  due : Z;
  payload : list Item.t
}.

Record State := mkState {
  clock : Z;                           (* milliseconds *)
  items : list Item.t;                 (* the React state *)
  localStorage : option (list Item.t); (* the value under [STORAGE_KEY] *)
  timers : list Timer;                 (* the pending timeouts, oldest first *)
  nextTimerId : nat;                   (* the id the next [setTimeout] returns *)
  cleanup : option nat;                (* the cleanup the last run of the effect
                                          returned: the timer it clears *)
  pushed : list (list Item.t)          (* the calls of [saveToServer], oldest first *)
}.

(** Before the component is mounted. *)
Definition init : State := mkState 0 [] None [] 1 None [].

Definition clearTimeout (id : nat) (ts : list Timer) : list Timer :=
  filter (fun t => negb (timerId t =? id)%nat) ts.

(** One run of the effect on [items]: the cleanup of the previous run,
    if it returned one, clears its timer; the collection is stored; when
    it is not empty a timer is started and its cleanup returned. *)
Definition runEffect (st : State) : State :=
  let ts :=
    match cleanup st with
    | Some id => clearTimeout id (timers st)
    | None => timers st
    end in
  match items st with
  | [] =>
      mkState (clock st) (items st) (Some (items st)) ts (nextTimerId st) None
        (pushed st)
  | _ =>
      let id := nextTimerId st in
      mkState (clock st) (items st) (Some (items st))
        (ts ++ [mkTimer id (clock st + DEBOUNCE_MS) (items st)])
        (S id) (Some id) (pushed st)
  end.

(** [setItems(next)]: the state changes and the effect runs. *)
Definition setItems (next : list Item.t) (st : State) : State :=
  runEffect
    (mkState (clock st) next (localStorage st) (timers st) (nextTimerId st)
       (cleanup st) (pushed st)).

(** [dt] milliseconds pass: the timers that are due run their callback,
    oldest first (all have the same delay), and leave the table. *)
Definition advance (dt : Z) (st : State) : State :=
  let now := clock st + dt in
  let isDue (t : Timer) := due t <=? now in
  mkState now (items st) (localStorage st)
    (filter (fun t => negb (isDue t)) (timers st))
    (nextTimerId st) (cleanup st)
    (pushed st ++ map payload (filter isDue (timers st))).

Inductive Event :=
| Change (next : list Item.t)
| Wait (dt : Z).

Definition step (st : State) (e : Event) : State :=
  match e with
  | Change next => setItems next st
  | Wait dt => advance dt st
  end.

Definition run (es : list Event) (st : State) : State := fold_left step es st.

(** The component once mounted: the effect has run on the empty
    collection. *)
Definition mounted : State := runEffect init.

End Sync.

(* ================================================================== *)
(** ** [App]: loading the collection at mount *)
(* ================================================================== *)

Module Startup.

Inductive SyncStatus := idle | loading | success | error.

(** What the request of [fetchFromServer] comes to. *)
Inductive Response :=
| Snapshot (parsedItems : option (list Item.t))
    (* [data.result] is there and parses; [parsed.items], if it has any *)
| NoResult  (* [data.result] is [null] *)
| Failed.   (* the request or the parsing threw *)

Record State := mkState {
  items : list Item.t;                 (* the React state, as rendered *)
  queued : option (list Item.t);       (* a [setItems] waiting for the next render *)
  localStorage : option (list Item.t); (* the value under [STORAGE_KEY], parsed *)
  syncStatus : SyncStatus
}.

Definition setSyncStatus (s : SyncStatus) (st : State) : State :=
  mkState (items st) (queued st) (localStorage st) s.

(** [setItems(next)] *)
Definition setItems (next : list Item.t) (st : State) : State :=
  mkState (items st) (Some next) (localStorage st) (syncStatus st).

(** [const savedItems = localStorage.getItem(STORAGE_KEY);
     if (savedItems) setItems(JSON.parse(savedItems));] *)
Definition loadLocal (st : State) : State :=
  match localStorage st with
  | Some saved => setItems saved st
  | None => st
  end.

(** [fetchFromServer] up to its first [await], or to its [return] when
    the store is not configured. *)
Definition fetchStart (configured : bool) (st : State) : State :=
  if configured then setSyncStatus loading st else loadLocal st.

(** [fetchFromServer] after its [await]s. *)
Definition fetchResume (response : Response) (st : State) : State :=
  match response with
  | Snapshot parsedItems =>
      setSyncStatus success
        (setItems (match parsedItems with Some l => l | None => [] end) st)
  | NoResult => setSyncStatus idle (loadLocal st)
  | Failed => setSyncStatus error (loadLocal st)
  end.

(** The effect on [items]: [localStorage.setItem(STORAGE_KEY, ...)]. *)
Definition persist (st : State) : State :=
  mkState (items st) (queued st) (Some (items st)) (syncStatus st).

(** A render: a queued [setItems] becomes the state, and the effect on
    [items] runs on it. *)
Definition render (st : State) : State :=
  match queued st with
  | Some next => persist (mkState next None (localStorage st) (syncStatus st))
  | None => st
  end.

(** The component after mount, [stored] being what local storage held
    before.  The two effects of the first render run one after the
    other, both on the [items] of that render, [[]]: [fetchFromServer]
    as far as it goes without waiting, then the effect on [items]; the
    state updates they made are rendered; when the store is configured,
    the rest of [fetchFromServer] runs once the request has come to
    [response], and is rendered. *)
Definition mount (configured : bool) (stored : option (list Item.t))
    (response : Response) : State :=
  let first := mkState [] None stored idle in
  let mounted := render (persist (fetchStart configured first)) in
  if configured then render (fetchResume response mounted) else mounted.

End Startup.

(* ================================================================== *)
(** ** The dialog mounted in [App] *)
(* ================================================================== *)

(** [App] renders [ItemDetailModal] for [selectedItem], the first item
    whose [id] is [selectedItemId], with [allUsedSerials] computed from
    the same collection; nothing is rendered when there is none. *)
Module Mounted.

Definition selectedItem (selectedItemId : string) (items : list Item.t) : option Item.t :=
  find (fun i => String.eqb (Item.id i) selectedItemId) items.

Definition submitTransaction (fresh : nat -> string) (now : string)
    (selectedItemId : string) (items : list Item.t) (st : Modal.State)
    : option (list Alert * list Item.t * Modal.State) :=
  match selectedItem selectedItemId items with
  | Some item =>
      Modal.handleAddTransaction fresh now item (App.allUsedSerials items) items st
  | None => Some ([], items, st)
  end.

Definition confirmAction (authRole : Role) (selectedItemId : string)
    (items : list Item.t) (st : Modal.State) : list Alert * list Item.t * Modal.State :=
  match selectedItem selectedItemId items with
  | Some item => Modal.handleActionConfirm authRole item items st
  | None => ([], items, st)
  end.

End Mounted.

(* ================================================================== *)
(** ** Vocabulary of the properties *)
(* ================================================================== *)

Definition sumZ (l : list Z) : Z := fold_right Z.add 0 l.

(** The quantities of the transactions of one direction. *)
Definition quantitiesOf (ty : TransactionType) (ts : list Transaction.t) : list Z :=
  map Transaction.quantity
    (filter (fun t => TransactionType_eqb (Transaction.type t) ty) ts).

Definition inboundTotal (ts : list Transaction.t) : Z := sumZ (quantitiesOf purchase ts).
Definition outboundTotal (ts : list Transaction.t) : Z := sumZ (quantitiesOf release ts).

(** The quantities of [ts] added up in size, whatever their direction:
    no partial sum of the fold, in any order, is larger. *)
Definition magnitude (ts : list Transaction.t) : Z :=
  sumZ (map (fun t => Z.abs (Transaction.quantity t)) ts).

(** A double: an integer that is its own nearest double. *)
Definition isDouble (z : Z) : Prop := JS.round z = z.

(** Every character of [s] is in the class [p]. *)
Fixpoint allChars (p : ascii -> bool) (s : string) : bool :=
  match s with
  | EmptyString => true
  | String c s' => p c && allChars p s'
  end.

(** The rest of the input does not start with a character of [p]. *)
Definition stopsAt (p : ascii -> bool) (rest : string) : Prop :=
  match rest with
  | EmptyString => True
  | String c _ => p c = false
  end.

(** A non-empty run of decimal digits. *)
Definition isDigits (s : string) : Prop := s <> "" /\ allChars JS.is_digit s = true.

(** A non-empty run of letters. *)
Definition isLetters (s : string) : Prop := s <> "" /\ allChars JS.is_alpha s = true.

(** A character a serial prefix may hold for the range pattern to split
    the input after it: no digit, no white space. *)
Definition prefixChar (c : ascii) : bool :=
  negb (JS.is_digit c) && negb (JS.is_space c).

Definition isPrefix (s : string) : Prop := s <> "" /\ allChars prefixChar s = true.

(** The integers [a, a+1, ..., a+n-1]. *)
Definition zseq (a : Z) (n : nat) : list Z := map (fun k => a + Z.of_nat k) (seq 0 n).

(** The serials [prefix<a>, ..., prefix<b>], numbers padded to [width]. *)
Definition serialsFromTo (prefix : string) (width : nat) (a b : Z) : list string :=
  map (fun i => prefix ++ JS.padStart (JS.toString i) width)
      (zseq a (Z.to_nat (b - a + 1))).

(** The used serials that match [<letters><digits>], as prefix and
    number. *)
Definition parsedSerials (usedSerials : list string) : list (string * Z) :=
  flat_map (fun s =>
    match serialRegex s with
    | Some (g1, g2) => [(g1, JS.digitsVal 0 g2)]
    | None => []
    end) usedSerials.

(** The largest numeric suffix among them, 0 when there is none. *)
Definition maxSuffix (usedSerials : list string) : Z :=
  fold_right Z.max 0 (map snd (parsedSerials usedSerials)).

(** The prefix of the last used serial that matches, ["SN"] when none does. *)
Definition lastPrefix (usedSerials : list string) : string :=
  last (map fst (parsedSerials usedSerials)) "SN".

(** In the words of the specification: the alphabetic prefix of
    whichever serial carried the maximum (the first one, when several
    do). *)
Definition prefixOfMax (usedSerials : list string) : string :=
  match find (fun ps => snd ps =? maxSuffix usedSerials) (parsedSerials usedSerials) with
  | Some ps => fst ps
  | None => "SN"
  end.

(** The largest suffix is below 2^53: every suffix is a double, and so
    is the number after the largest. *)
Definition suffixesSafe (usedSerials : list string) : Prop :=
  maxSuffix usedSerials < JS.two53.

(** [n] written with at least five digits. *)
Definition fiveDigits (n : Z) : string :=
  JS.padStart (JS.toString n) (Nat.max 5 (String.length (JS.toString n))).

(** The collection after [newTxs] were appended to the ledger of the
    items with [id] [itemId]. *)
Definition appendTransactions (itemId : string) (newTxs : list Transaction.t)
    (items : list Item.t) : list Item.t :=
  map (fun item =>
    if String.eqb (Item.id item) itemId
    then Item.withTransactions item (Item.transactions item ++ newTxs)
    else item) items.

(** The transactions of a range submission: one per serial, the [k]-th
    stamped with the [k]-th generated id. *)
Fixpoint stamped (fresh : nat -> string) (now : string) (st : Modal.State)
    (k : nat) (serials : list string) : list Transaction.t :=
  match serials with
  | [] => []
  | s :: rest =>
      Transaction.withId (Modal.rangeTransaction now st s) (fresh k)
        :: stamped fresh now st (S k) rest
  end.

(** The transactions an accepted submission adds. *)
Definition submittedTransactions (fresh : nat -> string) (now : string)
    (item : Item.t) (st : Modal.State) (targetSerials : list string)
    (isRange : bool) : list Transaction.t :=
  if isRange then stamped fresh now st 0 targetSerials
  else [Transaction.withId
          (Modal.singleTransaction now item st (Modal.countOf st targetSerials isRange))
          (fresh 0%nat)].

(** A serial of the submission is already in the registry. *)
Definition collides (registry targetSerials : list string) : Prop :=
  exists s, In s targetSerials /\ s <> "" /\ In s registry.

(** Every transaction of the collection has a positive quantity. *)
Definition quantitiesPositive (items : list Item.t) : bool :=
  forallb (fun item =>
    forallb (fun t => 0 <? Transaction.quantity t) (Item.transactions item)) items.

(** No two transactions of the collection carry the same non-empty
    serial, upper case and lower case taken as equal. *)
Fixpoint distinct (l : list string) : bool :=
  match l with
  | [] => true
  | x :: l' => negb (includesString l' x) && distinct l'
  end.

Definition serialsUnique (items : list Item.t) : bool :=
  distinct (flat_map App.serialsOf items).

(** The secret a role must re-enter. *)
Definition secretOf (role : Role) : string :=
  match role with
  | admin => ADMIN_PASSWORD
  | product_only => PRODUCT_ONLY_PASSWORD
  end.

(** [burst] is a run of changes, each followed by a pause shorter than
    the delay of the timer. *)
Definition runBurst (burst : list (list Item.t * Z)) (st : Sync.State) : Sync.State :=
  fold_left (fun s cd => Sync.advance (snd cd) (Sync.setItems (fst cd) s)) burst st.

Definition shortPauses (burst : list (list Item.t * Z)) : Prop :=
  Forall (fun cd => 0 <= snd cd < Sync.DEBOUNCE_MS) burst.

(** Every pending timer is the one the cleanup of the last run of the
    effect clears. *)
Definition cleanupCovers (st : Sync.State) : Prop :=
  Forall (fun t => Sync.cleanup st = Some (Sync.timerId t)) (Sync.timers st).

(** What the timer pushes for a collection: nothing when it is empty. *)
Definition pushOf (items : list Item.t) : list (list Item.t) :=
  match items with
  | [] => []
  | _ => [items]
  end.

(** *** Sample data *)

Definition sampleTx (tid : string) (ty : TransactionType) (q : Z)
    (sn : option string) : Transaction.t :=
  Transaction.mk tid ty q "2024-01-01T00:00:00.000Z" None None None sn None None None.

Definition sampleItem (iid : string) (ty : ItemType) (cd : string)
    (ts : list Transaction.t) : Item.t :=
  Item.mk iid ty cd "WIDGET" None None None "2024-01-01" None None ts.

Definition sampleEdit : Item.edit :=
  Item.mkEdit "WIDGET" "CT1" None None None "" None "2024-01-01".

(** The dialog as it opens: an empty form, nothing being edited. *)
Definition sampleModal : Modal.State :=
  Modal.mkState purchase "" "" "" "" "" "" "" "" false None Transaction.empty
    None "" sampleEdit.

(** The form filled for a submission. *)
Definition sampleForm (ty : TransactionType) (qty serial : string) : Modal.State :=
  Modal.mkState ty qty "" "" "" serial "" "" "" false None Transaction.empty
    None "" sampleEdit.

(** The steps of an edit of transaction [t]: open the row, change one
    field, ask to save, type the secret. *)
Definition sampleEditSteps (t : Transaction.t) (field : Modal.EditField)
    (value secret : string) : Modal.State :=
  Modal.typePassword secret
    (Modal.handleSaveTransEdit (Transaction.id t)
       (Modal.handleTransEditChange field value
          (Modal.handleEditTransaction t sampleModal))).

Definition sampleFresh (k : nat) : string := "t-new-" ++ JS.toString (Z.of_nat k).
Definition sampleNow : string := "2024-02-02T00:00:00.000Z".

(** *** Invariants of the collection *)

(** No two items share an [id]. *)
Definition idsUnique (items : list Item.t) : Prop := NoDup (map Item.id items).

(** No two transactions of the item share an [id]. *)
Definition txIdsUnique (item : Item.t) : Prop :=
  NoDup (map Transaction.id (Item.transactions item)).

(** No two items share a code, upper case and lower case taken as equal. *)
Definition codesUnique (items : list Item.t) : Prop :=
  NoDup (map (fun i => JS.toUpperCase (Item.code i)) items).

(** No item has a negative stock. *)
Definition stocksNonNegative (items : list Item.t) : Prop :=
  Forall (fun i => 0 <= calculateStock i) items.

(** The form of [AddItemModal] filled in. *)
Definition sampleItemForm (cd nm qty : string) : AddItemModal.FormData :=
  AddItemModal.mkForm "2024-01-01" cd nm "" "" "" qty.

(** The entries a list of transactions contributes to the registry. *)
Definition txSerials (ts : list Transaction.t) : list string :=
  flat_map (fun t =>
    match Transaction.serialNumber t with
    | Some sn => if JS.truthy sn then [JS.toUpperCase sn] else []
    | None => []
    end) ts.

(** What holds of the effect at every moment: the stored collection is
    the one in memory; at most one timer is pending, it is the one the
    cleanup clears and it carries the collection in memory, which is
    not empty; nothing empty was pushed. *)
Definition syncInvariant (st : Sync.State) : Prop :=
  cleanupCovers st
  /\ Sync.localStorage st = Some (Sync.items st)
  /\ (List.length (Sync.timers st) <= 1)%nat
  /\ Forall (fun t => Sync.payload t = Sync.items st /\ Sync.items st <> [])
       (Sync.timers st)
  /\ Forall (fun c => c <> []) (Sync.pushed st).

(** What a transaction contributes to the stock of its item. *)
Definition contribution (t : Transaction.t) : Z :=
  match Transaction.type t with
  | purchase => Transaction.quantity t
  | release => - Transaction.quantity t
  end.

(** *** Proof steps *)

(** A fact on one character: by cases on its eight bits. *)
Ltac by_bits c :=
  destruct c as [[|] [|] [|] [|] [|] [|] [|] [|]];
  vm_compute in *; congruence.

(** The value of a digit literal. *)
Ltac eval_digit :=
  match goal with
  | |- context [JS.digitVal ?c] =>
      let v := eval vm_compute in (JS.digitVal c) in
      change (JS.digitVal c) with v
  end.

(* ================================================================== *)
(** * Properties *)
(* ================================================================== *)

(** ** The arithmetic of doubles on integers *)

Lemma pow52 : 2 ^ 52 = 4503599627370496. Proof. reflexivity. Qed.
Lemma pow53 : 2 ^ 53 = 9007199254740992. Proof. reflexivity. Qed.

(** An integer from 2^53 on, split at the unit of its 53 leading bits. *)
Lemma big_split (a : Z) :
  JS.two53 <= a ->
  let e := Z.log2 a - 52 in
  let u := 2 ^ e in
  1 <= e /\ 2 <= u /\ 0 <= a mod u < u /\ a = (a / u) * u + a mod u
  /\ 4503599627370496 <= a / u < 9007199254740992.
Proof.
  intros Ha e u. unfold JS.two53 in Ha.
  assert (H53 : 53 <= Z.log2 a).
  { change 53 with (Z.log2 (2 ^ 53)). apply Z.log2_le_mono. rewrite pow53. exact Ha. }
  assert (He : 1 <= e) by (unfold e; lia).
  assert (Hu : 0 < u) by (apply Z.pow_pos_nonneg; lia).
  assert (Hu2 : 2 <= u).
  { unfold u. replace e with (1 + (e - 1)) by lia. rewrite Z.pow_add_r by lia.
    assert (0 < 2 ^ (e - 1)) by (apply Z.pow_pos_nonneg; lia). lia. }
  destruct (Z.log2_spec a) as [Hlo Hhi]; [lia|].
  assert (E1 : 2 ^ Z.log2 a = 4503599627370496 * u).
  { unfold u, e. rewrite <- pow52, <- Z.pow_add_r by lia. f_equal. lia. }
  assert (E2 : 2 ^ Z.succ (Z.log2 a) = 9007199254740992 * u).
  { unfold u, e. rewrite <- pow53, <- Z.pow_add_r by lia. f_equal. lia. }
  rewrite E1 in Hlo. rewrite E2 in Hhi.
  assert (Hmod := Z.mod_pos_bound a u Hu).
  assert (Hdiv := Z.div_mod a u ltac:(lia)).
  repeat split; try lia.
  - apply Z.div_le_lower_bound; lia.
  - apply Z.div_lt_upper_bound; lia.
Qed.

Lemma nearest_small (a : Z) : a < JS.two53 -> JS.nearest a = a.
Proof. intro H. unfold JS.nearest. destruct (Z.ltb_spec a JS.two53); [reflexivity | lia]. Qed.

(* what JS.nearest does to a >= 2^53, in terms of its unit *)
Lemma nearest_big (a : Z) :
  JS.two53 <= a ->
  let u := 2 ^ (Z.log2 a - 52) in
  let m := a / u in
  let r := a mod u in
  (2 * r < u /\ JS.nearest a = m * u)
  \/ (u < 2 * r /\ JS.nearest a = (m + 1) * u)
  \/ (2 * r = u /\ Z.even m = true /\ JS.nearest a = m * u)
  \/ (2 * r = u /\ Z.even m = false /\ JS.nearest a = (m + 1) * u).
Proof.
  intros Ha u m r. unfold JS.nearest.
  destruct (Z.ltb_spec a JS.two53); [lia|].
  fold u. fold m. fold r.
  destruct (Z.ltb_spec (2 * r) u); [left; auto|].
  destruct (Z.ltb_spec u (2 * r)); [right; left; auto|].
  destruct (Z.even m) eqn:E; [right; right; left | right; right; right];
    repeat split; auto; lia.
Qed.

Lemma nearest_between (a : Z) :
  JS.two53 <= a ->
  let u := 2 ^ (Z.log2 a - 52) in
  (a / u) * u <= JS.nearest a <= (a / u + 1) * u.
Proof.
  intros Ha u.
  destruct (big_split a Ha) as (He & Hu & Hr & Hsplit & Hm). fold u in Hu, Hr, Hsplit, Hm.
  destruct (nearest_big a Ha) as [(_ & ->)|[(_ & ->)|[(_ & _ & ->)|(_ & _ & ->)]]];
    fold u; nia.
Qed.

Lemma nearest_ge_safe (a : Z) : JS.two53 <= a -> JS.two53 <= JS.nearest a.
Proof.
  intro Ha. assert (H := nearest_between a Ha). cbv zeta in H.
  destruct (big_split a Ha) as (He & Hu & Hr & Hsplit & Hm). cbv zeta in *.
  unfold JS.two53 in *. nia.
Qed.

Lemma nearest_nonneg (a : Z) : 0 <= a -> 0 <= JS.nearest a.
Proof.
  intro Ha. destruct (Z.lt_ge_cases a JS.two53) as [H|H].
  - now rewrite nearest_small.
  - apply nearest_ge_safe in H. unfold JS.two53 in H. lia.
Qed.

Lemma log2_unit_le (a b : Z) :
  JS.two53 <= a -> a <= b -> 2 ^ (Z.log2 a - 52) <= 2 ^ (Z.log2 b - 52).
Proof.
  intros Ha Hab. apply Z.pow_le_mono_r; [lia|].
  assert (Z.log2 a <= Z.log2 b) by now apply Z.log2_le_mono. lia.
Qed.

Lemma nearest_mono (a b : Z) : 0 <= a -> a <= b -> JS.nearest a <= JS.nearest b.
Proof.
  intros H0 Hab.
  destruct (Z.lt_ge_cases b JS.two53) as [Hb|Hb].
  { rewrite !nearest_small by lia. exact Hab. }
  destruct (Z.lt_ge_cases a JS.two53) as [Ha|Ha].
  { rewrite (nearest_small a Ha). apply nearest_ge_safe in Hb. lia. }
  assert (Hla : 53 <= Z.log2 a).
  { change 53 with (Z.log2 (2 ^ 53)). apply Z.log2_le_mono. rewrite pow53. exact Ha. }
  assert (Hlab : Z.log2 a <= Z.log2 b) by now apply Z.log2_le_mono.
  destruct (big_split a Ha) as (Hea & Hua & Hra & Hsa & Hma).
  destruct (big_split b Hb) as (Heb & Hub & Hrb & Hsb & Hmb).
  cbv zeta in *.
  destruct (Z.eq_dec (Z.log2 a) (Z.log2 b)) as [Heq|Hne].
  - (* the same unit *)
    assert (Hna := nearest_big a Ha). assert (Hnb := nearest_big b Hb).
    cbv zeta in *. rewrite <- Heq in *.
    set (u := 2 ^ (Z.log2 a - 52)) in *.
    assert (Hq : a / u <= b / u) by (apply Z.div_le_mono; lia).
    destruct (Z.eq_dec (a / u) (b / u)) as [Hqe|Hqn].
    + rewrite <- Hqe in *.
      assert (a mod u <= b mod u) by lia.
      destruct Hna as [(? & ->)|[(? & ->)|[(? & ? & ->)|(? & ? & ->)]]];
      destruct Hnb as [(? & ->)|[(? & ->)|[(? & ? & ->)|(? & ? & ->)]]];
        try nia; congruence.
    + assert (Hba := nearest_between a Ha). assert (Hbb := nearest_between b Hb).
      cbv zeta in *. rewrite <- Heq in *. fold u in Hba, Hbb. nia.
  - (* a smaller unit *)
    assert (Hba := nearest_between a Ha). assert (Hbb := nearest_between b Hb).
    cbv zeta in *.
    set (ua := 2 ^ (Z.log2 a - 52)) in *. set (ub := 2 ^ (Z.log2 b - 52)) in *.
    assert (Hub2 : ub = 2 ^ (Z.log2 b - Z.log2 a) * ua).
    { unfold ua, ub. rewrite <- Z.pow_add_r by lia. f_equal. lia. }
    assert (2 <= 2 ^ (Z.log2 b - Z.log2 a)).
    { replace (Z.log2 b - Z.log2 a) with (1 + (Z.log2 b - Z.log2 a - 1)) by lia.
      rewrite Z.pow_add_r by lia.
      assert (0 < 2 ^ (Z.log2 b - Z.log2 a - 1)) by (apply Z.pow_pos_nonneg; lia). lia. }
    nia.
Qed.

(* a multiple of the unit with a 53-bit multiplier is its own JS.nearest *)
Lemma nearest_exact (m e : Z) :
  0 <= e -> 4503599627370496 <= m < 9007199254740992 ->
  JS.nearest (m * 2 ^ e) = m * 2 ^ e.
Proof.
  intros He Hm.
  assert (Hu : 0 < 2 ^ e) by (apply Z.pow_pos_nonneg; lia).
  destruct (Z.eq_dec e 0) as [->|Hne].
  { rewrite Z.pow_0_r, Z.mul_1_r. apply nearest_small. unfold JS.two53. lia. }
  assert (Hlog : Z.log2 (m * 2 ^ e) = 52 + e).
  { apply Z.log2_unique; [lia|].
    rewrite Z.pow_succ_r, Z.pow_add_r, pow52 by lia. nia. }
  assert (Hbig : JS.two53 <= m * 2 ^ e).
  { unfold JS.two53.
    assert (2 <= 2 ^ e).
    { replace e with (1 + (e - 1)) by lia. rewrite Z.pow_add_r by lia.
      assert (0 < 2 ^ (e - 1)) by (apply Z.pow_pos_nonneg; lia). lia. }
    nia. }
  destruct (nearest_big _ Hbig) as [(? & E)|[(H & _)|[(H & _)|(H & _)]]];
    cbv zeta in *; rewrite Hlog in *;
    replace (52 + e - 52) with e in * by lia;
    rewrite ?Z.mod_mul, ?Z.div_mul in * by lia; lia.
Qed.

Lemma nearest_idem (a : Z) : 0 <= a -> JS.nearest (JS.nearest a) = JS.nearest a.
Proof.
  intro H0. destruct (Z.lt_ge_cases a JS.two53) as [Ha|Ha].
  { now rewrite !(nearest_small a Ha). }
  destruct (big_split a Ha) as (He & Hu & Hr & Hs & Hm). cbv zeta in *.
  set (e := Z.log2 a - 52) in *.
  assert (Hcase : JS.nearest a = (a / 2 ^ e) * 2 ^ e \/ JS.nearest a = (a / 2 ^ e + 1) * 2 ^ e).
  { destruct (nearest_big a Ha) as [(_ & E)|[(_ & E)|[(_ & _ & E)|(_ & _ & E)]]];
      cbv zeta in E; fold e in E; auto. }
  destruct Hcase as [-> | ->].
  - apply nearest_exact; lia.
  - destruct (Z.eq_dec (a / 2 ^ e + 1) 9007199254740992) as [E|E].
    + rewrite E.
      replace (9007199254740992 * 2 ^ e) with (4503599627370496 * 2 ^ (e + 1))
        by (rewrite Z.pow_add_r by lia; lia).
      apply nearest_exact; lia.
    + apply nearest_exact; lia.
Qed.

(** From 2^54 on, adding one to a double changes nothing. *)
Lemma nearest_stuck (i : Z) :
  JS.nearest i = i -> 2 * JS.two53 <= i -> JS.nearest (i + 1) = i.
Proof.
  intros Hrep Hi. unfold JS.two53 in Hi.
  assert (Ha : JS.two53 <= i) by (unfold JS.two53; lia).
  destruct (big_split i Ha) as (He & Hu & Hr & Hs & Hm). cbv zeta in *.
  assert (Hl54 : 54 <= Z.log2 i).
  { change 54 with (Z.log2 (2 ^ 54)). apply Z.log2_le_mono.
    change (2 ^ 54) with 18014398509481984. lia. }
  set (e := Z.log2 i - 52) in *.
  assert (Hu4 : 4 <= 2 ^ e).
  { replace e with (2 + (e - 2)) by lia. rewrite Z.pow_add_r by lia.
    assert (0 < 2 ^ (e - 2)) by (apply Z.pow_pos_nonneg; lia). lia. }
  (* [i] is a multiple of its unit *)
  assert (Hr0 : i mod 2 ^ e = 0).
  { destruct (nearest_big i Ha) as [(? & E)|[(? & E)|[(? & ? & E)|(? & ? & E)]]];
      cbv zeta in *; fold e in E; rewrite Hrep in E; nia. }
  assert (Hi1 : i + 1 = (i / 2 ^ e) * 2 ^ e + 1) by lia.
  assert (Hlog : Z.log2 (i + 1) = Z.log2 i).
  { apply Z.log2_unique; [lia|].
    destruct (Z.log2_spec i) as [Hlo Hhi]; [lia|].
    split; [lia|].
    replace (2 ^ Z.succ (Z.log2 i)) with (9007199254740992 * 2 ^ e)
      by (unfold e; rewrite <- pow53, <- Z.pow_add_r by lia; f_equal; lia).
    nia. }
  assert (Hb1 : JS.two53 <= i + 1) by lia.
  assert (Hdiv : (i + 1) / 2 ^ e = i / 2 ^ e).
  { rewrite Hi1 at 1. rewrite Z.div_add_l, (Z.div_small 1) by lia. lia. }
  assert (Hmod : (i + 1) mod 2 ^ e = 1).
  { rewrite Hi1 at 1. rewrite Z.add_comm, Z.mod_add, (Z.mod_small 1) by lia. lia. }
  assert (Hn := nearest_big _ Hb1). cbv zeta in Hn.
  rewrite Hlog in Hn. fold e in Hn. rewrite Hdiv, Hmod in Hn.
  destruct Hn as [(_ & E)|[(H & _)|[(H & _)|(H & _)]]]; lia.
Qed.

(** The same, with a sign. *)

Lemma round_nonneg_eq (z : Z) : 0 <= z -> JS.round z = JS.nearest z.
Proof.
  intro H. unfold JS.round. rewrite Z.abs_eq by exact H.
  destruct (Z.eq_dec z 0) as [->|Hz]; [reflexivity|].
  rewrite Z.sgn_pos by lia. lia.
Qed.

Lemma round_opp (z : Z) : JS.round (- z) = - JS.round z.
Proof. unfold JS.round. rewrite Z.sgn_opp, Z.abs_opp. lia. Qed.

Lemma round_safe (z : Z) : - JS.two53 <= z <= JS.two53 -> JS.round z = z.
Proof.
  intro H. unfold JS.round.
  assert (Hn : JS.nearest (Z.abs z) = Z.abs z).
  { destruct (Z.eq_dec (Z.abs z) JS.two53) as [->|Hne]; [reflexivity|].
    apply nearest_small. lia. }
  rewrite Hn. destruct z; cbn; lia.
Qed.

Lemma round_nonneg (z : Z) : 0 <= z -> 0 <= JS.round z.
Proof. intro H. rewrite round_nonneg_eq by exact H. now apply nearest_nonneg. Qed.

Lemma round_mono (a b : Z) : a <= b -> JS.round a <= JS.round b.
Proof.
  intro Hab.
  destruct (Z.le_gt_cases 0 a) as [Ha|Ha].
  - rewrite !round_nonneg_eq by lia. now apply nearest_mono.
  - destruct (Z.le_gt_cases 0 b) as [Hb|Hb].
    + assert (0 <= JS.round b) by now apply round_nonneg.
      assert (0 <= JS.round (- a)) by (apply round_nonneg; lia).
      rewrite round_opp in *. lia.
    + assert (H : JS.round (- b) <= JS.round (- a)).
      { rewrite !round_nonneg_eq by lia. apply nearest_mono; lia. }
      rewrite !round_opp in H. lia.
Qed.

Lemma round_idem (z : Z) : JS.round (JS.round z) = JS.round z.
Proof.
  destruct (Z.le_gt_cases 0 z) as [H|H].
  - rewrite (round_nonneg_eq z H).
    rewrite round_nonneg_eq by now apply nearest_nonneg.
    now apply nearest_idem.
  - assert (Hw : JS.round (JS.round (- z)) = JS.round (- z)).
    { rewrite (round_nonneg_eq (- z)) by lia.
      rewrite round_nonneg_eq by (apply nearest_nonneg; lia).
      apply nearest_idem. lia. }
    rewrite (round_opp z), round_opp in Hw. lia.
Qed.

Lemma round_stuck (i : Z) :
  JS.round i = i -> 2 * JS.two53 <= i -> JS.round (i + 1) = i.
Proof.
  intros Hrep Hi. unfold JS.two53 in Hi.
  rewrite round_nonneg_eq in * by lia. now apply nearest_stuck.
Qed.

(** Below 2^53 in size, a double is the nearest double of itself only. *)
Lemma round_inv_safe (c v : Z) :
  JS.round c = v -> - JS.two53 < v < JS.two53 -> c = v.
Proof.
  intros H Hv.
  destruct (Z.le_gt_cases c (- JS.two53)) as [Hlo|Hlo].
  { assert (Hm := round_mono c (- JS.two53) Hlo).
    rewrite (round_safe (- JS.two53)) in Hm by (unfold JS.two53; lia). lia. }
  destruct (Z.le_gt_cases JS.two53 c) as [Hhi|Hhi].
  { assert (Hm := round_mono JS.two53 c Hhi).
    rewrite (round_safe JS.two53) in Hm by (unfold JS.two53; lia). lia. }
  rewrite round_safe in H by lia. exact H.
Qed.

Lemma round_max (a b : Z) : JS.round (Z.max a b) = Z.max (JS.round a) (JS.round b).
Proof.
  destruct (Z.le_gt_cases a b) as [H|H].
  - assert (Hr := round_mono a b H). rewrite !Z.max_r by lia. reflexivity.
  - assert (Hr := round_mono b a ltac:(lia)). rewrite !Z.max_l by lia. reflexivity.
Qed.

Lemma round_ge_safe (z : Z) : JS.two53 <= z -> JS.two53 <= JS.round z.
Proof.
  intro H. assert (Hm := round_mono _ _ H).
  rewrite (round_safe JS.two53) in Hm by (unfold JS.two53; lia). exact Hm.
Qed.

Lemma isDouble_round (z : Z) : isDouble (JS.round z).
Proof. apply round_idem. Qed.

Lemma isDouble_safe (z : Z) : - JS.two53 <= z <= JS.two53 -> isDouble z.
Proof. apply round_safe. Qed.

(** Sums and differences that stay within 2^53 in size are exact. *)
Lemma add_safe (a b : Z) :
  - JS.two53 <= a + b <= JS.two53 -> JS.add a b = a + b.
Proof. apply round_safe. Qed.

Lemma sub_safe (a b : Z) :
  - JS.two53 <= a - b <= JS.two53 -> JS.sub a b = a - b.
Proof. apply round_safe. Qed.

(** [i++] on a double moves it up or leaves it as it is. *)
Lemma add_one_cases (i : Z) :
  isDouble i -> JS.add i 1 = i \/ i + 1 <= JS.add i 1.
Proof.
  intro Hi. unfold JS.add.
  assert (H := round_mono i (i + 1) ltac:(lia)). rewrite Hi in H. lia.
Qed.

(** ** Ledger *)

Lemma sumZ_permutation (l l' : list Z) :
  Permutation l l' -> sumZ l = sumZ l'.
Proof.
  unfold sumZ. induction 1; cbn [fold_right]; lia.
Qed.

Lemma quantitiesOf_permutation (ty : TransactionType) (ts ts' : list Transaction.t) :
  Permutation ts ts' -> Permutation (quantitiesOf ty ts) (quantitiesOf ty ts').
Proof.
  intro H. unfold quantitiesOf.
  apply Permutation_map.
  induction H; cbn.
  - constructor.
  - destruct (TransactionType_eqb (Transaction.type x) ty); auto.
  - destruct (TransactionType_eqb (Transaction.type x) ty),
             (TransactionType_eqb (Transaction.type y) ty); auto using perm_swap.
  - eauto using Permutation_trans.
Qed.

Lemma magnitude_cons (t : Transaction.t) (ts : list Transaction.t) :
  magnitude (t :: ts) = Z.abs (Transaction.quantity t) + magnitude ts.
Proof. reflexivity. Qed.

Lemma magnitude_nonneg (ts : list Transaction.t) : 0 <= magnitude ts.
Proof.
  induction ts as [|t ts IH]; [unfold magnitude, sumZ; cbn; lia|].
  rewrite magnitude_cons. lia.
Qed.

Lemma magnitude_permutation (ts ts' : list Transaction.t) :
  Permutation ts ts' -> magnitude ts = magnitude ts'.
Proof. intro H. unfold magnitude. now apply sumZ_permutation, Permutation_map. Qed.

Lemma totals_cons (t : Transaction.t) (ts : list Transaction.t) :
  inboundTotal (t :: ts) - outboundTotal (t :: ts)
  = match Transaction.type t with
    | purchase => Transaction.quantity t
    | release => - Transaction.quantity t
    end + (inboundTotal ts - outboundTotal ts).
Proof.
  unfold inboundTotal, outboundTotal, quantitiesOf. cbn [filter].
  destruct (Transaction.type t); cbn [TransactionType_eqb map]; unfold sumZ;
    cbn [fold_right]; lia.
Qed.

(** While the quantities, added up in size to what is already there,
    stay within 2^53, no step of the fold rounds. *)
Lemma stock_fold_total (ts : list Transaction.t) (acc : Z) :
  Z.abs acc + magnitude ts <= JS.two53 ->
  fold_left stockStep ts acc = acc + (inboundTotal ts - outboundTotal ts).
Proof.
  revert acc.
  induction ts as [|t ts IH]; intros acc Hsafe; cbn [fold_left].
  - unfold inboundTotal, outboundTotal, sumZ; cbn. lia.
  - rewrite magnitude_cons in Hsafe. assert (H0 := magnitude_nonneg ts).
    rewrite totals_cons. unfold stockStep.
    destruct (Transaction.type t).
    + rewrite add_safe by lia. rewrite IH by lia. lia.
    + rewrite sub_safe by lia. rewrite IH by lia. lia.
Qed.

(** C1, as the code has it.  The stock of an item, as [calculateStock]
    in [App] and as the memo [currentStock] in the dialog compute it,
    is the sum of the quantities of its ['purchase'] transactions minus
    the sum of the quantities of its ['release'] transactions, and it is
    the same for every permutation of the transaction sequence --
    provided the quantities, added up in size, stay within 2^53, the
    range in which the sums of the code are exact. *)
Theorem calculateStock_is_net_total_any_order
    (item : Item.t) (ts' : list Transaction.t)
    (Hperm : Permutation (Item.transactions item) ts')
    (Hsafe : magnitude (Item.transactions item) <= JS.two53) :
  calculateStock item
    = inboundTotal (Item.transactions item) - outboundTotal (Item.transactions item)
  /\ currentStock item = calculateStock item
  /\ calculateStock (Item.withTransactions item ts') = calculateStock item.
Proof.
  unfold calculateStock, currentStock. cbn [Item.withTransactions Item.transactions].
  rewrite !stock_fold_total
    by (rewrite <- ?(magnitude_permutation _ _ Hperm); cbn [Z.abs]; lia).
  repeat split.
  unfold inboundTotal, outboundTotal.
  rewrite (sumZ_permutation _ _ (quantitiesOf_permutation purchase _ _ Hperm)).
  rewrite (sumZ_permutation _ _ (quantitiesOf_permutation release _ _ Hperm)).
  reflexivity.
Qed.

Lemma calculateStock_is_net_total_any_order_witness :
  let tA := sampleTx "t1" purchase 10 None in
  let tB := sampleTx "t2" release 3 None in
  let item := sampleItem "i1" part "CT1" [tA; tB] in
  calculateStock item = inboundTotal [tA; tB] - outboundTotal [tA; tB]
  /\ currentStock item = calculateStock item
  /\ calculateStock (Item.withTransactions item [tB; tA]) = calculateStock item.
Proof.
  cbv zeta.
  apply (calculateStock_is_net_total_any_order
           (sampleItem "i1" part "CT1"
              [sampleTx "t1" purchase 10 None; sampleTx "t2" release 3 None])).
  - apply perm_swap.
  - vm_compute. discriminate.
Defined.

(** C1 as it is worded fails beyond 2^53.  Three receipts of 2^53, 1
    and 1 units add up to 2^53 + 2; the fold of the code, which adds
    doubles, returns 2^53, each [+ 1] being rounded away; on the same
    receipts in the order 1, 1, 2^53 it returns 2^53 + 2. *)
Lemma calculateStock_rounds_beyond_2_53 :
  let big := sampleTx "t1" purchase 9007199254740992 None in
  let one := sampleTx "t2" purchase 1 None in
  let uno := sampleTx "t3" purchase 1 None in
  let item := sampleItem "i1" part "CT1" [big; one; uno] in
  Permutation (Item.transactions item) [one; uno; big]
  /\ inboundTotal (Item.transactions item) - outboundTotal (Item.transactions item)
     = 9007199254740994
  /\ calculateStock item = 9007199254740992
  /\ calculateStock item
     <> inboundTotal (Item.transactions item) - outboundTotal (Item.transactions item)
  /\ calculateStock (Item.withTransactions item [one; uno; big]) = 9007199254740994
  /\ calculateStock (Item.withTransactions item [one; uno; big]) <> calculateStock item.
Proof.
  cbv zeta. split.
  - cbn [sampleItem Item.transactions].
    exact (Permutation_cons_append [_; _] _).
  - repeat split; try reflexivity; vm_compute; discriminate.
Qed.

(** ** Strings and the regular-expression operators *)

Lemma append_assoc (a b c : string) : (a ++ b) ++ c = a ++ (b ++ c).
Proof. induction a as [|x a IH]; cbn; [reflexivity | now rewrite IH]. Qed.

Lemma append_nil_r (a : string) : a ++ "" = a.
Proof. induction a as [|x a IH]; cbn; [reflexivity | now rewrite IH]. Qed.

Lemma length_append (a b : string) :
  String.length (a ++ b) = (String.length a + String.length b)%nat.
Proof. induction a as [|x a IH]; cbn; [reflexivity | now rewrite IH]. Qed.

Lemma allChars_append (p : ascii -> bool) (a b : string) :
  allChars p (a ++ b) = allChars p a && allChars p b.
Proof.
  induction a as [|x a IH]; cbn; [reflexivity|].
  rewrite IH. now rewrite andb_assoc.
Qed.

Lemma allChars_impl (p q : ascii -> bool) (s : string) :
  (forall c, p c = true -> q c = true) ->
  allChars p s = true -> allChars q s = true.
Proof.
  intro Hpq. induction s as [|c s IH]; cbn; [reflexivity|].
  rewrite !andb_true_iff. intros [Hc Hs]. auto.
Qed.

Lemma append_inv_head (a x y : string) : a ++ x = a ++ y -> x = y.
Proof.
  induction a as [|c a IH]; cbn; [auto|].
  intro H. injection H as H. auto.
Qed.

Lemma trimEnd_no_space (s : string) :
  allChars (fun c => negb (JS.is_space c)) s = true -> JS.trimEnd s = s.
Proof.
  induction s as [|c s IH]; cbn; [reflexivity|].
  intro H. apply andb_true_iff in H as [Hc Hs].
  rewrite (IH Hs). apply negb_true_iff in Hc. rewrite Hc. now destruct s.
Qed.

(** A text without white space is its own trim. *)
Lemma trim_no_space (s : string) :
  allChars (fun c => negb (JS.is_space c)) s = true -> JS.trim s = s.
Proof.
  intro H. unfold JS.trim.
  assert (Hs : JS.trimStart s = s).
  { destruct s as [|c s]; [reflexivity|]. cbn in *.
    apply andb_true_iff in H as [Hc _]. apply negb_true_iff in Hc. now rewrite Hc. }
  rewrite Hs. now apply trimEnd_no_space.
Qed.

Section RegexFacts.
Context {A : Type}.
Variable p : ascii -> bool.

(** A greedy star over a maximal run of [p] hands over the whole run
    first. *)
Lemma greedyStar_run (ds rest : string) (k : string -> string -> option A) (v : A) :
  allChars p ds = true -> stopsAt p rest ->
  k ds rest = Some v ->
  JS.greedyStar p (ds ++ rest) k = Some v.
Proof.
  revert k. induction ds as [|d ds IH]; intros k Hds Hstop Hk.
  - cbn. destruct rest as [|c r]; cbn; [exact Hk|].
    cbn in Hstop. rewrite Hstop. exact Hk.
  - cbn in Hds. apply andb_true_iff in Hds as [Hd Hds].
    cbn. rewrite Hd.
    rewrite (IH (fun m => k (String d m))); auto.
Qed.

Lemma greedyPlus_run (ds rest : string) (k : string -> string -> option A) (v : A) :
  ds <> "" -> allChars p ds = true -> stopsAt p rest ->
  k ds rest = Some v ->
  JS.greedyPlus p (ds ++ rest) k = Some v.
Proof.
  destruct ds as [|d ds]; [congruence|]. intros _ Hds Hstop Hk.
  cbn in Hds. apply andb_true_iff in Hds as [Hd Hds].
  cbn. rewrite Hd.
  apply (greedyStar_run ds rest (fun m => k (String d m))); auto.
Qed.

(** Whatever a greedy star returns, the continuation returned it on a
    split of the input after a run of [p]. *)
Lemma greedyStar_inv (s : string) (k : string -> string -> option A) (v : A) :
  JS.greedyStar p s k = Some v ->
  exists m r, s = m ++ r /\ allChars p m = true /\ k m r = Some v.
Proof.
  revert k. induction s as [|c s IH]; intros k H.
  - cbn in H. exists "", "". auto.
  - cbn in H. destruct (p c) eqn:Hc.
    + destruct (JS.greedyStar p s (fun m => k (String c m))) eqn:Hg.
      * injection H as <-. apply IH in Hg as (m & r & -> & Hm & Hk).
        exists (String c m), r. cbn. rewrite Hc, Hm. auto.
      * exists "", (String c s). auto.
    + exists "", (String c s). auto.
Qed.

Lemma greedyPlus_inv (s : string) (k : string -> string -> option A) (v : A) :
  JS.greedyPlus p s k = Some v ->
  exists m r, s = m ++ r /\ m <> "" /\ allChars p m = true /\ k m r = Some v.
Proof.
  destruct s as [|c s]; cbn; [discriminate|].
  destruct (p c) eqn:Hc; [|discriminate].
  intro H. apply greedyStar_inv in H as (m & r & -> & Hm & Hk).
  exists (String c m), r. cbn. rewrite Hc, Hm. repeat split; auto. discriminate.
Qed.

(** A lazy star walks over a run of [p] on which the continuation fails
    at every position. *)
Lemma lazyStar_skip (ps rest : string) (k : string -> string -> option A) :
  allChars p ps = true ->
  (forall m m', ps = m ++ m' -> m' <> "" -> k m (m' ++ rest) = None) ->
  JS.lazyStar p (ps ++ rest) k = JS.lazyStar p rest (fun m => k (ps ++ m)).
Proof.
  revert k. induction ps as [|c ps IH]; intros k Hps Hfail.
  - reflexivity.
  - cbn in Hps. apply andb_true_iff in Hps as [Hc Hps].
    cbn [append JS.lazyStar].
    assert (H0 := Hfail "" (String c ps) eq_refl ltac:(discriminate)).
    cbn [append] in H0. rewrite H0, Hc.
    rewrite (IH (fun m => k (String c m))); auto.
    intros m m' -> Hm'. apply (Hfail (String c m) m'); auto.
Qed.

Lemma lazyPlus_run (ps rest : string) (k : string -> string -> option A) (v : A) :
  ps <> "" -> allChars p ps = true ->
  (forall m m', ps = m ++ m' -> m <> "" -> m' <> "" -> k m (m' ++ rest) = None) ->
  k ps rest = Some v ->
  JS.lazyPlus p (ps ++ rest) k = Some v.
Proof.
  destruct ps as [|c ps]; [congruence|]. intros _ Hps Hfail Hk.
  cbn in Hps. apply andb_true_iff in Hps as [Hc Hps].
  cbn [append JS.lazyPlus]. rewrite Hc.
  rewrite (lazyStar_skip ps rest (fun m => k (String c m))); auto.
  - destruct rest; cbn [JS.lazyStar]; rewrite append_nil_r, Hk; reflexivity.
  - intros m m' -> Hm'. apply (Hfail (String c m) m'); auto. discriminate.
Qed.
End RegexFacts.

(** ** Character classes and numbers *)

Lemma digit_not_alpha (c : ascii) : JS.is_digit c = true -> JS.is_alpha c = false.
Proof. intro H. by_bits c. Qed.

Lemma digit_not_space (c : ascii) : JS.is_digit c = true -> JS.is_space c = false.
Proof. intro H. by_bits c. Qed.

Lemma digit_is_dot (c : ascii) : JS.is_digit c = true -> JS.is_dot c = true.
Proof. intro H. by_bits c. Qed.

Lemma alpha_not_digit (c : ascii) : JS.is_alpha c = true -> JS.is_digit c = false.
Proof. intro H. by_bits c. Qed.

Lemma prefixChar_is_dot (c : ascii) : prefixChar c = true -> JS.is_dot c = true.
Proof. intro H. by_bits c. Qed.

Lemma prefixChar_not_digit (c : ascii) : prefixChar c = true -> JS.is_digit c = false.
Proof. intro H. by_bits c. Qed.


Lemma digit_not_sign (c : ascii) :
  JS.is_digit c = true -> c <> "-"%char /\ c <> "+"%char.
Proof. intro H. split; by_bits c. Qed.

Lemma takeDigits_digits (d rest : string) :
  allChars JS.is_digit d = true -> stopsAt JS.is_digit rest ->
  JS.takeDigits (d ++ rest) = d.
Proof.
  intros Hd Hstop. induction d as [|c d IH]; cbn.
  - destruct rest as [|x r]; [reflexivity|]. cbn in *. now rewrite Hstop.
  - cbn in Hd. apply andb_true_iff in Hd as [Hc Hd]. rewrite Hc, IH; auto.
Qed.

(** [parseInt] on a run of digits is the double nearest to what they
    denote. *)
Lemma parseInt_digits (d : string) :
  isDigits d -> JS.parseInt d = Some (JS.round (JS.digitsVal 0 d)).
Proof.
  intros [Hne Hd]. destruct d as [|c d]; [congruence|].
  assert (Htake : JS.takeDigits (String c d) = String c d).
  { rewrite <- (append_nil_r (String c d)) at 1.
    apply takeDigits_digits; [exact Hd | exact I]. }
  cbn in Hd. apply andb_true_iff in Hd as [Hc Hd].
  unfold JS.parseInt. cbn [JS.trimStart]. rewrite (digit_not_space c Hc).
  destruct (digit_not_sign c Hc) as [Hm Hp].
  apply Ascii.eqb_neq in Hm, Hp. rewrite Hm, Hp.
  unfold JS.unsignedInt. rewrite Htake. reflexivity.
Qed.

(** Whatever [parseInt] reads is a double. *)
Lemma parseInt_isDouble (s : string) (v : Z) : JS.parseInt s = Some v -> isDouble v.
Proof.
  assert (Hu : forall r w, JS.unsignedInt r = Some w -> isDouble w).
  { intros r w. unfold JS.unsignedInt.
    destruct (JS.takeDigits r); [discriminate|].
    intro H. injection H as <-. apply isDouble_round. }
  unfold JS.parseInt. destruct (JS.trimStart s) as [|c r]; [discriminate|].
  destruct (Ascii.eqb c "-").
  - destruct (JS.unsignedInt r) as [w|] eqn:E; [|discriminate].
    cbn [option_map]. intro H. injection H as <-.
    unfold isDouble. rewrite round_opp. f_equal. exact (Hu r w E).
  - destruct (Ascii.eqb c "+"); apply Hu.
Qed.

Lemma orZero_isDouble (s : string) : isDouble (JS.orZero (JS.parseInt s)).
Proof.
  destruct (JS.parseInt s) as [v|] eqn:E; cbn [JS.orZero].
  - exact (parseInt_isDouble s v E).
  - reflexivity.
Qed.

Lemma digitsVal_uint_acc (d : Decimal.uint) (acc : positive) :
  JS.digitsVal (Zpos acc) (JS.digitsOfUint d) = Zpos (Pos.of_uint_acc d acc).
Proof.
  revert acc.
  induction d; intro acc; cbn [JS.digitsOfUint JS.digitsVal Pos.of_uint_acc];
    [reflexivity | ..];
    rewrite <- IHd; f_equal; eval_digit; lia.
Qed.

Lemma digitsVal_uint (d : Decimal.uint) :
  JS.digitsVal 0 (JS.digitsOfUint d) = Z.of_N (Pos.of_uint d).
Proof.
  induction d; cbn [JS.digitsOfUint JS.digitsVal Pos.of_uint];
    [reflexivity | exact IHd | ..];
    eval_digit; cbn [Z.mul Z.add];
    rewrite digitsVal_uint_acc; reflexivity.
Qed.

(** Reading back the decimal digits of a number. *)
Lemma digitsVal_decimal (n : Z) : 0 <= n -> JS.digitsVal 0 (JS.decimal n) = n.
Proof.
  intro Hn. unfold JS.decimal. rewrite digitsVal_uint.
  change (Pos.of_uint (N.to_uint (Z.to_N n))) with (N.of_uint (N.to_uint (Z.to_N n))).
  rewrite DecimalN.Unsigned.of_to. lia.
Qed.

Lemma digitsOfUint_digits (d : Decimal.uint) :
  allChars JS.is_digit (JS.digitsOfUint d) = true.
Proof. induction d; cbn; auto. Qed.

Lemma decimal_digits (n : Z) : isDigits (JS.decimal n).
Proof.
  split; [|apply digitsOfUint_digits].
  unfold JS.decimal. destruct (Z.to_N n) as [|p]; [vm_compute; discriminate|].
  cbn [N.to_uint]. assert (H := DecimalPos.Unsigned.to_uint_nonnil p).
  destruct (Pos.to_uint p); [congruence | discriminate ..].
Qed.

(** The integer [toString] writes for a double reads back as that
    double. *)
Lemma shortestFrom_reads_back (k : nat) (unit v : Z) :
  isDouble v -> JS.round (JS.shortestFrom k unit v) = v.
Proof.
  intro Hv. revert unit. induction k as [|k IH]; intro unit; cbn [JS.shortestFrom].
  - exact Hv.
  - destruct (Z.eqb_spec (JS.round (v / unit * unit)) v) as [Hb|Hb];
      destruct (Z.eqb_spec (JS.round (v / unit * unit + unit)) v) as [Ha|Ha].
    + destruct (_ <? _); [exact Hb|].
      destruct (_ <? _); [exact Ha|].
      destruct (Z.even _); assumption.
    + exact Hb.
    + exact Ha.
    + apply IH.
Qed.

Lemma shortest_reads_back (v : Z) : isDouble v -> JS.round (JS.shortest v) = v.
Proof. intro Hv. unfold JS.shortest. now apply shortestFrom_reads_back. Qed.

(** Below 2^53 it is the double itself. *)
Lemma shortest_safe (v : Z) : - JS.two53 < v < JS.two53 -> JS.shortest v = v.
Proof.
  intro Hv. apply round_inv_safe; [|exact Hv].
  apply shortest_reads_back, isDouble_safe. lia.
Qed.

(** Below 2^53 [toString] writes the decimal digits of the number. *)
Lemma toString_safe (n : Z) : 0 <= n < JS.two53 -> JS.toString n = JS.decimal n.
Proof.
  intro Hn. unfold JS.toString, JS.render.
  assert (Hs : JS.shortest n = n) by (apply shortest_safe; unfold JS.two53 in *; lia).
  assert (Hlt : (n <? 10 ^ 21) = true)
    by (apply Z.ltb_lt; unfold JS.two53 in Hn; change (10 ^ 21) with 1000000000000000000000; lia).
  destruct n as [|p|p]; [| |lia]; rewrite Hs, Hlt; reflexivity.
Qed.

(** Below 2^54 it still writes decimal digits only: those of an integer
    whose nearest double is the number. *)
Lemma toString_written (v : Z) :
  0 <= v -> isDouble v -> v < 2 * JS.two53 ->
  JS.toString v = JS.decimal (JS.shortest v)
  /\ 0 <= JS.shortest v
  /\ JS.round (JS.shortest v) = v.
Proof.
  intros H0 Hv Hlt.
  assert (Hr := shortest_reads_back v Hv).
  assert (Hlo : 0 <= JS.shortest v).
  { destruct (Z.le_gt_cases 0 (JS.shortest v)) as [H|H]; [exact H|].
    assert (Hm := round_mono (JS.shortest v) (-1) ltac:(lia)).
    rewrite Hr, (round_safe (-1)) in Hm by (unfold JS.two53; lia). lia. }
  assert (Hhi : JS.shortest v < 2 * JS.two53).
  { destruct (Z.lt_ge_cases (JS.shortest v) (2 * JS.two53)) as [H|H]; [exact H|].
    assert (Hm := round_mono _ _ H). rewrite Hr in Hm.
    assert (E : JS.round (2 * JS.two53) = 2 * JS.two53) by reflexivity.
    rewrite E in Hm. lia. }
  split; [|split; assumption].
  unfold JS.toString, JS.render.
  assert (Hlt21 : (JS.shortest v <? 10 ^ 21) = true)
    by (apply Z.ltb_lt; unfold JS.two53 in Hhi;
        change (10 ^ 21) with 1000000000000000000000; lia).
  destruct v as [|p|p]; [| |lia]; rewrite Hlt21; reflexivity.
Qed.

Lemma digitsVal_toString (n : Z) :
  0 <= n < JS.two53 -> JS.digitsVal 0 (JS.toString n) = n.
Proof. intro Hn. rewrite toString_safe by exact Hn. apply digitsVal_decimal. lia. Qed.

Lemma toString_digits (v : Z) :
  0 <= v -> isDouble v -> v < 2 * JS.two53 -> isDigits (JS.toString v).
Proof.
  intros H0 Hv Hlt. destruct (toString_written v H0 Hv Hlt) as (-> & _ & _).
  apply decimal_digits.
Qed.

Lemma toString_reads_back (v : Z) :
  0 <= v -> isDouble v -> v < 2 * JS.two53 ->
  JS.round (JS.digitsVal 0 (JS.toString v)) = v.
Proof.
  intros H0 Hv Hlt. destruct (toString_written v H0 Hv Hlt) as (-> & Hs & Hr).
  now rewrite digitsVal_decimal.
Qed.

Lemma allChars_repeat (p : ascii -> bool) (c : ascii) (n : nat) :
  p c = true -> allChars p (JS.repeat c n) = true.
Proof. intro H. induction n; cbn; [reflexivity | now rewrite H]. Qed.

Lemma digitsVal_repeat_zero (n : nat) (s : string) :
  JS.digitsVal 0 (JS.repeat "0" n ++ s) = JS.digitsVal 0 s.
Proof. induction n; cbn; auto. Qed.

Lemma length_repeat (c : ascii) (n : nat) : String.length (JS.repeat c n) = n.
Proof. induction n; cbn; auto. Qed.

(** Padding keeps the digits and the value, and reaches the width. *)
Lemma padStart_digits (s : string) (w : nat) :
  allChars JS.is_digit s = true ->
  allChars JS.is_digit (JS.padStart s w) = true
  /\ JS.digitsVal 0 (JS.padStart s w) = JS.digitsVal 0 s
  /\ String.length (JS.padStart s w) = Nat.max w (String.length s).
Proof.
  intro Hs. unfold JS.padStart. repeat split.
  - rewrite allChars_append, Hs, allChars_repeat; reflexivity.
  - apply digitsVal_repeat_zero.
  - rewrite length_append, length_repeat. lia.
Qed.

(** ** The two patterns *)

Lemma stopsAt_digits (p : ascii -> bool) (d : string) :
  (forall c, JS.is_digit c = true -> p c = false) ->
  allChars JS.is_digit d = true -> stopsAt p d.
Proof.
  intros Hp Hd. destruct d as [|c d]; [exact I|].
  cbn in *. apply andb_true_iff in Hd as [Hc _]. auto.
Qed.

(** The pattern [^([a-zA-Z]+)(\d+)$] splits letters followed by digits
    into the two. *)
Lemma serialRegex_build (p d : string) :
  isLetters p -> isDigits d -> serialRegex (p ++ d) = Some (p, d).
Proof.
  intros [Hp1 Hp2] [Hd1 Hd2]. unfold serialRegex.
  apply greedyPlus_run; auto.
  - apply stopsAt_digits; auto using digit_not_alpha.
  - rewrite <- (append_nil_r d) at 1.
    apply greedyPlus_run; auto. exact I.
Qed.

(** It matches nothing else. *)
Lemma serialRegex_inv (s g1 g2 : string) :
  serialRegex s = Some (g1, g2) ->
  isLetters g1 /\ isDigits g2 /\ s = g1 ++ g2.
Proof.
  unfold serialRegex. intro H.
  apply greedyPlus_inv in H as (m1 & r1 & -> & Hne1 & Hm1 & H).
  apply greedyPlus_inv in H as (m2 & r2 & -> & Hne2 & Hm2 & H).
  destruct r2; cbn in H; [|discriminate].
  injection H as <- <-. rewrite append_nil_r.
  repeat split; auto.
Qed.

(** A prefix cut anywhere leaves a rest on which [\d+] fails. *)
Lemma digits_fail_inside_prefix {A} (ps m m' rest : string)
    (k : string -> string -> option A) :
  allChars prefixChar ps = true -> ps = m ++ m' -> m' <> "" ->
  JS.greedyPlus JS.is_digit (m' ++ rest) k = None.
Proof.
  intros Hps -> Hm'. rewrite allChars_append in Hps.
  apply andb_true_iff in Hps as [_ Hps].
  destruct m' as [|c m']; [congruence|].
  cbn in Hps. apply andb_true_iff in Hps as [Hc _].
  cbn. now rewrite (prefixChar_not_digit c Hc).
Qed.


Lemma digitsVal_nonneg (s : string) (acc : Z) : 0 <= acc -> 0 <= JS.digitsVal acc s.
Proof.
  revert acc. induction s as [|c s IH]; intros acc H; cbn [JS.digitsVal]; [exact H|].
  apply IH. unfold JS.digitVal. lia.
Qed.


(** ** The loop of [parseSerialRange] *)

Section RangeLoop.
Variables (prefix : string) (padLength : nat) (endNum : Z).

Lemma rangeLoop_over (rounds : nat) (i : Z) :
  endNum < i -> rangeLoop prefix padLength endNum rounds i = Returned [].
Proof.
  intro H. apply Z.ltb_lt in H. destruct rounds; cbn [rangeLoop]; now rewrite H.
Qed.

Lemma rangeLoop_round (rounds : nat) (i : Z) :
  i <= endNum ->
  rangeLoop prefix padLength endNum (S rounds) i
  = match rangeLoop prefix padLength endNum rounds (JS.add i 1) with
    | Returned results =>
        Returned ((prefix ++ JS.padStart (JS.toString i) padLength) :: results)
    | other => other
    end.
Proof.
  intro H. cbn [rangeLoop]. destruct (Z.ltb_spec endNum i); [lia | reflexivity].
Qed.

(** Once [i++] leaves the counter as it is, the loop has not ended
    after any number of rounds. *)
Lemma rangeLoop_stuck (rounds : nat) (i : Z) :
  i <= endNum -> JS.add i 1 = i ->
  rangeLoop prefix padLength endNum rounds i = NoReturn.
Proof.
  intros Hi Hstuck. induction rounds as [|rounds IH].
  - cbn [rangeLoop]. destruct (Z.ltb_spec endNum i); [lia | reflexivity].
  - rewrite rangeLoop_round by exact Hi. now rewrite Hstuck, IH.
Qed.

(** With more rounds than there are integers left up to [endNum], more
    rounds change nothing. *)
Lemma rangeLoop_enough (rounds more : nat) (i : Z) :
  isDouble i -> endNum - i < Z.of_nat rounds ->
  rangeLoop prefix padLength endNum (rounds + more) i
  = rangeLoop prefix padLength endNum rounds i.
Proof.
  revert i. induction rounds as [|rounds IH]; intros i Hi Hleft.
  - rewrite !rangeLoop_over by lia. reflexivity.
  - destruct (Z.lt_ge_cases endNum i) as [Hover|Hin].
    { rewrite !rangeLoop_over by exact Hover. reflexivity. }
    destruct (add_one_cases i Hi) as [Hstuck|Hup].
    { rewrite !rangeLoop_stuck by first [exact Hstuck | lia]. reflexivity. }
    cbn [Nat.add]. rewrite !rangeLoop_round by lia.
    rewrite IH; [reflexivity | apply isDouble_round | lia].
Qed.

(** What the loop returns, when it returns: at most one serial per
    round, each with the digits of a double between [i] and [endNum]
    below 2^54, none twice; one at least when it starts at or below
    [endNum]. *)
Lemma rangeLoop_returned (rounds : nat) (i : Z) (results : list string) :
  rangeLoop prefix padLength endNum rounds i = Returned results ->
  isDouble i -> 0 <= i ->
  Forall (fun s => exists j,
            i <= j <= endNum /\ isDouble j /\ j < 2 * JS.two53
            /\ s = prefix ++ JS.padStart (JS.toString j) padLength) results
  /\ NoDup results
  /\ (List.length results <= rounds)%nat
  /\ (i <= endNum -> results <> []).
Proof.
  revert i results. induction rounds as [|rounds IH]; intros i results Hret Hi H0.
  - cbn [rangeLoop] in Hret. destruct (Z.ltb_spec endNum i); [|discriminate].
    injection Hret as <-. repeat split; auto; try constructor. lia.
  - destruct (Z.lt_ge_cases endNum i) as [Hover|Hin].
    { rewrite rangeLoop_over in Hret by exact Hover. injection Hret as <-.
      repeat split; auto; try constructor; cbn; lia. }
    rewrite rangeLoop_round in Hret by lia.
    destruct (rangeLoop prefix padLength endNum rounds (JS.add i 1))
      as [rest| |] eqn:Hrest; try discriminate.
    injection Hret as <-.
    assert (Hup : i + 1 <= JS.add i 1).
    { destruct (add_one_cases i Hi) as [Hstuck|Hup]; [|exact Hup].
      rewrite Hstuck in Hrest. rewrite rangeLoop_stuck in Hrest by assumption.
      discriminate. }
    assert (Hlt : i < 2 * JS.two53).
    { destruct (Z.lt_ge_cases i (2 * JS.two53)) as [H|H]; [exact H|].
      assert (Hs := round_stuck i Hi H). unfold JS.add in Hup. lia. }
    destruct (IH _ _ Hrest (isDouble_round _) ltac:(lia)) as (Hall & Hnd & Hlen & _).
    split; [|split; [|split]].
    + constructor.
      * exists i. repeat split; auto; lia.
      * eapply Forall_impl; [|exact Hall].
        intros s (j & Hj & Hdj & Hj54 & ->). exists j. repeat split; auto; lia.
    + constructor; [|exact Hnd].
      intro Hin'. rewrite Forall_forall in Hall.
      destruct (Hall _ Hin') as (j & Hj & Hdj & Hj54 & Heq).
      apply append_inv_head in Heq.
      assert (Hval : forall k, 0 <= k -> isDouble k -> k < 2 * JS.two53 ->
                JS.round (JS.digitsVal 0 (JS.padStart (JS.toString k) padLength)) = k).
      { intros k Hk0 Hk Hk54.
        destruct (padStart_digits (JS.toString k) padLength) as (_ & -> & _).
        - now apply toString_digits.
        - now apply toString_reads_back. }
      assert (i = j).
      { rewrite <- (Hval i H0 Hi Hlt), <- (Hval j ltac:(lia) Hdj Hj54).
        now rewrite Heq. }
      lia.
    + cbn [List.length]. lia.
    + discriminate.
Qed.

End RangeLoop.

(** What the guard before the loop lets through. *)
Lemma range_guard (startNum endNum : Z) :
  (100 <=? JS.sub endNum startNum) = false -> endNum - startNum < 100.
Proof.
  intro H. apply Z.leb_gt in H.
  destruct (Z.lt_ge_cases (endNum - startNum) 100) as [Hlt|Hge]; [exact Hlt|].
  assert (Hm := round_mono _ _ Hge).
  rewrite (round_safe 100) in Hm by (unfold JS.two53; lia).
  unfold JS.sub in H. lia.
Qed.

(** The 100 rounds of [parseSerialRange] decide its loop: past the
    guard, any larger number of rounds has the same outcome.  When the
    outcome is [NoReturn], the loop has not ended after any number of
    rounds; when it is a list, the loop ends and returns it. *)
Lemma rangeLoop_decided (prefix : string) (padLength : nat)
    (startNum endNum : Z) (rounds : nat) :
  isDouble startNum ->
  (100 <=? JS.sub endNum startNum) = false ->
  (100 <= rounds)%nat ->
  rangeLoop prefix padLength endNum rounds startNum
  = rangeLoop prefix padLength endNum 100 startNum.
Proof.
  intros Hd Hguard Hrounds. apply range_guard in Hguard.
  replace rounds with (100 + (rounds - 100))%nat by lia.
  apply rangeLoop_enough; [exact Hd | lia].
Qed.



(** ** Serial allocator *)




(** The two examples the range field is documented with. *)
Lemma parseSerialRange_documented_examples :
  parseSerialRange "SN00001~00010"
    = Returned ["SN00001"; "SN00002"; "SN00003"; "SN00004"; "SN00005";
                "SN00006"; "SN00007"; "SN00008"; "SN00009"; "SN00010"]
  /\ parseSerialRange "SN00001~00105" = Threw RangeTooLarge.
Proof. split; reflexivity. Qed.

(** When the end of the range is written without a prefix and has two
    digits or more, the optional group [(.+?)?] is tried before [(\d+)]
    and takes the first digit: the end number loses its leading digit. *)
Lemma rangeRegex_bare_end (pA dA : string) (c : ascii) (dB : string) :
  isPrefix pA -> isDigits dA -> JS.is_digit c = true -> isDigits dB ->
  rangeRegex (pA ++ dA ++ "~" ++ String c dB)
    = Some (Build_RangeMatch pA dA (Some (String c "")) dB).
Proof.
  intros [HpA1 HpA2] [HdA1 HdA2] Hc [HdB1 HdB2].
  unfold rangeRegex.
  apply lazyPlus_run; auto.
  - apply (allChars_impl prefixChar); auto using prefixChar_is_dot.
  - intros m m' Hsplit _ Hm'.
    apply (digits_fail_inside_prefix pA m m'); auto.
  - apply greedyPlus_run; auto; [reflexivity|].
    cbn [append JS.greedyStar JS.lit].
    change (JS.is_space "~") with false. change (Ascii.eqb "~" "~") with true.
    cbv beta iota.
    rewrite (digit_not_space c Hc).
    cbn [JS.lazyPlus]. rewrite (digit_is_dot c Hc).
    assert (Hk : JS.greedyPlus JS.is_digit dB (fun g4 s7 =>
               JS.eos s7 (Build_RangeMatch pA dA (Some (String c "")) g4))
             = Some (Build_RangeMatch pA dA (Some (String c "")) dB)).
    { rewrite <- (append_nil_r dB) at 1. apply greedyPlus_run; auto. exact I. }
    destruct dB as [|d dB]; [congruence|].
    cbn [JS.lazyStar]. rewrite Hk. reflexivity.
Qed.

(** C4. The range [SN08~12] is not expanded: the pattern reads its end
    number as 2, which is below the start number 8, and the input comes
    back as one literal serial; likewise [SN00001~10000], a range of
    10000 serials, is not refused but comes back as one literal serial. *)
Theorem parseSerialRange_bare_end_loses_digit :
  rangeRegex "SN08~12" = Some (Build_RangeMatch "SN" "08" (Some "1") "2")
  /\ parseSerialRange "SN08~12" = Returned ["SN08~12"]
  /\ parseSerialRange "SN08~12" <> Returned (serialsFromTo "SN" 2 8 12)
  /\ parseSerialRange "SN00001~10000" = Returned ["SN00001~10000"].
Proof.
  repeat split; try reflexivity.
  vm_compute. discriminate.
Qed.

Lemma last_cons {A} (x : A) (l : list A) (d : A) : last (x :: l) d = last l x.
Proof.
  revert x d. induction l as [|y l IH]; intros x d; [reflexivity|].
  change (last (x :: y :: l) d) with (last (y :: l) d).
  rewrite !IH. reflexivity.
Qed.

Lemma maxSuffix_nonneg (used : list string) : 0 <= maxSuffix used.
Proof.
  unfold maxSuffix. induction (map snd (parsedSerials used)); cbn; lia.
Qed.

(** The loop of [suggestNextSerial] keeps the largest suffix seen, as
    the double [parseInt] reads, and the prefix of the latest match. *)
Lemma suggest_loop (used : list string) (m : Z) (p : string) :
  0 <= m ->
  fold_left suggestStep used (m, p)
    = (Z.max m (JS.round (maxSuffix used)), last (map fst (parsedSerials used)) p).
Proof.
  revert m p. induction used as [|s used IH]; intros m p Hm.
  - cbn. f_equal. unfold maxSuffix. cbn [parsedSerials flat_map map fold_right].
    rewrite (round_safe 0) by (unfold JS.two53; lia). lia.
  - cbn [fold_left]. unfold suggestStep at 2.
    unfold maxSuffix, parsedSerials. cbn [flat_map].
    fold (parsedSerials used).
    destruct (serialRegex s) as [[g1 g2]|] eqn:Hs.
    + apply serialRegex_inv in Hs as (_ & Hg2 & _).
      rewrite (parseInt_digits g2 Hg2).
      assert (Hnum := round_nonneg _ (digitsVal_nonneg g2 0 (Z.le_refl 0))).
      cbn [app map fst snd fold_right]. rewrite last_cons.
      fold (maxSuffix used).
      rewrite IH by (destruct (m <? JS.round (JS.digitsVal 0 g2)); lia).
      f_equal. rewrite round_max.
      destruct (Z.ltb_spec m (JS.round (JS.digitsVal 0 g2))); lia.
    + cbn [app]. fold (maxSuffix used). apply IH, Hm.
Qed.

Lemma parsedSerials_letters (used : list string) :
  Forall isLetters (map fst (parsedSerials used)).
Proof.
  induction used as [|s used IH]; [constructor|].
  unfold parsedSerials. cbn [flat_map]. fold (parsedSerials used).
  destruct (serialRegex s) as [[g1 g2]|] eqn:Hs; [|exact IH].
  apply serialRegex_inv in Hs as (Hg1 & _ & _).
  constructor; assumption.
Qed.

Lemma last_Forall {A} (P : A -> Prop) (l : list A) (d : A) :
  Forall P l -> P d -> P (last l d).
Proof.
  intros Hl. revert d. induction Hl as [|x l Hx Hl IH]; intros d Hd; [exact Hd|].
  rewrite (last_cons x l d). auto.
Qed.

Lemma lastPrefix_letters (used : list string) : isLetters (lastPrefix used).
Proof.
  unfold lastPrefix.
  apply (last_Forall isLetters); [apply parsedSerials_letters|].
  split; [discriminate | reflexivity].
Qed.

Lemma fiveDigits_spec (n : Z) :
  0 <= n <= JS.two53 ->
  isDigits (fiveDigits n)
  /\ JS.digitsVal 0 (fiveDigits n) = n
  /\ (5 <= String.length (fiveDigits n))%nat.
Proof.
  intro Hn'.
  destruct (Z.eq_dec n JS.two53) as [->|Hne'].
  { split; [split; vm_compute; [discriminate | reflexivity]|].
    split; vm_compute; [reflexivity | lia]. }
  assert (Hn : 0 <= n < JS.two53) by lia. clear Hn' Hne'.
  assert (Hdec : isDigits (JS.toString n))
    by (rewrite toString_safe by exact Hn; apply decimal_digits).
  destruct Hdec as [Hne Hd].
  destruct (padStart_digits (JS.toString n)
              (Nat.max 5 (String.length (JS.toString n))) Hd) as (H1 & H2 & H3).
  fold (fiveDigits n) in H1, H2, H3.
  assert (H5 : (5 <= String.length (fiveDigits n))%nat) by lia.
  repeat split; auto.
  - intro E. rewrite E in H5. cbn in H5. lia.
  - rewrite H2. now apply digitsVal_toString.
Qed.

(** What [suggestNextSerial] returns, on every list. *)
Lemma suggestNextSerial_formula (used : list string) :
  suggestNextSerial used
  = lastPrefix used ++ fiveDigits (JS.add (JS.round (maxSuffix used)) 1).
Proof.
  destruct used as [|s used]; [reflexivity|].
  unfold suggestNextSerial.
  rewrite (suggest_loop (s :: used) 0 "SN") by lia.
  rewrite Z.max_r by (apply round_nonneg, maxSuffix_nonneg). reflexivity.
Qed.

(** While the largest suffix is below 2^53 the next number is that
    suffix plus one. *)
Lemma suggestNextSerial_safe (used : list string) :
  suffixesSafe used ->
  suggestNextSerial used = lastPrefix used ++ fiveDigits (maxSuffix used + 1).
Proof.
  unfold suffixesSafe. intro Hsafe. assert (H0 := maxSuffix_nonneg used).
  rewrite suggestNextSerial_formula.
  rewrite (round_safe (maxSuffix used)) by lia.
  rewrite add_safe by lia. reflexivity.
Qed.

(** C5, as the code has it.  On no used serial [suggestNextSerial]
    returns the seed [SN00001].  On a list of used serials whose
    numeric suffixes are all below 2^53 it returns the letters of
    the LAST serial that matches [<letters><digits>] ([SN] when none
    matches) followed by the largest numeric suffix among the matching
    serials plus one, written with at least five digits: the result
    matches the pattern again, and its number is exactly one above that
    largest suffix. *)
Theorem suggestNextSerial_last_prefix_next_number (usedSerials : list string)
    (Hsafe : suffixesSafe usedSerials) :
  suggestNextSerial [] = "SN00001"
  /\ suggestNextSerial usedSerials
       = lastPrefix usedSerials ++ fiveDigits (maxSuffix usedSerials + 1)
  /\ serialRegex (suggestNextSerial usedSerials)
       = Some (lastPrefix usedSerials, fiveDigits (maxSuffix usedSerials + 1))
  /\ JS.parseInt (fiveDigits (maxSuffix usedSerials + 1))
       = Some (maxSuffix usedSerials + 1)
  /\ (5 <= String.length (fiveDigits (maxSuffix usedSerials + 1)))%nat.
Proof.
  assert (Hmax := maxSuffix_nonneg usedSerials).
  assert (Hlt : maxSuffix usedSerials < JS.two53) by exact Hsafe.
  destruct (fiveDigits_spec (maxSuffix usedSerials + 1)) as (Hd & Hv & Hl); [lia|].
  assert (Heq := suggestNextSerial_safe usedSerials Hsafe).
  split; [reflexivity|]. split; [exact Heq|].
  split; [|split; [|exact Hl]].
  - rewrite Heq. apply serialRegex_build; [apply lastPrefix_letters | exact Hd].
  - rewrite parseInt_digits by exact Hd. rewrite Hv.
    now rewrite round_safe by lia.
Qed.

Lemma suggestNextSerial_last_prefix_next_number_witness :
  suggestNextSerial [] = "SN00001"
  /\ suggestNextSerial ["sn00041"; "AB7"] = "AB" ++ "00042"
  /\ serialRegex (suggestNextSerial ["sn00041"; "AB7"]) = Some ("AB", "00042")
  /\ JS.parseInt "00042" = Some 42
  /\ (5 <= String.length "00042")%nat.
Proof.
  apply (suggestNextSerial_last_prefix_next_number ["sn00041"; "AB7"]).
  unfold suffixesSafe. vm_compute. reflexivity.
Defined.

(** C5 as it is worded fails.  On the prefix: with [AB00005] and
    [CD00001] in use, the largest suffix, 5, is carried by [AB00005],
    and the suggestion is [CD00006], not [AB00006].  On the number,
    from 2^53 on: with [SN9007199254740992] in use the suggestion is
    [SN9007199254740992] again, the [+ 1] being rounded away, and with
    [SN1000000000000000000000] in use it is [SN1e+21]. *)
Lemma suggestNextSerial_prefix_not_of_maximum :
  let used := ["AB00005"; "CD00001"] in
  maxSuffix used = 5
  /\ prefixOfMax used = "AB"
  /\ suggestNextSerial used = "CD00006"
  /\ suggestNextSerial used <> prefixOfMax used ++ fiveDigits (maxSuffix used + 1)
  /\ maxSuffix ["SN9007199254740992"] = 9007199254740992
  /\ suggestNextSerial ["SN9007199254740992"] = "SN9007199254740992"
  /\ suggestNextSerial ["SN1000000000000000000000"] = "SN1e+21".
Proof.
  cbv zeta. repeat split; try reflexivity.
  vm_compute. discriminate.
Qed.

(** ** Submitting a transaction *)

Lemma includesString_In (l : list string) (s : string) :
  includesString l s = true <-> In s l.
Proof.
  unfold includesString. rewrite existsb_exists. split.
  - intros (x & Hx & Heq). apply String.eqb_eq in Heq. now subst.
  - intro H. exists s. split; [exact H | apply String.eqb_refl].
Qed.

Lemma truthy_nonempty (s : string) : JS.truthy s = true <-> s <> "".
Proof. destruct s; cbn; split; congruence. Qed.

(** The filter of the handler finds something exactly when a serial of
    the submission collides with the registry. *)
Lemma duplicates_iff_collides (registry targetSerials : list string) :
  Modal.duplicatesIn registry targetSerials <> [] <-> collides registry targetSerials.
Proof.
  unfold Modal.duplicatesIn, collides. split.
  - intro H.
    destruct (filter _ targetSerials) as [|s l] eqn:Hf; [congruence|].
    assert (Hin : In s (filter
              (fun s => JS.truthy s && includesString registry s) targetSerials))
      by (rewrite Hf; now left).
    apply filter_In in Hin as [Hin Hs]. apply andb_true_iff in Hs as [Ht Hr].
    exists s. repeat split; auto.
    + now apply truthy_nonempty.
    + now apply includesString_In.
  - intros (s & Hin & Hne & Hreg) Hnil.
    assert (Hf : In s (filter
              (fun s => JS.truthy s && includesString registry s) targetSerials)).
    { apply filter_In. split; [exact Hin|].
      apply andb_true_iff. split;
        [now apply truthy_nonempty | now apply includesString_In]. }
    rewrite Hnil in Hf. exact Hf.
Qed.


Lemma withTransactions_same (item : Item.t) :
  Item.withTransactions item (Item.transactions item) = item.
Proof. now destruct item. Qed.

Lemma appendTransactions_nil (itemId : string) (items : list Item.t) :
  appendTransactions itemId [] items = items.
Proof.
  unfold appendTransactions. induction items as [|i items IH]; cbn; [reflexivity|].
  rewrite IH, app_nil_r, withTransactions_same.
  now destruct (Item.id i =? itemId)%string.
Qed.

Lemma appendTransactions_compose (itemId : string) (l1 l2 : list Transaction.t)
    (items : list Item.t) :
  appendTransactions itemId l2 (appendTransactions itemId l1 items)
    = appendTransactions itemId (l1 ++ l2) items.
Proof.
  unfold appendTransactions. rewrite map_map. apply map_ext. intro i.
  destruct (Item.id i =? itemId)%string eqn:Hid; cbn; rewrite Hid; [|reflexivity].
  now rewrite app_assoc.
Qed.

(** The [forEach] of a range submission appends the stamped
    transactions, in order. *)
Lemma addEach_appends (fresh : nat -> string) (now itemId : string)
    (st : Modal.State) (k : nat) (serials : list string) (items : list Item.t) :
  Modal.addEach fresh now itemId st k serials items
    = appendTransactions itemId (stamped fresh now st k serials) items.
Proof.
  revert k items. induction serials as [|s rest IH]; intros k items.
  - cbn. now rewrite appendTransactions_nil.
  - cbn [Modal.addEach stamped]. rewrite IH.
    change (App.handleAddTransaction (fresh k) itemId
              (Modal.rangeTransaction now st s) items)
      with (appendTransactions itemId
              [Transaction.withId (Modal.rangeTransaction now st s) (fresh k)] items).
    now rewrite appendTransactions_compose.
Qed.

Lemma stamped_shape (fresh : nat -> string) (now : string) (st : Modal.State)
    (k : nat) (serials : list string) :
  map Transaction.serialNumber (stamped fresh now st k serials) = map Some serials
  /\ Forall (fun t => Transaction.quantity t = 1
                      /\ Transaction.type t = Modal.transactionType st)
       (stamped fresh now st k serials)
  /\ List.length (stamped fresh now st k serials) = List.length serials.
Proof.
  revert k. induction serials as [|s rest IH]; intro k; cbn.
  - repeat split; constructor.
  - destruct (IH (S k)) as (H1 & H2 & H3). rewrite H1, H3.
    repeat split; auto.
Qed.

(** [handleAddTransaction] returns when the expansion of its input
    does, with what the rest of it does. *)
Lemma handleAddTransaction_returned (fresh : nat -> string) (now : string)
    (item : Item.t) (registry : list string) (items : list Item.t)
    (st : Modal.State) (targetSerials : list string) (isRange : bool) :
  Modal.expandInput item st = Returned (targetSerials, isRange) ->
  Modal.handleAddTransaction fresh now item registry items st
  = Some (Modal.submitExpanded fresh now item registry items st targetSerials isRange).
Proof. intro H. unfold Modal.handleAddTransaction. now rewrite H. Qed.

(** What [handleAddTransaction] does, by cases, once the input is
    expanded. *)
Lemma submitExpanded_cases (fresh : nat -> string) (now : string)
    (item : Item.t) (registry : list string) (items : list Item.t)
    (st : Modal.State) (targetSerials : list string) (isRange : bool) :
  let r := Modal.submitExpanded fresh now item registry items st targetSerials isRange in
  let count := Modal.countOf st targetSerials isRange in
  (Modal.duplicatesIn registry targetSerials <> [] /\
     r = ([SerialsExist (take 5 (Modal.duplicatesIn registry targetSerials))], items, st))
  \/ (Modal.duplicatesIn registry targetSerials = [] /\ count <= 0 /\
        r = ([InvalidQuantity], items, st))
  \/ (Modal.duplicatesIn registry targetSerials = [] /\ 0 < count /\
        Modal.transactionType st = release /\ currentStock item < count /\
        r = ([ExceedsStock], items, st))
  \/ (Modal.duplicatesIn registry targetSerials = [] /\ 0 < count /\
        (Modal.transactionType st = release -> count <= currentStock item) /\
        r = (if isRange then [Registered (List.length targetSerials)] else [],
             appendTransactions (Item.id item)
               (submittedTransactions fresh now item st targetSerials isRange) items,
             Modal.resetForm st (suggestNextSerial (registry ++ targetSerials)))).
Proof.
  intros r count. subst r. unfold Modal.submitExpanded.
  destruct (Modal.duplicatesIn registry targetSerials) as [|d ds] eqn:Hd.
  2:{ left. split; [discriminate | reflexivity]. }
  right. cbn [List.length Nat.ltb Nat.leb].
  fold count.
  destruct (Z.leb_spec count 0) as [Hc|Hc].
  { left. auto. }
  right.
  assert (Hacc :
    (if isRange
     then ([Registered (List.length targetSerials)],
           Modal.addEach fresh now (Item.id item) st 0 targetSerials items,
           Modal.resetForm st (suggestNextSerial (registry ++ targetSerials)))
     else ([],
           App.handleAddTransaction (fresh 0%nat) (Item.id item)
             (Modal.singleTransaction now item st count) items,
           Modal.resetForm st (suggestNextSerial (registry ++ targetSerials))))
    = (if isRange then [Registered (List.length targetSerials)] else [],
       appendTransactions (Item.id item)
         (submittedTransactions fresh now item st targetSerials isRange) items,
       Modal.resetForm st (suggestNextSerial (registry ++ targetSerials)))).
  { subst count. destruct isRange; cbn [submittedTransactions];
      [now rewrite addEach_appends | reflexivity]. }
  destruct (Modal.transactionType st) eqn:Hty; cbn [TransactionType_eqb andb].
  - right. repeat split; auto. discriminate.
  - destruct (Z.ltb_spec (currentStock item) count) as [Hs|Hs].
    + left. auto.
    + right. repeat split; auto.
Qed.

(** C2, as the code has it.  An outbound submission whose range is
    refused as too large is rejected, and one whose range never
    finishes expanding does not return.  One whose quantity -- the
    double [parseInt] reads in the quantity field or, for a range, the
    number of expanded serials -- exceeds the stock of the item is
    rejected: the collection and the form are as before and one alert
    is shown.  One that does not exceed it is accepted when, besides,
    the quantity is positive and no expanded serial is in the registry:
    its transactions are appended to the item. *)
Theorem outbound_checked_against_stock
    (fresh : nat -> string) (now : string) (item : Item.t)
    (registry : list string) (items : list Item.t) (st : Modal.State)
    (Hrel : Modal.transactionType st = release) :
  let r := Modal.handleAddTransaction fresh now item registry items st in
  match Modal.expandInput item st with
  | Threw e => r = Some ([ErrorMessage e], items, st)
  | NoReturn => r = None
  | Returned (targetSerials, isRange) =>
      let count := Modal.countOf st targetSerials isRange in
      let newTxs := submittedTransactions fresh now item st targetSerials isRange in
      (currentStock item < count -> exists a, r = Some ([a], items, st))
      /\ (count <= currentStock item -> 0 < count ->
          ~ collides registry targetSerials ->
          exists shown st',
            r = Some (shown, appendTransactions (Item.id item) newTxs items, st'))
  end.
Proof.
  intro r. subst r.
  destruct (Modal.expandInput item st) as [[targetSerials isRange]|e|] eqn:Hexp;
    try (unfold Modal.handleAddTransaction; now rewrite Hexp).
  cbv zeta.
  rewrite (handleAddTransaction_returned _ _ _ _ _ _ _ _ Hexp).
  destruct (submitExpanded_cases fresh now item registry items st
              targetSerials isRange)
    as [(Hd & Hr)|[(Hd & Hc & Hr)|[(Hd & Hc & _ & Hs & Hr)|(Hd & Hc & Hs & Hr)]]];
    rewrite Hr.
  - (* a serial collides *)
    split; [eauto|].
    intros _ _ Hcol. exfalso. apply Hcol. now apply duplicates_iff_collides.
  - (* the quantity is not positive *)
    split; [eauto|]. intros _ Hpos. lia.
  - (* the quantity exceeds the stock *)
    split; [eauto|]. intros Hle. lia.
  - (* accepted *)
    split.
    + intro Hlt. specialize (Hs Hrel). lia.
    + intros _ _ _. eauto.
Qed.

Lemma outbound_checked_against_stock_witness :
  let item := sampleItem "i1" part "CT1"
                [sampleTx "t1" purchase 10 None; sampleTx "t2" release 3 None] in
  let asks20 := sampleForm release "20" "" in
  let asks3 := sampleForm release "3" "" in
  calculateStock item = 7
  /\ (exists a,
        Modal.handleAddTransaction sampleFresh sampleNow item [] [item] asks20
        = Some ([a], [item], asks20))
  /\ (exists shown st',
        Modal.handleAddTransaction sampleFresh sampleNow item [] [item] asks3
        = Some (shown,
                appendTransactions "i1"
                  (submittedTransactions sampleFresh sampleNow item asks3 [""] false)
                  [item],
                st')).
Proof.
  cbv zeta. split; [reflexivity|]. split.
  - apply (outbound_checked_against_stock sampleFresh sampleNow
             (sampleItem "i1" part "CT1"
                [sampleTx "t1" purchase 10 None; sampleTx "t2" release 3 None])
             [] _ (sampleForm release "20" "") eq_refl).
    vm_compute. reflexivity.
  - apply (outbound_checked_against_stock sampleFresh sampleNow
             (sampleItem "i1" part "CT1"
                [sampleTx "t1" purchase 10 None; sampleTx "t2" release 3 None])
             []
             [sampleItem "i1" part "CT1"
                [sampleTx "t1" purchase 10 None; sampleTx "t2" release 3 None]]
             (sampleForm release "3" "") eq_refl).
    + vm_compute. discriminate.
    + vm_compute. reflexivity.
    + intros (s & Hin & _ & []).
Defined.

(** C2 as it is worded fails in its second half: an outbound within
    the stock is not always accepted.  With three units in stock, the
    release of the range [SN00002~00003] (two serials) is rejected
    because the serials are registered, and a release of quantity 0 is
    rejected as an invalid quantity; with 200 units in stock, the
    release of the range [SN00001~00150] is refused as too large, and
    that of the range [SN9007199254740990~SN9007199254740992] (three
    serials as it is written) does not return.  And the quantity
    compared with the stock is the double [parseInt] reads: with 2^53
    units in stock, a release of [9007199254740993] (2^53 + 1) is read
    as 2^53 and accepted. *)
Lemma outbound_within_stock_rejected :
  let item := sampleItem "p1" product "PR1"
                [sampleTx "t1" purchase 1 (Some "SN00001");
                 sampleTx "t2" purchase 1 (Some "SN00002");
                 sampleTx "t3" purchase 1 (Some "SN00003")] in
  let range := sampleForm release "" "SN00002~00003" in
  let zero := sampleForm release "0" "" in
  let lot := sampleItem "p2" product "PR2" [sampleTx "t4" purchase 200 (Some "LOT1")] in
  let large := sampleForm release "" "SN00001~00150" in
  let endless := sampleForm release "" "SN9007199254740990~SN9007199254740992" in
  let heap := sampleItem "i1" part "CT1"
                [sampleTx "t5" purchase 9007199254740992 None] in
  let above := sampleForm release "9007199254740993" "" in
  (currentStock item = 3
   /\ Modal.expandInput item range = Returned (["SN00002"; "SN00003"], true)
   /\ Modal.countOf range ["SN00002"; "SN00003"] true = 2
   /\ Mounted.submitTransaction sampleFresh sampleNow "p1" [item] range
        = Some ([SerialsExist ["SN00002"; "SN00003"]], [item], range))
  /\ (Modal.countOf zero [""] false = 0
      /\ Mounted.submitTransaction sampleFresh sampleNow "p1" [item] zero
           = Some ([InvalidQuantity], [item], zero))
  /\ (currentStock lot = 200
      /\ Mounted.submitTransaction sampleFresh sampleNow "p2" [lot] large
           = Some ([ErrorMessage RangeTooLarge], [lot], large)
      /\ Mounted.submitTransaction sampleFresh sampleNow "p2" [lot] endless = None)
  /\ (currentStock heap = 9007199254740992
      /\ Modal.countOf above [""] false = 9007199254740992
      /\ exists items' st',
           Mounted.submitTransaction sampleFresh sampleNow "i1" [heap] above
             = Some ([], items', st')
           /\ map calculateStock items' = [0]).
Proof.
  cbv zeta.
  split; [repeat split; reflexivity|].
  split; [split; reflexivity|].
  split; [repeat split; reflexivity|].
  split; [reflexivity|]. split; [reflexivity|].
  do 2 eexists. split; [vm_compute; reflexivity | reflexivity].
Qed.

Lemma setFrom_In (seen l : list string) (s : string) :
  In s (setFrom seen l) <-> In s seen \/ In s l.
Proof.
  revert seen. induction l as [|x l IH]; intro seen; cbn [setFrom].
  - cbn. tauto.
  - rewrite IH. destruct (includesString seen x) eqn:Hx.
    + apply includesString_In in Hx. cbn. split; [tauto|].
      intros [H|[->|H]]; auto.
    + rewrite in_app_iff. cbn. tauto.
Qed.

(** The registry holds exactly the non-empty serials of the
    transactions of the collection, in upper case. *)
Lemma registry_members (items : list Item.t) (s : string) :
  In s (App.allUsedSerials items) <->
  exists item t sn,
    In item items /\ In t (Item.transactions item)
    /\ Transaction.serialNumber t = Some sn /\ sn <> ""
    /\ s = JS.toUpperCase sn.
Proof.
  unfold App.allUsedSerials. rewrite setFrom_In, in_flat_map.
  unfold App.serialsOf. split.
  - intros [[]|(item & Hitem & Hs)]. apply in_flat_map in Hs as (t & Ht & Hs).
    destruct (Transaction.serialNumber t) as [sn|] eqn:Hsn; [|destruct Hs].
    destruct (JS.truthy sn) eqn:Htr; [|destruct Hs].
    destruct Hs as [<-|[]]. exists item, t, sn.
    repeat split; auto. now apply truthy_nonempty.
  - intros (item & t & sn & Hitem & Ht & Hsn & Hne & ->). right.
    exists item. split; [exact Hitem|]. apply in_flat_map.
    exists t. split; [exact Ht|]. rewrite Hsn.
    apply truthy_nonempty in Hne. rewrite Hne. now left.
Qed.




(** ** The invariants of the ledger under the handlers *)

(** Creating an item keeps every quantity positive: the seeding
    transaction is written only for a positive initial quantity. *)
Lemma handleAddItem_keeps_quantities_positive
    (itemId tId now : string) (itemData : Item.t) (q : Z) (items : list Item.t) :
  quantitiesPositive items = true ->
  quantitiesPositive (App.handleAddItem itemId tId now itemData q items) = true.
Proof.
  intro H. unfold App.handleAddItem, quantitiesPositive.
  cbn [forallb Item.withTransactions Item.transactions].
  fold (quantitiesPositive items). rewrite H, andb_true_r.
  destruct (Z.ltb_spec 0 q) as [Hq|Hq]; cbn; [|reflexivity].
  rewrite andb_true_r. now apply Z.ltb_lt.
Qed.

Lemma appendTransactions_keeps_quantities_positive
    (itemId : string) (newTxs : list Transaction.t) (items : list Item.t) :
  forallb (fun t => 0 <? Transaction.quantity t) newTxs = true ->
  quantitiesPositive items = true ->
  quantitiesPositive (appendTransactions itemId newTxs items) = true.
Proof.
  intros Hnew. unfold quantitiesPositive, appendTransactions.
  induction items as [|i items IH]; cbn [map forallb]; [reflexivity|].
  rewrite !andb_true_iff. intros [Hi Hrest]. split; [|auto].
  destruct (Item.id i =? itemId)%string; [|exact Hi].
  cbn [Item.withTransactions Item.transactions].
  rewrite forallb_app, Hi, Hnew. reflexivity.
Qed.

(** So does registering a transaction: a quantity below 1 is refused. *)
Lemma handleAddTransaction_keeps_quantities_positive
    (fresh : nat -> string) (now : string) (item : Item.t)
    (registry : list string) (items : list Item.t) (st : Modal.State)
    (r : list Alert * list Item.t * Modal.State) :
  Modal.handleAddTransaction fresh now item registry items st = Some r ->
  quantitiesPositive items = true ->
  quantitiesPositive (snd (fst r)) = true.
Proof.
  intros Hret H. unfold Modal.handleAddTransaction in Hret.
  destruct (Modal.expandInput item st) as [[targetSerials isRange]|e|] eqn:Hexp;
    [|injection Hret as <-; exact H | discriminate].
  injection Hret as <-.
  destruct (submitExpanded_cases fresh now item registry items st
              targetSerials isRange)
    as [(_ & Hr)|[(_ & _ & Hr)|[(_ & _ & _ & _ & Hr)|(_ & Hc & _ & Hr)]]];
    rewrite Hr; try exact H.
  cbn [fst snd]. apply appendTransactions_keeps_quantities_positive; [|exact H].
  unfold submittedTransactions. destruct isRange.
  - destruct (stamped_shape fresh now st 0 targetSerials) as (_ & H2 & _).
    apply forallb_forall. intros t Ht.
    rewrite Forall_forall in H2. destruct (H2 t Ht) as [-> _]. reflexivity.
  - cbn. rewrite andb_true_r. now apply Z.ltb_lt.
Qed.

(** With the right secret, a pending save of a transaction edit is
    applied as it stands: no alert, no look at the edited fields. *)
Lemma transaction_edit_is_unchecked
    (role : Role) (item : Item.t) (items : list Item.t) (st : Modal.State)
    (tid : string) :
  Modal.password st = secretOf role ->
  Modal.showPasswordInput st
    = Some (Modal.mkAction Modal.act_trans_save (Some tid)) ->
  tid <> "" ->
  fst (Modal.handleActionConfirm role item items st)
    = ([], App.handleUpdateTransaction (Item.id item) tid
             (Modal.transEditData st) items).
Proof.
  intros Hpw Hact Htid. unfold Modal.handleActionConfirm.
  apply truthy_nonempty in Htid.
  rewrite Hact, Htid.
  destruct role; cbn [secretOf] in Hpw; rewrite Hpw; reflexivity.
Qed.

(** C6.  The edit of a transaction breaks the invariant that every
    transaction of the collection has a positive quantity.  A
    transaction of quantity 10 is opened for edit, its quantity field
    is set to [0] (or to [-4]) and the save is confirmed with the right
    secret: the edit is applied without an alert, and the collection,
    whose quantities were all positive, now holds a transaction of
    quantity 0 (or -4). *)
Theorem transaction_edit_stores_nonpositive_quantity :
  let t := sampleTx "t1" purchase 10 None in
  let items := [sampleItem "i1" part "CT1" [t]] in
  let zero := Mounted.confirmAction admin "i1" items
                (sampleEditSteps t Modal.f_quantity "0" "0000") in
  let minus := Mounted.confirmAction admin "i1" items
                 (sampleEditSteps t Modal.f_quantity "-4" "0000") in
  quantitiesPositive items = true
  /\ fst (fst zero) = []
  /\ map (fun i => map Transaction.quantity (Item.transactions i)) (snd (fst zero)) = [[0]]
  /\ quantitiesPositive (snd (fst zero)) = false
  /\ fst (fst minus) = []
  /\ map (fun i => map Transaction.quantity (Item.transactions i)) (snd (fst minus)) = [[-4]]
  /\ map calculateStock (snd (fst minus)) = [-4].
Proof. cbv zeta. repeat split; reflexivity. Qed.

(** C7.  The edit of a transaction breaks the invariant that no two
    transactions carry the same non-empty serial.  Two transactions
    carry [SN00001] and [SN00002]; the serial field of the second is
    set to [sn00001] and the save is confirmed with the right secret:
    the edit is applied without an alert, the registry is not looked
    up, and both transactions now carry [SN00001]. *)
Theorem transaction_edit_duplicates_serial :
  let t1 := sampleTx "t1" purchase 1 (Some "SN00001") in
  let t2 := sampleTx "t2" purchase 1 (Some "SN00002") in
  let items := [sampleItem "p1" product "PR1" [t1; t2]] in
  let r := Mounted.confirmAction admin "p1" items
             (sampleEditSteps t2 Modal.f_serialNumber "sn00001" "0000") in
  serialsUnique items = true
  /\ fst (fst r) = []
  /\ map (fun i => map Transaction.serialNumber (Item.transactions i)) (snd (fst r))
       = [[Some "SN00001"; Some "SN00001"]]
  /\ serialsUnique (snd (fst r)) = false.
Proof. cbv zeta. repeat split; reflexivity. Qed.

(** A serial of white space only passes the creation checks too: the
    handler looks up the trimmed text, which is empty, and stores the
    untrimmed one. *)
Lemma blank_serial_registered_twice :
  let item := sampleItem "p1" product "PR1" [] in
  let st := sampleForm purchase "1" " " in
  exists once twice,
    Mounted.submitTransaction sampleFresh sampleNow "p1" [item] st = Some once
    /\ Modal.isSerialDuplicate (App.allUsedSerials (snd (fst once))) st = false
    /\ Mounted.submitTransaction sampleFresh sampleNow "p1" (snd (fst once)) st
       = Some twice
    /\ map (fun i => map Transaction.serialNumber (Item.transactions i))
         (snd (fst twice))
       = [[Some " "; Some " "]]
    /\ serialsUnique (snd (fst twice)) = false.
Proof.
  cbv zeta. do 2 eexists.
  split; [vm_compute; reflexivity|]. split; [reflexivity|].
  split; [vm_compute; reflexivity|]. split; reflexivity.
Qed.

(** ** The secret gate *)

(** C8, as the code has it.  When the secret entered does not match the
    secret of the role, the confirmation of the dialog (commit of an
    item edit, save of a transaction edit, deletion of a transaction)
    and the confirmation of an item deletion show the wrong-password
    alert and change nothing: the collection is as before, the request
    is still pending, and the secret field still holds what was entered. *)
Theorem wrong_secret_changes_nothing
    (role : Role) (item : Item.t) (items : list Item.t) (st : Modal.State)
    (app : App.State)
    (Hmodal : Modal.password st <> secretOf role)
    (Hrole : App.authRole app = Some role)
    (Happ : App.deletePassword app <> secretOf role) :
  Modal.handleActionConfirm role item items st = ([WrongPassword], items, st)
  /\ App.handleDeleteItemConfirm app = ([WrongPassword], app).
Proof.
  unfold Modal.handleActionConfirm, App.handleDeleteItemConfirm.
  rewrite Hrole.
  apply String.eqb_neq in Hmodal, Happ.
  destruct role; cbn [secretOf] in Hmodal, Happ; rewrite Hmodal, Happ; auto.
Qed.

Lemma wrong_secret_changes_nothing_witness :
  let t := sampleTx "t1" purchase 10 None in
  let item := sampleItem "i1" part "CT1" [t] in
  let st := Modal.typePassword "9999" (Modal.handleDeleteTrans "t1" sampleModal) in
  let app := App.mkState [item] (Some admin) "9999" (Some "i1") in
  Modal.handleActionConfirm admin item [item] st = ([WrongPassword], [item], st)
  /\ App.handleDeleteItemConfirm app = ([WrongPassword], app).
Proof.
  cbv zeta.
  apply (wrong_secret_changes_nothing admin); [discriminate | reflexivity | discriminate].
Defined.

(** C8 as it is worded fails on the secret field: after a wrong secret
    it is not cleared, neither in the dialog nor in the item deletion. *)
Lemma wrong_secret_not_cleared :
  let t := sampleTx "t1" purchase 10 None in
  let item := sampleItem "i1" part "CT1" [t] in
  let st := Modal.typePassword "9999" (Modal.handleDeleteTrans "t1" sampleModal) in
  let app := App.mkState [item] (Some admin) "9999" (Some "i1") in
  Modal.password (snd (Modal.handleActionConfirm admin item [item] st)) = "9999"
  /\ Modal.password (snd (Modal.handleActionConfirm admin item [item] st)) <> ""
  /\ App.deletePassword (snd (App.handleDeleteItemConfirm app)) = "9999"
  /\ App.deletePassword (snd (App.handleDeleteItemConfirm app)) <> "".
Proof. cbv zeta. repeat split; try reflexivity; vm_compute; discriminate. Qed.

(** ** Persisting and pushing *)

Lemma clearTimeout_covered (id : nat) (ts : list Sync.Timer) :
  Forall (fun t => Some id = Some (Sync.timerId t)) ts ->
  Sync.clearTimeout id ts = [].
Proof.
  unfold Sync.clearTimeout.
  induction 1 as [|t ts Ht _ IH]; cbn; [reflexivity|].
  injection Ht as ->. now rewrite Nat.eqb_refl.
Qed.

(** The effect leaves no timer but its own. *)
Lemma setItems_shape (c : list Item.t) (st : Sync.State) :
  cleanupCovers st ->
  Sync.setItems c st
    = match c with
      | [] =>
          Sync.mkState (Sync.clock st) c (Some c) [] (Sync.nextTimerId st) None
            (Sync.pushed st)
      | _ =>
          Sync.mkState (Sync.clock st) c (Some c)
            [Sync.mkTimer (Sync.nextTimerId st) (Sync.clock st + Sync.DEBOUNCE_MS) c]
            (S (Sync.nextTimerId st)) (Some (Sync.nextTimerId st)) (Sync.pushed st)
      end.
Proof.
  unfold cleanupCovers, Sync.setItems, Sync.runEffect. intro H.
  cbn [Sync.cleanup Sync.timers Sync.items Sync.clock Sync.nextTimerId
       Sync.pushed Sync.localStorage].
  assert (Hts : match Sync.cleanup st with
                | Some id => Sync.clearTimeout id (Sync.timers st)
                | None => Sync.timers st
                end = []).
  { destruct (Sync.cleanup st) as [id|].
    - now apply clearTimeout_covered.
    - destruct H as [|t ts Ht _]; [reflexivity | discriminate]. }
  rewrite Hts. now destruct c.
Qed.

Lemma cleanupCovers_step (st : Sync.State) (e : Sync.Event) :
  cleanupCovers st -> cleanupCovers (Sync.step st e).
Proof.
  intro H. destruct e as [next|dt]; cbn [Sync.step].
  - rewrite setItems_shape by exact H.
    destruct next; unfold cleanupCovers; cbn; repeat constructor.
  - unfold cleanupCovers, Sync.advance in *. cbn [Sync.cleanup Sync.timers].
    apply Forall_forall. intros t Ht. apply filter_In in Ht as [Ht _].
    rewrite Forall_forall in H. auto.
Qed.

Lemma cleanupCovers_run (es : list Sync.Event) (st : Sync.State) :
  cleanupCovers st -> cleanupCovers (Sync.run es st).
Proof.
  unfold Sync.run. revert st.
  induction es as [|e es IH]; intros st H; [exact H|].
  cbn [fold_left]. apply IH, cleanupCovers_step, H.
Qed.

(** A change, then a pause shorter than the delay: the collection is
    stored, the timer of the change is the only one pending (none for an
    empty collection), and nothing was pushed. *)
Lemma change_then_short_pause (c : list Item.t) (d : Z) (st : Sync.State) :
  cleanupCovers st -> 0 <= d < Sync.DEBOUNCE_MS ->
  let st' := Sync.advance d (Sync.setItems c st) in
  cleanupCovers st'
  /\ Sync.clock st' = Sync.clock st + d
  /\ Sync.localStorage st' = Some c
  /\ Sync.pushed st' = Sync.pushed st
  /\ Sync.timers st'
     = match c with
       | [] => []
       | _ => [Sync.mkTimer (Sync.nextTimerId st)
                 (Sync.clock st + Sync.DEBOUNCE_MS) c]
       end.
Proof.
  intros Hst Hd st'.
  split.
  { apply (cleanupCovers_step _ (Sync.Wait d)),
          (cleanupCovers_step _ (Sync.Change c)), Hst. }
  subst st'. rewrite setItems_shape by exact Hst. unfold Sync.advance.
  destruct c as [|i c];
    cbn [Sync.timers Sync.clock Sync.items Sync.localStorage Sync.pushed
         filter map Sync.due].
  - rewrite app_nil_r. auto.
  - destruct (Z.leb_spec (Sync.clock st + Sync.DEBOUNCE_MS) (Sync.clock st + d));
      [lia|].
    cbn [negb map]. rewrite app_nil_r. auto.
Qed.

Lemma runBurst_quiet (burst : list (list Item.t * Z)) (st : Sync.State) :
  cleanupCovers st -> shortPauses burst ->
  cleanupCovers (runBurst burst st)
  /\ Sync.pushed (runBurst burst st) = Sync.pushed st.
Proof.
  unfold runBurst. intros Hst H. revert st Hst.
  induction H as [|[c d] burst Hd _ IH]; intros st Hst; [auto|].
  cbn [fold_left fst snd].
  destruct (change_then_short_pause c d st Hst Hd) as (Hc & _ & _ & Hp & _).
  destruct (IH _ Hc) as [IH1 IH2]. split; [exact IH1|]. now rewrite IH2, Hp.
Qed.

(** C9, as the code has it.  At any point of the life of the component,
    a change stores the whole collection locally at once and clears the
    timer that was pending; it starts a timer that pushes the new
    collection [DEBOUNCE_MS] later only when that collection is not
    empty.  Hence, over a burst of changes with pauses shorter than the
    delay, nothing is pushed, and once the delay has passed after the
    last change exactly one push has followed, of the final collection
    -- or none at all when the final collection is empty. *)
Theorem change_stores_now_pushes_last_nonempty
    (history : list Sync.Event) (burst : list (list Item.t * Z))
    (final : list Item.t) (dt wait : Z)
    (Hburst : shortPauses burst)
    (Hdt : 0 <= dt < Sync.DEBOUNCE_MS)
    (Hwait : Sync.DEBOUNCE_MS <= dt + wait) :
  let st := Sync.run history Sync.mounted in
  let changed := Sync.setItems final (runBurst burst st) in
  let paused := Sync.advance dt changed in
  let quiet := Sync.advance wait paused in
  Sync.localStorage changed = Some final
  /\ map Sync.payload (Sync.timers changed) = pushOf final
  /\ Forall (fun t => Sync.due t = Sync.clock changed + Sync.DEBOUNCE_MS)
       (Sync.timers changed)
  /\ Sync.pushed paused = Sync.pushed st
  /\ Sync.pushed quiet = (Sync.pushed st ++ pushOf final)%list
  /\ Sync.timers quiet = []
  /\ Sync.localStorage quiet = Some final.
Proof.
  intros st changed paused quiet.
  assert (Hst : cleanupCovers st).
  { apply cleanupCovers_run. unfold cleanupCovers. cbn. constructor. }
  destruct (runBurst_quiet burst st Hst Hburst) as [Hb Hbp].
  assert (Hchanged := setItems_shape final _ Hb). fold changed in Hchanged.
  destruct (change_then_short_pause final dt _ Hb Hdt)
    as (_ & Hclock & Hlocal & Hpushed & Htimers).
  fold changed in Hclock, Hlocal, Hpushed, Htimers.
  fold paused in Hclock, Hlocal, Hpushed, Htimers.
  rewrite Hbp in Hpushed.
  split; [rewrite Hchanged; now destruct final|].
  split; [rewrite Hchanged; now destruct final|].
  split; [rewrite Hchanged; destruct final; repeat constructor|].
  split; [exact Hpushed|].
  subst quiet. unfold Sync.advance.
  cbn [Sync.pushed Sync.timers Sync.localStorage].
  rewrite Hpushed, Htimers, Hlocal, Hclock.
  destruct final as [|i final]; cbn [filter map pushOf Sync.due Sync.payload].
  - auto.
  - destruct (Z.leb_spec (Sync.clock (runBurst burst st) + Sync.DEBOUNCE_MS)
                (Sync.clock (runBurst burst st) + dt + wait)); [|lia].
    cbn [negb map Sync.payload]. auto.
Qed.

Lemma change_stores_now_pushes_last_nonempty_witness :
  let a := [sampleItem "i1" part "CT1" []] in
  let b := [sampleItem "i2" part "CT2" []; sampleItem "i1" part "CT1" []] in
  let st := Sync.run [Sync.Change a; Sync.Wait 5000] Sync.mounted in
  let changed := Sync.setItems b (runBurst [(a, 500)] st) in
  let paused := Sync.advance 100 changed in
  let quiet := Sync.advance 1900 paused in
  Sync.localStorage changed = Some b
  /\ map Sync.payload (Sync.timers changed) = [b]
  /\ Forall (fun t => Sync.due t = Sync.clock changed + Sync.DEBOUNCE_MS)
       (Sync.timers changed)
  /\ Sync.pushed paused = [a]
  /\ Sync.pushed quiet = [a; b]
  /\ Sync.timers quiet = []
  /\ Sync.localStorage quiet = Some b.
Proof.
  cbv zeta.
  apply (change_stores_now_pushes_last_nonempty
           [Sync.Change [sampleItem "i1" part "CT1" []]; Sync.Wait 5000]
           [([sampleItem "i1" part "CT1" []], 500)]
           [sampleItem "i2" part "CT2" []; sampleItem "i1" part "CT1" []]
           100 1900).
  - constructor; [cbn; unfold Sync.DEBOUNCE_MS; lia | constructor].
  - unfold Sync.DEBOUNCE_MS; lia.
  - unfold Sync.DEBOUNCE_MS; lia.
Defined.

(** C9 as it is worded fails when the collection becomes empty: after
    the only item is deleted the empty collection is stored locally,
    but no push is scheduled, and however long one waits the last thing
    pushed is the collection that still holds the item. *)
Lemma emptied_collection_is_not_pushed :
  let one := [sampleItem "i1" part "CT1" []] in
  let st := Sync.run [Sync.Change one; Sync.Wait 2000; Sync.Change []] Sync.mounted in
  Sync.pushed st = [one]
  /\ Sync.items st = []
  /\ Sync.localStorage st = Some []
  /\ Sync.timers st = []
  /\ Sync.pushed (Sync.run [Sync.Wait 2000; Sync.Wait 86400000] st) = [one].
Proof. cbv zeta. repeat split; reflexivity. Qed.

(* ================================================================== *)
(** * Further properties *)
(* ================================================================== *)

(** ** The serial allocator, on every input *)

Section RegexInversion.
Context {A : Type}.
Variable p : ascii -> bool.

(** Whatever a lazy star returns, the continuation returned it on a
    split of the input after a run of [p]. *)
Lemma lazyStar_inv (s : string) (k : string -> string -> option A) (v : A) :
  JS.lazyStar p s k = Some v ->
  exists m r, s = m ++ r /\ allChars p m = true /\ k m r = Some v.
Proof.
  revert k. induction s as [|c s IH]; intros k H.
  - cbn in H. destruct (k "" "") eqn:Hk; [|discriminate].
    injection H as <-. exists "", "". auto.
  - cbn in H. destruct (k "" (String c s)) eqn:Hk.
    + injection H as <-. exists "", (String c s). auto.
    + destruct (p c) eqn:Hc; [|discriminate].
      apply IH in H as (m & r & -> & Hm & Hr).
      exists (String c m), r. cbn. rewrite Hc, Hm. auto.
Qed.

Lemma lazyPlus_inv (s : string) (k : string -> string -> option A) (v : A) :
  JS.lazyPlus p s k = Some v ->
  exists m r, s = m ++ r /\ m <> "" /\ allChars p m = true /\ k m r = Some v.
Proof.
  destruct s as [|c s]; cbn; [discriminate|].
  destruct (p c) eqn:Hc; [|discriminate].
  intro H. apply lazyStar_inv in H as (m & r & -> & Hm & Hk).
  exists (String c m), r. cbn. rewrite Hc, Hm. repeat split; auto. discriminate.
Qed.
End RegexInversion.

(** What a match of the range pattern says of the input: it is the
    prefix, the start digits, white space, the tilde, and a rest that
    ends with the end digits. *)
Lemma rangeRegex_inv (input : string) (m : RangeMatch) :
  rangeRegex input = Some m ->
  rm_prefix m <> "" /\ isDigits (rm_start m) /\ isDigits (rm_end m)
  /\ exists ws rest,
       input = rm_prefix m ++ rm_start m ++ ws ++ String "~" rest.
Proof.
  unfold rangeRegex. intro H.
  apply lazyPlus_inv in H as (g1 & s1 & -> & Hg1 & _ & H).
  apply greedyPlus_inv in H as (g2 & s2 & -> & Hg2 & Hd2 & H).
  apply greedyStar_inv in H as (ws & s3 & -> & _ & H).
  destruct s3 as [|c s4]; [discriminate|]. cbn [JS.lit] in H.
  destruct (Ascii.eqb "~" c) eqn:Hc; [|discriminate].
  apply Ascii.eqb_eq in Hc. subst c.
  apply greedyStar_inv in H as (ws' & s5 & -> & _ & H).
  assert (Hend : exists g3 g4, m = Build_RangeMatch g1 g2 g3 g4 /\ isDigits g4).
  { unfold JS.orElse in H.
    destruct (JS.lazyPlus JS.is_dot s5 _) as [m'|] eqn:H3.
    - injection H as ->.
      apply lazyPlus_inv in H3 as (g3 & s6 & _ & _ & _ & H3).
      apply greedyPlus_inv in H3 as (g4 & s7 & _ & Hg4 & Hd4 & H3).
      destruct s7; [|discriminate]. injection H3 as <-.
      exists (Some g3), g4. repeat split; auto.
    - apply greedyPlus_inv in H as (g4 & s7 & _ & Hg4 & Hd4 & H).
      destruct s7; [|discriminate]. injection H as <-.
      exists None, g4. repeat split; auto. }
  destruct Hend as (g3 & g4 & -> & Hd4). cbn [rm_prefix rm_start rm_end].
  split; [exact Hg1|]. split; [split; assumption|]. split; [exact Hd4|].
  exists ws, (ws' ++ s5). reflexivity.
Qed.

Lemma includes_append (c : ascii) (a b : string) :
  JS.includes c (a ++ b) = JS.includes c a || JS.includes c b.
Proof.
  induction a as [|x a IH]; cbn; [reflexivity|].
  now rewrite IH, orb_assoc.
Qed.

Lemma parseSerialRange_returns_bounds_helper
    (input : string) (serials : list string) :
  parseSerialRange input = Returned serials ->
  (1 <= List.length serials <= 100)%nat /\ NoDup serials.
Proof.
  unfold parseSerialRange.
  assert (Hone : forall s : string,
            (1 <= List.length [s] <= 100)%nat /\ NoDup [s]).
  { intro s. cbn. split; [lia|]. repeat constructor. intros []. }
  destruct (rangeRegex input) as [m|] eqn:Hm.
  2:{ intro H. injection H as <-. apply Hone. }
  apply rangeRegex_inv in Hm as (_ & Hs & He & _).
  rewrite (parseInt_digits _ Hs), (parseInt_digits _ He).
  set (startNum := JS.round (JS.digitsVal 0 (rm_start m))).
  set (endNum := JS.round (JS.digitsVal 0 (rm_end m))).
  assert (H0 : 0 <= startNum)
    by (apply round_nonneg, digitsVal_nonneg; lia).
  destruct (Z.ltb_spec endNum startNum) as [Hlt|Hle].
  { intro H. injection H as <-. apply Hone. }
  destruct (100 <=? JS.sub endNum startNum); [discriminate|].
  intro H.
  destruct (rangeLoop_returned _ _ _ _ _ _ H (isDouble_round _) H0)
    as (_ & Hnd & Hlen & Hne).
  split; [|exact Hnd]. split; [|exact Hlen].
  destruct serials; [now specialize (Hne Hle) | cbn; lia].
Qed.

(** X1.  Whatever the input, when [parseSerialRange] returns it returns
    between 1 and 100 serials, and no serial twice. *)
Theorem parseSerialRange_returns_1_to_100_distinct
    (input : string) (serials : list string) :
  parseSerialRange input = Returned serials ->
  (1 <= List.length serials <= 100)%nat /\ NoDup serials.
Proof. apply parseSerialRange_returns_bounds_helper. Qed.

Lemma parseSerialRange_returns_1_to_100_distinct_witness :
  (1 <= List.length ["SN08"; "SN09"; "SN10"] <= 100)%nat
  /\ NoDup ["SN08"; "SN09"; "SN10"].
Proof.
  apply (parseSerialRange_returns_1_to_100_distinct "SN08~SN10").
  reflexivity.
Defined.

(** X2.  Without a tilde in the input nothing is expanded and nothing
    is thrown: [parseSerialRange] returns the trimmed input alone. *)
Theorem parseSerialRange_without_tilde (input : string) :
  JS.includes "~" input = false ->
  parseSerialRange input = Returned [JS.trim input].
Proof.
  intro Hno. unfold parseSerialRange.
  destruct (rangeRegex input) as [m|] eqn:Hm; [|reflexivity].
  apply rangeRegex_inv in Hm as (_ & _ & _ & ws & rest & Hin).
  rewrite Hin in Hno.
  rewrite !includes_append in Hno. cbn in Hno.
  rewrite !orb_true_r in Hno. discriminate.
Qed.

Lemma parseSerialRange_without_tilde_witness :
  parseSerialRange "  sn00017 " = Returned ["sn00017"].
Proof.
  apply (parseSerialRange_without_tilde "  sn00017 "). reflexivity.
Defined.

Lemma parsedSerials_In (used : list string) (s g1 g2 : string) :
  In s used -> serialRegex s = Some (g1, g2) ->
  In (g1, JS.digitsVal 0 g2) (parsedSerials used).
Proof.
  intros Hin Hs. unfold parsedSerials. apply in_flat_map.
  exists s. split; [exact Hin|]. rewrite Hs. now left.
Qed.

Lemma maxSuffix_upper_bound (used : list string) (g : string) (n : Z) :
  In (g, n) (parsedSerials used) -> n <= maxSuffix used.
Proof.
  unfold maxSuffix. intro H.
  apply (in_map snd) in H. cbn [snd] in H.
  induction (map snd (parsedSerials used)) as [|x l IH]; [destruct H|].
  cbn [fold_right]. destruct H as [->|H]; [lia|].
  specialize (IH H). lia.
Qed.

Lemma suggestion_not_among_used (usedSerials : list string) :
  suffixesSafe usedSerials ->
  ~ In (suggestNextSerial usedSerials) usedSerials.
Proof.
  intros Hsafe Hin.
  assert (Hmax := maxSuffix_nonneg usedSerials).
  assert (Hlt : maxSuffix usedSerials < JS.two53) by exact Hsafe.
  destruct (fiveDigits_spec (maxSuffix usedSerials + 1)) as (Hd & Hv & _); [lia|].
  assert (Hre : serialRegex (suggestNextSerial usedSerials)
                = Some (lastPrefix usedSerials,
                        fiveDigits (maxSuffix usedSerials + 1))).
  { rewrite suggestNextSerial_safe by exact Hsafe.
    apply serialRegex_build; [apply lastPrefix_letters | exact Hd]. }
  assert (Hp := parsedSerials_In _ _ _ _ Hin Hre).
  rewrite Hv in Hp. apply maxSuffix_upper_bound in Hp. lia.
Qed.

(** X3.  While the numeric suffixes of the used serials are all below
    2^53, the serial [suggestNextSerial] proposes is not one of the
    used serials it was given. *)
Theorem suggestNextSerial_is_unused (usedSerials : list string)
    (Hsafe : suffixesSafe usedSerials) :
  ~ In (suggestNextSerial usedSerials) usedSerials.
Proof. now apply suggestion_not_among_used. Qed.

Lemma suggestNextSerial_is_unused_witness :
  ~ In "AB00042" ["sn00041"; "AB7"; "AB00041"].
Proof.
  apply (suggestNextSerial_is_unused ["sn00041"; "AB7"; "AB00041"]).
  unfold suffixesSafe. vm_compute. reflexivity.
Defined.

(** From 2^53 on it may be one of them: the number after
    [9007199254740992] is rounded back to it. *)
Lemma suggestNextSerial_used_beyond_2_53 :
  In (suggestNextSerial ["SN9007199254740992"]) ["SN9007199254740992"].
Proof. left. reflexivity. Qed.

(** ** Upper case and white space *)

Lemma upper_idem (c : ascii) : JS.upper (JS.upper c) = JS.upper c.
Proof. destruct c as [[|] [|] [|] [|] [|] [|] [|] [|]]; reflexivity. Qed.

Lemma upper_space (c : ascii) : JS.is_space (JS.upper c) = JS.is_space c.
Proof. destruct c as [[|] [|] [|] [|] [|] [|] [|] [|]]; reflexivity. Qed.

Lemma upper_digit (c : ascii) : JS.is_digit c = true -> JS.upper c = c.
Proof.
  destruct c as [[|] [|] [|] [|] [|] [|] [|] [|]]; intro H;
    try reflexivity; vm_compute in H; discriminate.
Qed.

Lemma alpha_not_space_tilde (c : ascii) :
  JS.is_alpha c = true -> JS.is_space c = false /\ Ascii.eqb "~" c = false.
Proof.
  destruct c as [[|] [|] [|] [|] [|] [|] [|] [|]]; intro H;
    try (split; reflexivity); vm_compute in H; discriminate.
Qed.

Lemma digit_not_tilde (c : ascii) : JS.is_digit c = true -> Ascii.eqb "~" c = false.
Proof.
  destruct c as [[|] [|] [|] [|] [|] [|] [|] [|]]; intro H;
    try reflexivity; vm_compute in H; discriminate.
Qed.

Lemma toUpperCase_idem (s : string) :
  JS.toUpperCase (JS.toUpperCase s) = JS.toUpperCase s.
Proof. induction s as [|c s IH]; cbn; [reflexivity|]. now rewrite upper_idem, IH. Qed.

Lemma toUpperCase_append (a b : string) :
  JS.toUpperCase (a ++ b) = JS.toUpperCase a ++ JS.toUpperCase b.
Proof. induction a as [|c a IH]; cbn; [reflexivity|]. now rewrite IH. Qed.

Lemma toUpperCase_length (s : string) :
  String.length (JS.toUpperCase s) = String.length s.
Proof. induction s as [|c s IH]; cbn; auto. Qed.

Lemma toUpperCase_digits (s : string) :
  allChars JS.is_digit s = true -> JS.toUpperCase s = s.
Proof.
  induction s as [|c s IH]; cbn; [reflexivity|].
  intro H. apply andb_true_iff in H as [Hc Hs].
  now rewrite (upper_digit c Hc), IH.
Qed.

Lemma append_inv_same_length (a a' b b' : string) :
  String.length a = String.length a' -> a ++ b = a' ++ b' -> a = a' /\ b = b'.
Proof.
  revert a'. induction a as [|c a IH]; intros [|c' a'] Hlen H;
    cbn in Hlen; try discriminate.
  - auto.
  - cbn in H. injection H as -> H. injection Hlen as Hlen.
    destruct (IH a' Hlen H) as [-> ->]. auto.
Qed.

(** The head of a text in upper case is in upper case. *)
Lemma toUpperCase_head (a b : string) :
  JS.toUpperCase (a ++ b) = a ++ b -> JS.toUpperCase a = a.
Proof.
  rewrite toUpperCase_append. intro H.
  apply append_inv_same_length in H as [H _]; [exact H|].
  apply toUpperCase_length.
Qed.

Lemma trimStart_toUpperCase (s : string) :
  JS.trimStart (JS.toUpperCase s) = JS.toUpperCase (JS.trimStart s).
Proof.
  induction s as [|c s IH]; cbn; [reflexivity|].
  rewrite upper_space. now destruct (JS.is_space c).
Qed.

Lemma trimEnd_toUpperCase (s : string) :
  JS.trimEnd (JS.toUpperCase s) = JS.toUpperCase (JS.trimEnd s).
Proof.
  induction s as [|c s IH]; cbn; [reflexivity|].
  rewrite IH, upper_space.
  destruct (JS.trimEnd s); cbn; [now destruct (JS.is_space c) | reflexivity].
Qed.

(** [trim] and [toUpperCase] commute. *)
Lemma trim_toUpperCase (s : string) :
  JS.trim (JS.toUpperCase s) = JS.toUpperCase (JS.trim s).
Proof.
  unfold JS.trim. now rewrite trimStart_toUpperCase, trimEnd_toUpperCase.
Qed.

Lemma includes_false_allChars (c : ascii) (s : string) :
  allChars (fun d => negb (Ascii.eqb c d)) s = true -> JS.includes c s = false.
Proof.
  induction s as [|d s IH]; cbn; [reflexivity|].
  intro H. apply andb_true_iff in H as [Hd Hs].
  apply negb_true_iff in Hd. now rewrite Hd, IH.
Qed.

(** The registry is in upper case. *)
Lemma registry_upper (items : list Item.t) (s : string) :
  In s (App.allUsedSerials items) -> JS.toUpperCase s = s.
Proof.
  intro H. apply registry_members in H as (_ & _ & sn & _ & _ & _ & _ & ->).
  apply toUpperCase_idem.
Qed.

Lemma lastPrefix_upper (used : list string) :
  (forall s, In s used -> JS.toUpperCase s = s) ->
  JS.toUpperCase (lastPrefix used) = lastPrefix used.
Proof.
  intro Hup. unfold lastPrefix.
  apply (last_Forall (fun g => JS.toUpperCase g = g)); [|reflexivity].
  apply Forall_forall. intros g Hg.
  apply in_map_iff in Hg as ([g1 n] & <- & Hin). cbn [fst].
  unfold parsedSerials in Hin. apply in_flat_map in Hin as (s & Hs & Hin).
  destruct (serialRegex s) as [[h1 h2]|] eqn:Hre; [|destruct Hin].
  destruct Hin as [Heq|[]]. injection Heq as -> _.
  apply serialRegex_inv in Hre as (_ & _ & Hsplit).
  specialize (Hup s Hs). rewrite Hsplit in Hup.
  now apply toUpperCase_head in Hup.
Qed.

(** While the suffixes are below 2^53, a suggestion is letters followed
    by digits: no white space, no tilde, and in upper case when the used
    serials are. *)
Lemma suggestNextSerial_plain (used : list string) :
  suffixesSafe used ->
  (forall s, In s used -> JS.toUpperCase s = s) ->
  let sug := suggestNextSerial used in
  JS.toUpperCase sug = sug /\ JS.trim sug = sug
  /\ JS.includes "~" sug = false /\ sug <> "".
Proof.
  intros Hsafe Hup sug. subst sug. rewrite suggestNextSerial_safe by exact Hsafe.
  destruct (lastPrefix_letters used) as [Hne Hal].
  destruct (fiveDigits_spec (maxSuffix used + 1)) as ([_ Hd] & _ & _);
    [assert (H := maxSuffix_nonneg used); unfold suffixesSafe in Hsafe; lia|].
  repeat split.
  - rewrite toUpperCase_append, (lastPrefix_upper used Hup).
    now rewrite toUpperCase_digits.
  - apply trim_no_space. rewrite allChars_append. apply andb_true_iff. split.
    + eapply allChars_impl; [|exact Hal]. intros c Hc.
      now rewrite (proj1 (alpha_not_space_tilde c Hc)).
    + eapply allChars_impl; [|exact Hd]. intros c Hc.
      now rewrite (digit_not_space c Hc).
  - apply includes_false_allChars. rewrite allChars_append.
    apply andb_true_iff. split.
    + eapply allChars_impl; [|exact Hal]. intros c Hc.
      now rewrite (proj2 (alpha_not_space_tilde c Hc)).
    + eapply allChars_impl; [|exact Hd]. intros c Hc.
      now rewrite (digit_not_tilde c Hc).
  - destruct (lastPrefix used); [congruence | discriminate].
Qed.

(** X4.  When the dialog opens on a product with an empty serial field
    and the numeric suffixes of the registered serials are all below
    2^53, the field is filled with a suggestion that neither
    duplicate check objects to: the field is not flagged, and on
    submission the serial is taken as it stands and collides with
    nothing in the registry. *)
Theorem suggestion_passes_duplicate_checks
    (item : Item.t) (items : list Item.t) (st : Modal.State)
    (Hprod : Item.type item = product)
    (Hempty : Modal.serialNumber st = "")
    (Hsafe : suffixesSafe (App.allUsedSerials items)) :
  let registry := App.allUsedSerials items in
  let st' := Modal.suggestOnOpen item registry st in
  Modal.serialNumber st' = suggestNextSerial registry
  /\ Modal.isSerialDuplicate registry st' = false
  /\ Modal.expandInput item st' = Returned ([suggestNextSerial registry], false)
  /\ Modal.duplicatesIn registry [suggestNextSerial registry] = [].
Proof.
  intros registry st'.
  assert (Hst : Modal.serialNumber st' = suggestNextSerial registry).
  { subst st'. unfold Modal.suggestOnOpen. now rewrite Hprod, Hempty. }
  destruct (suggestNextSerial_plain registry Hsafe (registry_upper items))
    as (Hup & Htrim & Htilde & Hne).
  assert (Hfresh := suggestion_not_among_used registry Hsafe).
  assert (Hinc : includesString registry (suggestNextSerial registry) = false).
  { destruct (includesString registry (suggestNextSerial registry)) eqn:E;
      [|reflexivity].
    apply includesString_In in E. contradiction. }
  split; [exact Hst|]. split; [|split].
  - unfold Modal.isSerialDuplicate. rewrite Hst, Htrim, Htilde, Hup, Hinc.
    apply truthy_nonempty in Hne. now rewrite Hne.
  - unfold Modal.expandInput. rewrite Hst, Htilde, Hup, Htrim.
    now rewrite andb_false_r.
  - unfold Modal.duplicatesIn. cbn [filter]. rewrite Hinc.
    now rewrite andb_false_r.
Qed.

Lemma suggestion_passes_duplicate_checks_witness :
  let item := sampleItem "p1" product "PR1"
                [sampleTx "t1" purchase 1 (Some "sn00041"); sampleTx "t2" purchase 1 (Some "AB7")] in
  let st' := Modal.suggestOnOpen item (App.allUsedSerials [item]) sampleModal in
  Modal.serialNumber st' = "AB00042"
  /\ Modal.isSerialDuplicate (App.allUsedSerials [item]) st' = false
  /\ Modal.expandInput item st' = Returned (["AB00042"], false)
  /\ Modal.duplicatesIn (App.allUsedSerials [item]) ["AB00042"] = [].
Proof.
  cbv zeta.
  apply (suggestion_passes_duplicate_checks
           (sampleItem "p1" product "PR1"
              [sampleTx "t1" purchase 1 (Some "sn00041");
               sampleTx "t2" purchase 1 (Some "AB7")])
           [sampleItem "p1" product "PR1"
              [sampleTx "t1" purchase 1 (Some "sn00041");
               sampleTx "t2" purchase 1 (Some "AB7")]]
           sampleModal); vm_compute; reflexivity.
Defined.

(** From 2^53 on the suggestion may be a registered serial: with
    [SN9007199254740992] registered the field is filled with that same
    serial, which is flagged at once and rejected on submission. *)
Lemma suggestion_flagged_beyond_2_53 :
  let item := sampleItem "p1" product "PR1"
                [sampleTx "t1" purchase 1 (Some "SN9007199254740992")] in
  let registry := App.allUsedSerials [item] in
  let st' := Modal.suggestOnOpen item registry (sampleForm purchase "1" "") in
  Modal.serialNumber st' = "SN9007199254740992"
  /\ Modal.isSerialDuplicate registry st' = true
  /\ Mounted.submitTransaction sampleFresh sampleNow "p1" [item] st'
     = Some ([SerialsExist ["SN9007199254740992"]], [item], st').
Proof. cbv zeta. repeat split; reflexivity. Qed.

(** ** The handlers of the collection *)

Lemma withTransactions_twice (item : Item.t) (ts ts' : list Transaction.t) :
  Item.withTransactions (Item.withTransactions item ts) ts'
    = Item.withTransactions item ts'.
Proof. reflexivity. Qed.

Lemma filter_all {A} (f : A -> bool) (l : list A) :
  (forall x, In x l -> f x = true) -> filter f l = l.
Proof.
  induction l as [|x l IH]; intro H; cbn; [reflexivity|].
  rewrite (H x (or_introl eq_refl)), IH; auto.
  intros y Hy. apply H. now right.
Qed.

Lemma map_same {A} (f : A -> A) (l : list A) :
  (forall x, In x l -> f x = x) -> map f l = l.
Proof.
  intro H. rewrite <- (map_id l) at 2. now apply map_ext_in.
Qed.

(** X5.  Deleting a transaction that was just added, by the id it was
    given, gives back the collection as it was -- provided no
    transaction of the item already had that id. *)
Theorem delete_undoes_add
    (newId itemId : string) (transaction : Transaction.t) (items : list Item.t)
    (Hfresh : forall item t,
        In item items -> Item.id item = itemId ->
        In t (Item.transactions item) -> Transaction.id t <> newId) :
  App.handleDeleteTransaction itemId newId
    (App.handleAddTransaction newId itemId transaction items) = items.
Proof.
  unfold App.handleDeleteTransaction, App.handleAddTransaction.
  rewrite map_map. apply map_same. intros item Hitem.
  destruct (Item.id item =? itemId)%string eqn:Hid; [|now rewrite Hid].
  change (Item.id (Item.withTransactions item
            (Item.transactions item ++ [Transaction.withId transaction newId])))
    with (Item.id item).
  rewrite Hid, withTransactions_twice.
  change (Item.transactions (Item.withTransactions item
            (Item.transactions item ++ [Transaction.withId transaction newId])))
    with (Item.transactions item ++ [Transaction.withId transaction newId])%list.
  rewrite filter_app. cbn [filter]. unfold Transaction.withId at 1.
  cbn [Transaction.id]. rewrite String.eqb_refl. cbn [negb]. rewrite app_nil_r.
  rewrite filter_all.
  - apply withTransactions_same.
  - intros t Ht. apply negb_true_iff, String.eqb_neq.
    apply String.eqb_eq in Hid. eauto.
Qed.

Lemma delete_undoes_add_witness :
  let items := [sampleItem "i1" part "CT1" [sampleTx "t1" purchase 10 None]] in
  App.handleDeleteTransaction "i1" "t2"
    (App.handleAddTransaction "t2" "i1" (sampleTx "" release 3 None) items) = items.
Proof.
  cbv zeta. apply delete_undoes_add.
  intros item t [<-|[]] _ [<-|[]]. discriminate.
Defined.

Lemma merge_spread (t : Transaction.t) : Transaction.merge t (Transaction.spread t) = t.
Proof. destruct t as [i ty q d [r|] [m|] [u|] [s|] [c|] [a|] [p|]]; reflexivity. Qed.

Lemma NoDup_map_inj_on {A B} (f : A -> B) (l : list A) (x y : A) :
  NoDup (map f l) -> In x l -> In y l -> f x = f y -> x = y.
Proof.
  induction l as [|a l IH]; intros Hnd Hx Hy Hf; [destruct Hx|].
  cbn in Hnd. inversion Hnd as [|? ? Hnot Hnd']; subst.
  destruct Hx as [->|Hx], Hy as [->|Hy]; auto.
  - exfalso. apply Hnot. rewrite Hf. now apply in_map.
  - exfalso. apply Hnot. rewrite <- Hf. now apply in_map.
Qed.

Lemma selectedItem_In (sel : string) (items : list Item.t) (item : Item.t) :
  Mounted.selectedItem sel items = Some item ->
  In item items /\ Item.id item = sel.
Proof.
  unfold Mounted.selectedItem. intro H. apply find_some in H as [Hin Hid].
  split; [exact Hin | now apply String.eqb_eq].
Qed.

(** X6.  Opening a transaction for edit and saving it untouched, with
    the right secret, leaves the collection as it was -- provided item
    ids are unique in the collection and transaction ids are unique in
    the item. *)
Theorem saving_untouched_edit_changes_nothing
    (role : Role) (sel : string) (item : Item.t) (items : list Item.t)
    (t : Transaction.t) (st : Modal.State)
    (Hsel : Mounted.selectedItem sel items = Some item)
    (Ht : In t (Item.transactions item))
    (Htid : Transaction.id t <> "")
    (Hids : idsUnique items)
    (Htx : txIdsUnique item) :
  fst (Mounted.confirmAction role sel items
         (Modal.typePassword (secretOf role)
            (Modal.handleSaveTransEdit (Transaction.id t)
               (Modal.handleEditTransaction t st))))
    = ([], items).
Proof.
  unfold Mounted.confirmAction. rewrite Hsel.
  rewrite (transaction_edit_is_unchecked role item items _ (Transaction.id t));
    [|reflexivity | reflexivity | exact Htid].
  f_equal. cbn [Modal.transEditData Modal.typePassword Modal.handleSaveTransEdit
                Modal.handleEditTransaction Modal.setDialog Modal.setTransEditData].
  destruct (selectedItem_In _ _ _ Hsel) as [Hin _].
  unfold App.handleUpdateTransaction. apply map_same. intros item' Hin'.
  destruct (Item.id item' =? Item.id item)%string eqn:Hid; [|reflexivity].
  apply String.eqb_eq in Hid.
  assert (item' = item) by (eapply NoDup_map_inj_on; eauto). subst item'.
  rewrite <- (withTransactions_same item) at 3. f_equal.
  apply map_same. intros t' Ht'.
  destruct (Transaction.id t' =? Transaction.id t)%string eqn:Htid'; [|reflexivity].
  apply String.eqb_eq in Htid'.
  assert (t' = t) by (eapply NoDup_map_inj_on; eauto). subst t'.
  apply merge_spread.
Qed.

Lemma saving_untouched_edit_changes_nothing_witness :
  let t := sampleTx "t2" release 3 (Some "SN00002") in
  let items := [sampleItem "p1" product "PR1" [sampleTx "t1" purchase 10 None; t]] in
  fst (Mounted.confirmAction product_only "p1" items
         (Modal.typePassword "1111"
            (Modal.handleSaveTransEdit "t2"
               (Modal.handleEditTransaction t sampleModal))))
    = ([], items).
Proof.
  cbv zeta.
  apply (saving_untouched_edit_changes_nothing product_only "p1"
           (sampleItem "p1" product "PR1"
              [sampleTx "t1" purchase 10 None; sampleTx "t2" release 3 (Some "SN00002")])
           _ (sampleTx "t2" release 3 (Some "SN00002")) sampleModal).
  - reflexivity.
  - cbn. tauto.
  - discriminate.
  - unfold idsUnique. cbn. repeat constructor. intros [].
  - unfold txIdsUnique. cbn. repeat constructor; cbn; intuition discriminate.
Defined.

(** X7.  Committing an item edit, with the right secret, replaces
    fields of the item only: every item keeps its id, its type and its
    transactions, so no stock and no entry of the serial registry
    changes. *)
Theorem item_edit_leaves_ledger
    (role : Role) (item : Item.t) (items : list Item.t) (st : Modal.State)
    (target : option string)
    (Hpw : Modal.password st = secretOf role)
    (Hact : Modal.showPasswordInput st = Some (Modal.mkAction Modal.act_item target)) :
  let items' := snd (fst (Modal.handleActionConfirm role item items st)) in
  items' = App.handleUpdateItem (Item.id item) (Modal.editFormData st) items
  /\ map Item.id items' = map Item.id items
  /\ map Item.type items' = map Item.type items
  /\ map Item.transactions items' = map Item.transactions items
  /\ map calculateStock items' = map calculateStock items
  /\ App.allUsedSerials items' = App.allUsedSerials items.
Proof.
  intro items'.
  assert (Heq : items'
      = App.handleUpdateItem (Item.id item) (Modal.editFormData st) items).
  { subst items'. unfold Modal.handleActionConfirm. rewrite Hact.
    destruct role; cbn [secretOf] in Hpw; rewrite Hpw; reflexivity. }
  split; [exact Heq|]. rewrite Heq. unfold App.handleUpdateItem.
  assert (Hts : map Item.transactions
                  (map (fun i => if (Item.id i =? Item.id item)%string
                                 then Item.merge i (Modal.editFormData st) else i) items)
                = map Item.transactions items).
  { rewrite map_map. apply map_ext. intro i.
    now destruct (Item.id i =? Item.id item)%string. }
  repeat split.
  - rewrite map_map. apply map_ext. intro i.
    now destruct (Item.id i =? Item.id item)%string.
  - rewrite map_map. apply map_ext. intro i.
    now destruct (Item.id i =? Item.id item)%string.
  - exact Hts.
  - rewrite map_map. apply map_ext. intro i.
    now destruct (Item.id i =? Item.id item)%string.
  - unfold App.allUsedSerials. f_equal.
    rewrite !flat_map_concat_map. f_equal.
    unfold App.serialsOf.
    rewrite <- (map_map Item.transactions
                  (fun ts => flat_map _ ts)), Hts, map_map. reflexivity.
Qed.

Lemma item_edit_leaves_ledger_witness :
  let item := sampleItem "p1" product "PR1" [sampleTx "t1" purchase 10 (Some "SN00001")] in
  let st := Modal.typePassword "0000"
              (snd (Modal.handleToggleEdit item ["PR1"]
                      (snd (Modal.handleToggleEdit item ["PR1"] sampleModal)))) in
  let items' := snd (fst (Modal.handleActionConfirm admin item [item] st)) in
  items' = App.handleUpdateItem "p1" sampleEdit [item]
  /\ map Item.id items' = ["p1"]
  /\ map Item.type items' = [product]
  /\ map Item.transactions items' = [[sampleTx "t1" purchase 10 (Some "SN00001")]]
  /\ map calculateStock items' = [10]
  /\ App.allUsedSerials items' = ["SN00001"].
Proof.
  cbv zeta.
  apply (item_edit_leaves_ledger admin
           (sampleItem "p1" product "PR1" [sampleTx "t1" purchase 10 (Some "SN00001")])
           [sampleItem "p1" product "PR1" [sampleTx "t1" purchase 10 (Some "SN00001")]]
           (Modal.typePassword "0000"
              (snd (Modal.handleToggleEdit
                      (sampleItem "p1" product "PR1"
                         [sampleTx "t1" purchase 10 (Some "SN00001")]) ["PR1"]
                      (snd (Modal.handleToggleEdit
                              (sampleItem "p1" product "PR1"
                                 [sampleTx "t1" purchase 10 (Some "SN00001")]) ["PR1"]
                              sampleModal)))))
           None); reflexivity.
Defined.

(** ** Creating an item *)

(** What [handleSubmit] of the item form does, by cases. *)
Lemma handleSubmit_cases (itemId tId now : string) (itemType : ItemType)
    (form : AddItemModal.FormData) (items : list Item.t) :
  let r := AddItemModal.handleSubmit itemId tId now itemType form items in
  let q := JS.orZero (JS.parseInt (AddItemModal.initialQuantity form)) in
  ((AddItemModal.code form = "" \/ AddItemModal.name form = "")
     /\ r = ([NameAndCodeRequired], items))
  \/ (AddItemModal.isCodeDuplicate form (map Item.code items) = true
     /\ r = ([CodeExists], items))
  \/ (AddItemModal.code form <> "" /\ AddItemModal.name form <> ""
     /\ AddItemModal.isCodeDuplicate form (map Item.code items) = false
     /\ exists newItem,
          r = ([], newItem :: items)
          /\ Item.id newItem = itemId
          /\ Item.type newItem = itemType
          /\ Item.code newItem = AddItemModal.code form
          /\ Item.name newItem = AddItemModal.name form
          /\ Item.transactions newItem
             = if 0 <? q
               then [Transaction.mk tId purchase q now (Some App.INITIAL_REMARK)
                       None None None None None None]
               else []).
Proof.
  intros r q. subst r. unfold AddItemModal.handleSubmit.
  destruct (AddItemModal.code form) as [|c cs] eqn:Hc; cbn [JS.truthy negb orb].
  { left. auto. }
  destruct (AddItemModal.name form) as [|n ns] eqn:Hn; cbn [JS.truthy negb orb].
  { left. auto. }
  right.
  destruct (AddItemModal.isCodeDuplicate form (map Item.code items)) eqn:Hdup.
  { left. auto. }
  right. repeat split; try discriminate.
  eexists. split; [reflexivity|].
  cbn. fold q. repeat split; auto.
Qed.

(** X8.  The item form adds one item or nothing.  It refuses an empty
    name or code and a code that, trimmed and in upper case, is the
    upper case of an existing code; otherwise it puts exactly one item
    in front of the collection, with the given id, the code and name
    as entered, and a stock equal to the initial quantity when that is
    positive and to 0 otherwise. *)
Theorem item_form_adds_one_item_or_nothing
    (itemId tId now : string) (itemType : ItemType)
    (form : AddItemModal.FormData) (items : list Item.t) :
  let r := AddItemModal.handleSubmit itemId tId now itemType form items in
  let q := JS.orZero (JS.parseInt (AddItemModal.initialQuantity form)) in
  (snd r = items
     /\ (fst r = [NameAndCodeRequired] \/ fst r = [CodeExists])
     /\ (AddItemModal.code form = "" \/ AddItemModal.name form = ""
         \/ exists i, In i items
              /\ JS.toUpperCase (Item.code i)
                 = JS.toUpperCase (JS.trim (AddItemModal.code form))))
  \/ (fst r = []
     /\ exists newItem,
          snd r = newItem :: items
          /\ Item.id newItem = itemId
          /\ Item.code newItem = AddItemModal.code form
          /\ Item.name newItem = AddItemModal.name form
          /\ calculateStock newItem = Z.max 0 q).
Proof.
  intros r q.
  destruct (handleSubmit_cases itemId tId now itemType form items)
    as [(He & Hr)|[(Hdup & Hr)|(_ & _ & _ & newItem & Hr & Hid & _ & Hc & Hn & Hts)]];
    fold r in Hr; rewrite Hr; cbn [fst snd].
  - left. split; [reflexivity|]. split; [now left|]. tauto.
  - left. split; [reflexivity|]. split; [now right|]. right. right.
    unfold AddItemModal.isCodeDuplicate in Hdup.
    destruct (negb (JS.truthy (JS.trim (AddItemModal.code form)))); [discriminate|].
    apply existsb_exists in Hdup as (c & Hin & Heq).
    apply in_map_iff in Hin as (i & <- & Hin).
    apply String.eqb_eq in Heq. eauto.
  - right. split; [reflexivity|]. exists newItem. repeat split; auto.
    unfold calculateStock. rewrite Hts. fold q.
    assert (Hq : JS.round q = q) by apply orZero_isDouble.
    destruct (Z.ltb_spec 0 q);
      cbn [fold_left stockStep Transaction.type Transaction.quantity]; [|lia].
    unfold JS.add. rewrite Z.add_0_l, Hq. lia.
Qed.

Lemma existsb_false_forall {A} (f : A -> bool) (l : list A) :
  existsb f l = false -> forall x, In x l -> f x = false.
Proof.
  intros H x Hx. destruct (f x) eqn:E; [|reflexivity].
  assert (existsb f l = true) by (apply existsb_exists; eauto). congruence.
Qed.

(** X9.  When the code entered has no white space around it, the item
    form keeps the codes of the collection unique, upper case and lower
    case taken as equal. *)
Theorem item_form_keeps_codes_unique
    (itemId tId now : string) (itemType : ItemType)
    (form : AddItemModal.FormData) (items : list Item.t)
    (Htrim : JS.trim (AddItemModal.code form) = AddItemModal.code form)
    (Huniq : codesUnique items) :
  codesUnique (snd (AddItemModal.handleSubmit itemId tId now itemType form items)).
Proof.
  destruct (handleSubmit_cases itemId tId now itemType form items)
    as [(_ & Hr)|[(_ & Hr)|(Hne & _ & Hdup & newItem & Hr & _ & _ & Hc & _)]];
    rewrite Hr; cbn [snd]; try exact Huniq.
  unfold codesUnique. cbn [map]. constructor; [|exact Huniq].
  rewrite Hc. intro Hin.
  apply in_map_iff in Hin as (i & Heq & Hin).
  unfold AddItemModal.isCodeDuplicate in Hdup. rewrite Htrim in Hdup.
  apply truthy_nonempty in Hne. rewrite Hne in Hdup. cbn [negb] in Hdup.
  assert (Hf := existsb_false_forall _ _ Hdup (Item.code i) (in_map _ _ _ Hin)).
  cbv beta in Hf. apply String.eqb_neq in Hf. contradiction.
Qed.

Lemma item_form_keeps_codes_unique_witness :
  let items := [sampleItem "i1" part "CT1" []] in
  codesUnique (snd (AddItemModal.handleSubmit "i2" "t9" sampleNow part
                      (sampleItemForm "ct1" "BOLT" "4") items))
  /\ codesUnique (snd (AddItemModal.handleSubmit "i2" "t9" sampleNow part
                         (sampleItemForm "CT2" "BOLT" "4") items)).
Proof.
  cbv zeta. split; apply item_form_keeps_codes_unique;
    try reflexivity; unfold codesUnique; cbn; repeat constructor; intros [].
Defined.

(** A code with white space around it escapes the comparison: the
    trimmed text is looked up, the untrimmed one is stored. *)
Lemma item_form_blank_code_twice :
  let once := snd (AddItemModal.handleSubmit "i1" "t1" sampleNow part
                     (sampleItemForm "CT1 " "BOLT" "0") []) in
  let twice := snd (AddItemModal.handleSubmit "i2" "t2" sampleNow part
                      (sampleItemForm "CT1 " "NUT" "0") once) in
  map Item.code twice = ["CT1 "; "CT1 "].
Proof. reflexivity. Qed.

(** ** Invariants kept by registering *)

(** X10.  Neither the item form nor the transaction form of the dialog
    ever stores a quantity that is not positive: a collection whose
    quantities are all positive stays so. *)
Theorem creation_keeps_quantities_positive
    (fresh : nat -> string) (itemId tId now sel : string) (itemType : ItemType)
    (form : AddItemModal.FormData) (items : list Item.t) (st : Modal.State)
    (Hpos : quantitiesPositive items = true) :
  quantitiesPositive
    (snd (AddItemModal.handleSubmit itemId tId now itemType form items)) = true
  /\ forall r,
       Mounted.submitTransaction fresh now sel items st = Some r ->
       quantitiesPositive (snd (fst r)) = true.
Proof.
  split.
  - unfold AddItemModal.handleSubmit.
    destruct (_ || _); [exact Hpos|].
    destruct (AddItemModal.isCodeDuplicate _ _); [exact Hpos|].
    cbn [snd]. now apply handleAddItem_keeps_quantities_positive.
  - intros r Hr. unfold Mounted.submitTransaction in Hr.
    destruct (Mounted.selectedItem sel items);
      [|injection Hr as <-; exact Hpos].
    eapply handleAddTransaction_keeps_quantities_positive; eassumption.
Qed.

Lemma creation_keeps_quantities_positive_witness :
  let items := [sampleItem "i1" part "CT1" [sampleTx "t1" purchase 10 None]] in
  quantitiesPositive
    (snd (AddItemModal.handleSubmit "i2" "t9" sampleNow part
            (sampleItemForm "CT2" "BOLT" "-3") items)) = true
  /\ exists r,
       Mounted.submitTransaction sampleFresh sampleNow "i1" items
         (sampleForm release "4" "") = Some r
       /\ quantitiesPositive (snd (fst r)) = true.
Proof.
  cbv zeta.
  destruct (creation_keeps_quantities_positive sampleFresh "i2" "t9" sampleNow "i1"
              part (sampleItemForm "CT2" "BOLT" "-3")
              [sampleItem "i1" part "CT1" [sampleTx "t1" purchase 10 None]]
              (sampleForm release "4" "") eq_refl) as [Hform Hdialog].
  split; [exact Hform|].
  eexists. split; [vm_compute; reflexivity|].
  apply Hdialog. vm_compute. reflexivity.
Defined.

(** With unique ids, appending to the selected item changes that item
    and no other. *)
Lemma appendTransactions_selected (sel : string) (item : Item.t)
    (items : list Item.t) (newTxs : list Transaction.t) (i' : Item.t) :
  Mounted.selectedItem sel items = Some item -> idsUnique items ->
  In i' (appendTransactions (Item.id item) newTxs items) ->
  (In i' items /\ Item.id i' <> Item.id item)
  \/ i' = Item.withTransactions item (Item.transactions item ++ newTxs).
Proof.
  intros Hsel Hids Hin. destruct (selectedItem_In _ _ _ Hsel) as [Hitem _].
  unfold appendTransactions in Hin. apply in_map_iff in Hin as (i & <- & Hi).
  destruct (Item.id i =? Item.id item)%string eqn:Hid.
  - right. apply String.eqb_eq in Hid.
    assert (i = item) by (eapply NoDup_map_inj_on; eauto). now subst i.
  - left. split; [exact Hi | now apply String.eqb_neq].
Qed.

(** The stock after transactions were appended: the fold goes on from
    the stock before. *)
Lemma calculateStock_append (item : Item.t) (newTxs : list Transaction.t) :
  calculateStock (Item.withTransactions item (Item.transactions item ++ newTxs))
  = fold_left stockStep newTxs (calculateStock item).
Proof.
  unfold calculateStock. cbn [Item.withTransactions Item.transactions].
  apply fold_left_app.
Qed.

(** Receipts of positive quantities keep a stock at or above zero,
    rounded or not. *)
Lemma receipts_keep_non_negative (ts : list Transaction.t) (acc : Z) :
  Forall (fun t => Transaction.type t = purchase /\ 0 <= Transaction.quantity t) ts ->
  0 <= acc -> 0 <= fold_left stockStep ts acc.
Proof.
  intro H. revert acc. induction H as [|t ts [Hty Hq] _ IH]; intros acc Hacc; [exact Hacc|].
  cbn [fold_left]. apply IH. unfold stockStep. rewrite Hty.
  apply round_nonneg. lia.
Qed.

(** So do releases of one unit each, when there are no more of them
    than units in stock. *)
Lemma unit_releases_keep_non_negative (ts : list Transaction.t) (acc : Z) :
  Forall (fun t => Transaction.type t = release /\ Transaction.quantity t = 1) ts ->
  Z.of_nat (List.length ts) <= JS.two53 ->
  Z.of_nat (List.length ts) <= acc ->
  Z.of_nat 0 <= fold_left stockStep ts acc.
Proof.
  intro H. revert acc.
  induction H as [|t ts [Hty Hq] _ IH]; intros acc Hmax Hacc; [exact Hacc|].
  cbn [fold_left]. cbn [List.length] in Hmax, Hacc. apply IH; [lia|].
  unfold stockStep. rewrite Hty, Hq.
  assert (Hm := round_mono (Z.of_nat (List.length ts)) (acc - 1) ltac:(lia)).
  rewrite round_safe in Hm by lia. exact Hm.
Qed.

(** A range that expands holds 100 serials at most. *)
Lemma expandInput_range_length (item : Item.t) (st : Modal.State)
    (targetSerials : list string) :
  Modal.expandInput item st = Returned (targetSerials, true) ->
  (List.length targetSerials <= 100)%nat.
Proof.
  unfold Modal.expandInput.
  destruct (_ && _); [|discriminate].
  destruct (parseSerialRange _) as [l| |] eqn:Hp; try discriminate.
  intro H. injection H as <-.
  apply parseSerialRange_returns_bounds_helper in Hp. lia.
Qed.

(** X11.  When item ids are unique, a submission of the transaction
    form never drives a stock below zero: a collection without negative
    stock stays so. *)
Theorem submission_keeps_stock_non_negative
    (fresh : nat -> string) (now sel : string) (items : list Item.t)
    (st : Modal.State)
    (Hids : idsUnique items)
    (Hstock : stocksNonNegative items) :
  forall r,
    Mounted.submitTransaction fresh now sel items st = Some r ->
    stocksNonNegative (snd (fst r)).
Proof.
  intros r Hret. unfold Mounted.submitTransaction in Hret.
  destruct (Mounted.selectedItem sel items) as [item|] eqn:Hsel;
    [|injection Hret as <-; exact Hstock].
  unfold Modal.handleAddTransaction in Hret.
  destruct (Modal.expandInput item st) as [[targetSerials isRange]|e|] eqn:Hexp;
    [|injection Hret as <-; exact Hstock | discriminate].
  injection Hret as <-.
  destruct (submitExpanded_cases fresh now item (App.allUsedSerials items)
              items st targetSerials isRange)
    as [(_ & Hr)|[(_ & _ & Hr)|[(_ & _ & _ & _ & Hr)|(_ & Hc & Hs & Hr)]]];
    rewrite Hr; try exact Hstock.
  cbn [fst snd]. unfold stocksNonNegative in *. apply Forall_forall. intros i' Hin.
  rewrite Forall_forall in Hstock.
  destruct (appendTransactions_selected sel item items _ i' Hsel Hids Hin)
    as [[Hold _]| ->]; [now apply Hstock|].
  destruct (selectedItem_In _ _ _ Hsel) as [Hitem _].
  assert (H0 := Hstock item Hitem).
  rewrite calculateStock_append.
  change (currentStock item) with (calculateStock item) in Hs.
  unfold submittedTransactions, Modal.countOf in *.
  destruct isRange.
  - (* a range: one unit per serial *)
    destruct (stamped_shape fresh now st 0 targetSerials) as (_ & Hshape & Hlen).
    destruct (Modal.transactionType st) eqn:Hty.
    + apply receipts_keep_non_negative; [|exact H0].
      eapply Forall_impl; [|exact Hshape]. intros t [-> ->]. split; [reflexivity | lia].
    + apply (unit_releases_keep_non_negative _ (calculateStock item)).
      * eapply Forall_impl; [|exact Hshape]. intros t [-> ->]. auto.
      * rewrite Hlen. apply expandInput_range_length in Hexp.
        unfold JS.two53. lia.
      * rewrite Hlen. now apply Hs.
  - (* one transaction of the quantity entered *)
    cbn [fold_left]. unfold stockStep, Transaction.withId, Modal.singleTransaction.
    cbn [Transaction.type Transaction.quantity].
    destruct (Modal.transactionType st) eqn:Hty; apply round_nonneg;
      [lia | specialize (Hs eq_refl); lia].
Qed.

Lemma submission_keeps_stock_non_negative_witness :
  let items := [sampleItem "i1" part "CT1" [sampleTx "t1" purchase 10 None];
                sampleItem "i2" part "CT2" []] in
  exists r,
    Mounted.submitTransaction sampleFresh sampleNow "i1" items
      (sampleForm release "10" "") = Some r
    /\ stocksNonNegative (snd (fst r))
    /\ map calculateStock (snd (fst r)) = [0; 0].
Proof.
  cbv zeta. eexists. split; [vm_compute; reflexivity|]. split; [|reflexivity].
  apply (submission_keeps_stock_non_negative sampleFresh sampleNow "i1"
           [sampleItem "i1" part "CT1" [sampleTx "t1" purchase 10 None];
            sampleItem "i2" part "CT2" []]
           (sampleForm release "10" "")).
  - unfold idsUnique. cbn. repeat constructor; cbn; intuition discriminate.
  - unfold stocksNonNegative. repeat constructor; vm_compute; discriminate.
  - vm_compute. reflexivity.
Defined.

(** ** Serial uniqueness under registering *)

Lemma distinct_NoDup (l : list string) : distinct l = true <-> NoDup l.
Proof.
  induction l as [|x l IH]; cbn [distinct].
  - split; [constructor | reflexivity].
  - rewrite andb_true_iff, negb_true_iff, IH. split.
    + intros [Hx Hl]. constructor; [|exact Hl].
      intro Hin. apply includesString_In in Hin. congruence.
    + intro H. inversion H as [|? ? Hx Hl]; subst. split; [|exact Hl].
      destruct (includesString l x) eqn:E; [|reflexivity].
      apply includesString_In in E. contradiction.
Qed.

Lemma appendTransactions_absent (itemId : string) (newTxs : list Transaction.t)
    (items : list Item.t) :
  ~ In itemId (map Item.id items) ->
  appendTransactions itemId newTxs items = items.
Proof.
  intro H. unfold appendTransactions. apply map_same. intros i Hi.
  destruct (Item.id i =? itemId)%string eqn:Hid; [|reflexivity].
  apply String.eqb_eq in Hid. exfalso. apply H. rewrite <- Hid. now apply in_map.
Qed.

(** With unique ids, appending transactions to an item of the
    collection adds their serials to those of the collection. *)
Lemma serials_after_append (item : Item.t) (items : list Item.t)
    (newTxs : list Transaction.t) :
  In item items -> idsUnique items ->
  Permutation
    (flat_map App.serialsOf (appendTransactions (Item.id item) newTxs items))
    (flat_map App.serialsOf items ++ txSerials newTxs).
Proof.
  unfold idsUnique. induction items as [|i rest IH]; intros Hin Hids; [destruct Hin|].
  cbn [map] in Hids. inversion Hids as [|? ? Hnot Hrest]; subst.
  unfold appendTransactions. cbn [map flat_map]. fold (appendTransactions (Item.id item) newTxs rest).
  destruct (Item.id i =? Item.id item)%string eqn:Hid.
  - apply String.eqb_eq in Hid.
    rewrite appendTransactions_absent by (rewrite <- Hid; exact Hnot).
    change (App.serialsOf (Item.withTransactions i (Item.transactions i ++ newTxs)))
      with (txSerials (Item.transactions i ++ newTxs)).
    unfold txSerials at 1. rewrite flat_map_app. fold (txSerials newTxs).
    change (flat_map _ (Item.transactions i)) with (App.serialsOf i).
    rewrite <- !app_assoc. apply Permutation_app_head, Permutation_app_comm.
  - destruct Hin as [->|Hin]; [rewrite String.eqb_refl in Hid; discriminate|].
    rewrite <- app_assoc. apply Permutation_app_head. now apply IH.
Qed.

(** The serials of a range in upper case are in upper case. *)
Lemma parseSerialRange_upper (input : string) (serials : list string) :
  JS.toUpperCase input = input ->
  parseSerialRange input = Returned serials ->
  forall s, In s serials -> JS.toUpperCase s = s.
Proof.
  intros Hup. unfold parseSerialRange.
  assert (Hlit : forall s, In s [JS.trim input] -> JS.toUpperCase s = s).
  { intros s [<-|[]]. now rewrite <- trim_toUpperCase, Hup. }
  destruct (rangeRegex input) as [m|] eqn:Hm.
  2:{ intro H. injection H as <-. exact Hlit. }
  apply rangeRegex_inv in Hm as (_ & Hs & He & ws & rest & Hin).
  rewrite (parseInt_digits _ Hs), (parseInt_digits _ He).
  assert (H0 : 0 <= JS.round (JS.digitsVal 0 (rm_start m)))
    by (apply round_nonneg, digitsVal_nonneg; lia).
  destruct (_ <? _); [intro H; injection H as <-; exact Hlit|].
  destruct (_ <=? _); [discriminate|].
  intro H.
  destruct (rangeLoop_returned _ _ _ _ _ _ H (isDouble_round _) H0) as (Hall & _).
  intros s Hs'. rewrite Forall_forall in Hall.
  destruct (Hall s Hs') as (j & Hj & Hdj & Hj54 & ->).
  rewrite toUpperCase_append. f_equal.
  - rewrite Hin in Hup. now apply toUpperCase_head in Hup.
  - apply toUpperCase_digits.
    apply padStart_digits, toString_digits; [lia | exact Hdj | exact Hj54].
Qed.

Lemma txSerials_stamped (fresh : nat -> string) (now : string) (st : Modal.State)
    (k : nat) (serials : list string) :
  (forall s, In s serials -> JS.toUpperCase s = s) ->
  txSerials (stamped fresh now st k serials) = filter JS.truthy serials.
Proof.
  revert k. induction serials as [|s rest IH]; intros k Hup; [reflexivity|].
  cbn [stamped filter]. unfold txSerials. cbn [flat_map].
  fold (txSerials (stamped fresh now st (S k) rest)).
  rewrite IH by (intros x Hx; apply Hup; now right).
  cbn [Transaction.serialNumber Transaction.withId Modal.rangeTransaction].
  rewrite (Hup s (or_introl eq_refl)). now destruct (JS.truthy s).
Qed.

Lemma truthy_toUpperCase (s : string) : JS.truthy (JS.toUpperCase s) = JS.truthy s.
Proof. now destruct s. Qed.

(** The registry entries an accepted submission adds are new and
    pairwise distinct. *)
Lemma submitted_serials_new (fresh : nat -> string) (now : string) (item : Item.t)
    (registry : list string) (st : Modal.State)
    (targetSerials : list string) (isRange : bool) :
  Modal.expandInput item st = Returned (targetSerials, isRange) ->
  Modal.duplicatesIn registry targetSerials = [] ->
  JS.includes "~" (Modal.serialNumber st) = true
    \/ JS.trim (Modal.serialNumber st) = Modal.serialNumber st ->
  let added := txSerials (submittedTransactions fresh now item st targetSerials isRange) in
  NoDup added /\ forall s, In s added -> ~ In s registry.
Proof.
  intros Hexp Hdup Hplain added. subst added.
  assert (Hnone : forall s, In s targetSerials -> JS.truthy s = true ->
                            ~ In s registry).
  { intros s Hs Ht Hr.
    assert (In s (Modal.duplicatesIn registry targetSerials)).
    { apply filter_In. split; [exact Hs|]. rewrite Ht.
      now apply includesString_In in Hr. }
    rewrite Hdup in H. exact H. }
  unfold Modal.expandInput in Hexp. unfold submittedTransactions.
  destruct (ItemType_eqb (Item.type item) product
            && JS.includes "~" (Modal.serialNumber st)) eqn:Hrange.
  - (* a range *)
    destruct (parseSerialRange (JS.toUpperCase (Modal.serialNumber st)))
      as [l|e|] eqn:Hparse; try discriminate.
    injection Hexp as <- <-.
    assert (Hup := parseSerialRange_upper _ _ (toUpperCase_idem _) Hparse).
    destruct (parseSerialRange_returns_bounds_helper _ _ Hparse) as [_ Hnd].
    rewrite txSerials_stamped by exact Hup. split.
    + now apply NoDup_filter.
    + intros s Hs. apply filter_In in Hs as [Hs Ht]. now apply Hnone.
  - (* one serial *)
    injection Hexp as <- <-.
    unfold txSerials. cbn [flat_map Transaction.withId Modal.singleTransaction
                           Transaction.serialNumber]. rewrite app_nil_r.
    destruct (Item.type item) eqn:Hty.
    + cbn. split; [constructor | intros s []].
    + cbn [ItemType_eqb andb] in Hrange.
      destruct Hplain as [Hplain|Hplain]; [congruence|].
      rewrite truthy_toUpperCase, toUpperCase_idem.
      destruct (JS.truthy (Modal.serialNumber st)) eqn:Ht.
      * split; [repeat constructor; intros []|].
        intros s [<-|[]].
        assert (Heq : JS.trim (JS.toUpperCase (Modal.serialNumber st))
                      = JS.toUpperCase (Modal.serialNumber st))
          by now rewrite trim_toUpperCase, Hplain.
        rewrite <- Heq. apply Hnone; [now left|].
        now rewrite Heq, truthy_toUpperCase.
      * split; [constructor | intros s []].
Qed.

Lemma registry_In_serials (items : list Item.t) (s : string) :
  In s (App.allUsedSerials items) <-> In s (flat_map App.serialsOf items).
Proof.
  unfold App.allUsedSerials. rewrite setFrom_In. cbn. tauto.
Qed.

(** X12.  When item ids are unique and the serial typed has no white
    space around it (or is a range), a submission of the transaction
    form keeps the serials of the collection unique: no two
    transactions carry the same non-empty serial afterwards if none did
    before. *)
Theorem submission_keeps_serials_unique
    (fresh : nat -> string) (now sel : string) (items : list Item.t)
    (st : Modal.State)
    (Hids : idsUnique items)
    (Huniq : serialsUnique items = true)
    (Hplain : JS.includes "~" (Modal.serialNumber st) = true
              \/ JS.trim (Modal.serialNumber st) = Modal.serialNumber st) :
  forall r,
    Mounted.submitTransaction fresh now sel items st = Some r ->
    serialsUnique (snd (fst r)) = true.
Proof.
  intros r Hret. unfold Mounted.submitTransaction in Hret.
  destruct (Mounted.selectedItem sel items) as [item|] eqn:Hsel;
    [|injection Hret as <-; exact Huniq].
  unfold Modal.handleAddTransaction in Hret.
  destruct (Modal.expandInput item st) as [[targetSerials isRange]|e|] eqn:Hexp;
    [|injection Hret as <-; exact Huniq | discriminate].
  injection Hret as <-.
  destruct (submitExpanded_cases fresh now item (App.allUsedSerials items)
              items st targetSerials isRange)
    as [(_ & Hr)|[(_ & _ & Hr)|[(_ & _ & _ & _ & Hr)|(Hd & _ & _ & Hr)]]];
    rewrite Hr; try exact Huniq.
  cbn [fst snd]. unfold serialsUnique in *. apply distinct_NoDup.
  apply distinct_NoDup in Huniq.
  destruct (selectedItem_In _ _ _ Hsel) as [Hitem _].
  eapply Permutation_NoDup;
    [apply Permutation_sym, serials_after_append; assumption|].
  destruct (submitted_serials_new fresh now item (App.allUsedSerials items) st
              targetSerials isRange Hexp Hd Hplain) as [Hnd Hnew].
  apply NoDup_app; [exact Huniq | exact Hnd |].
  intros s Hs Hadded. apply (Hnew s Hadded). now apply registry_In_serials.
Qed.

Lemma submission_keeps_serials_unique_witness :
  let items := [sampleItem "p1" product "PR1" [sampleTx "t1" purchase 1 (Some "SN00001")];
                sampleItem "p2" product "PR2" [sampleTx "t2" purchase 1 (Some "SN00004")]] in
  exists r,
    Mounted.submitTransaction sampleFresh sampleNow "p2" items
      (sampleForm purchase "" "sn00002~sn00003") = Some r
    /\ serialsUnique (snd (fst r)) = true
    /\ map (fun i => map Transaction.serialNumber (Item.transactions i)) (snd (fst r))
       = [[Some "SN00001"]; [Some "SN00004"; Some "SN00002"; Some "SN00003"]].
Proof.
  cbv zeta. eexists. split; [vm_compute; reflexivity|]. split; [|reflexivity].
  apply (submission_keeps_serials_unique sampleFresh sampleNow "p2"
           [sampleItem "p1" product "PR1" [sampleTx "t1" purchase 1 (Some "SN00001")];
            sampleItem "p2" product "PR2" [sampleTx "t2" purchase 1 (Some "SN00004")]]
           (sampleForm purchase "" "sn00002~sn00003")).
  - unfold idsUnique. cbn. repeat constructor; cbn; intuition discriminate.
  - reflexivity.
  - left. reflexivity.
  - vm_compute. reflexivity.
Defined.

(** ** The live duplicate flag and the check on submission *)

(** X13.  For a serial without tilde and without white space around
    it, the flag shown under the serial field and the check made on
    submission agree: the field is flagged exactly when the submission
    would be rejected for an existing serial, and the serial reported
    is the one typed, in upper case. *)
Theorem duplicate_flag_agrees_with_submission
    (fresh : nat -> string) (now : string) (item : Item.t)
    (registry : list string) (items : list Item.t) (st : Modal.State)
    (Htilde : JS.includes "~" (Modal.serialNumber st) = false)
    (Htrim : JS.trim (Modal.serialNumber st) = Modal.serialNumber st) :
  Modal.isSerialDuplicate registry st = true
  <-> Modal.handleAddTransaction fresh now item registry items st
      = Some ([SerialsExist [JS.toUpperCase (Modal.serialNumber st)]], items, st).
Proof.
  assert (Hexp : Modal.expandInput item st
                 = Returned ([JS.toUpperCase (Modal.serialNumber st)], false)).
  { unfold Modal.expandInput. rewrite Htilde, andb_false_r.
    now rewrite trim_toUpperCase, Htrim. }
  unfold Modal.isSerialDuplicate. rewrite Htrim, Htilde, orb_false_r.
  unfold Modal.handleAddTransaction. rewrite Hexp.
  unfold Modal.submitExpanded, Modal.duplicatesIn. cbn [filter].
  rewrite truthy_toUpperCase.
  destruct (JS.truthy (Modal.serialNumber st)) eqn:Ht;
    destruct (includesString registry (JS.toUpperCase (Modal.serialNumber st)));
    cbn [negb andb List.length Nat.ltb Nat.leb take];
    try (split; reflexivity).
  all: split; [discriminate|].
  all: destruct (Modal.countOf st _ false <=? 0); [discriminate|].
  all: destruct (TransactionType_eqb (Modal.transactionType st) release
                 && (currentStock item <? Modal.countOf st _ false));
    discriminate.
Qed.

Lemma duplicate_flag_agrees_with_submission_witness :
  let item := sampleItem "p1" product "PR1" [sampleTx "t1" purchase 1 (Some "SN00001")] in
  let st := sampleForm purchase "1" "sn00001" in
  Modal.isSerialDuplicate ["SN00001"] st = true
  <-> Modal.handleAddTransaction sampleFresh sampleNow item ["SN00001"] [item] st
      = Some ([SerialsExist ["SN00001"]], [item], st).
Proof.
  cbv zeta.
  apply (duplicate_flag_agrees_with_submission sampleFresh sampleNow
           (sampleItem "p1" product "PR1" [sampleTx "t1" purchase 1 (Some "SN00001")])
           ["SN00001"] _ (sampleForm purchase "1" "sn00001")); reflexivity.
Defined.

(** With white space around the serial the two disagree: the field is
    not flagged and the submission is rejected. *)
Lemma duplicate_flag_misses_blanks :
  let item := sampleItem "p1" product "PR1" [sampleTx "t1" purchase 1 (Some "SN00001")] in
  let st := sampleForm purchase "1" "SN00001 " in
  Modal.isSerialDuplicate (App.allUsedSerials [item]) st = false
  /\ Mounted.submitTransaction sampleFresh sampleNow "p1" [item] st
     = Some ([SerialsExist ["SN00001"]], [item], st).
Proof. split; reflexivity. Qed.

(** ** The effect, at every moment *)

Lemma syncInvariant_step (st : Sync.State) (e : Sync.Event) :
  syncInvariant st -> syncInvariant (Sync.step st e).
Proof.
  intros (Hc & Hl & Hn & Ht & Hp). unfold syncInvariant.
  split; [now apply cleanupCovers_step|].
  destruct e as [next|dt]; cbn [Sync.step].
  - rewrite setItems_shape by exact Hc.
    destruct next as [|i next];
      cbn [Sync.localStorage Sync.items Sync.timers Sync.pushed List.length].
    + repeat split; auto.
    + repeat split; auto. repeat constructor. discriminate.
  - unfold Sync.advance.
    cbn [Sync.localStorage Sync.items Sync.timers Sync.pushed].
    split; [exact Hl|]. split; [|split].
    + etransitivity; [apply filter_length_le | exact Hn].
    + apply Forall_forall. intros t Hin. apply filter_In in Hin as [Hin _].
      rewrite Forall_forall in Ht. auto.
    + apply Forall_app. split; [exact Hp|].
      apply Forall_forall. intros c Hin.
      apply in_map_iff in Hin as (t & <- & Hin). apply filter_In in Hin as [Hin _].
      rewrite Forall_forall in Ht. destruct (Ht t Hin) as [-> Hne]. exact Hne.
Qed.

Lemma syncInvariant_run (es : list Sync.Event) (st : Sync.State) :
  syncInvariant st -> syncInvariant (Sync.run es st).
Proof.
  unfold Sync.run. revert st.
  induction es as [|e es IH]; intros st H; [exact H|].
  cbn [fold_left]. apply IH, syncInvariant_step, H.
Qed.

(** X14.  Whatever changes and pauses follow the mount of the
    component: the collection in local storage is the collection in
    memory; at most one push is pending, and it is a push of the
    collection in memory; no empty collection was ever pushed. *)
Theorem effect_mirrors_memory_and_never_pushes_empty (history : list Sync.Event) :
  let st := Sync.run history Sync.mounted in
  Sync.localStorage st = Some (Sync.items st)
  /\ (List.length (Sync.timers st) <= 1)%nat
  /\ Forall (fun t => Sync.payload t = Sync.items st) (Sync.timers st)
  /\ Forall (fun c => c <> []) (Sync.pushed st).
Proof.
  intro st.
  assert (H : syncInvariant st).
  { apply syncInvariant_run. unfold syncInvariant, cleanupCovers. cbn.
    repeat split; auto. }
  destruct H as (_ & Hl & Hn & Ht & Hp).
  repeat split; auto.
  eapply Forall_impl; [|exact Ht]. now intros t [H _].
Qed.

(** ** Loading at mount *)

(** X15.  At mount, local storage always ends up holding the
    collection in memory.  Without a configured store the collection is
    the one local storage held.  With a configured store it is the
    snapshot the store returned; when the store returns nothing or the
    request fails, the copy read back from local storage is the empty
    collection the first render has just stored there: the component
    starts empty whatever local storage held before. *)
Theorem mount_loads_snapshot_or_loses_local
    (configured : bool) (stored : option (list Item.t))
    (response : Startup.Response) :
  let st := Startup.mount configured stored response in
  Startup.localStorage st = Some (Startup.items st)
  /\ (configured = false ->
        Startup.items st = match stored with Some l => l | None => [] end)
  /\ (configured = true ->
        Startup.items st
        = match response with
          | Startup.Snapshot (Some l) => l
          | _ => []
          end).
Proof.
  destruct configured, stored as [l|], response as [[l'|]| |];
    cbn; repeat split; intros; congruence.
Qed.

(** ** Editing an item *)

Lemma NoDup_map_update {A} (key g g' : A -> string) (l : list A) (k v : string) :
  NoDup (map key l) -> NoDup (map g l) ->
  (forall y, In y l -> g y <> v) ->
  (forall y, g' y = if (key y =? k)%string then v else g y) ->
  NoDup (map g' l).
Proof.
  intros Hkeys Hg Hfresh Hg'.
  induction l as [|y l IH]; [constructor|].
  cbn [map] in *. inversion Hkeys as [|? ? Hknot Hkeys']; subst.
  inversion Hg as [|? ? Hgnot Hg'']; subst.
  assert (Hin : forall x, In x (map g' l) -> x = v \/ In x (map g l)).
  { intros x Hx. apply in_map_iff in Hx as (z & <- & Hz). rewrite Hg'.
    destruct (key z =? k)%string; [now left | right; now apply in_map]. }
  rewrite (Hg' y). destruct (key y =? k)%string eqn:Hk.
  - apply String.eqb_eq in Hk. subst k.
    assert (Hsame : map g' l = map g l).
    { apply map_ext_in. intros z Hz. rewrite Hg'.
      destruct (key z =? key y)%string eqn:E; [|reflexivity].
      apply String.eqb_eq in E. exfalso. apply Hknot. rewrite <- E. now apply in_map. }
    rewrite Hsame. constructor; [|exact Hg''].
    intro Hv. apply in_map_iff in Hv as (z & Hz & Hzin).
    exact (Hfresh z (or_intror Hzin) Hz).
  - constructor.
    + intro Hy. apply Hin in Hy as [Hy|Hy]; [|contradiction].
      exact (Hfresh y (or_introl eq_refl) Hy).
    + apply IH; auto. intros z Hz. apply Hfresh. now right.
Qed.

(** X16.  An item edit asked for and confirmed in the dialog keeps the
    codes of the collection unique, upper case and lower case taken as
    equal, when item ids are unique: the save is refused with an alert
    for an empty name or code and for a code that another item has. *)
Theorem item_edit_keeps_codes_unique
    (role : Role) (sel : string) (item : Item.t) (items : list Item.t)
    (st : Modal.State)
    (Hsel : Mounted.selectedItem sel items = Some item)
    (Hids : idsUnique items)
    (Hcodes : codesUnique items)
    (Hediting : Modal.isEditing st = true)
    (Hasked : fst (Modal.handleToggleEdit item (map Item.code items) st) = []) :
  let asked := snd (Modal.handleToggleEdit item (map Item.code items) st) in
  let r := Modal.handleActionConfirm role item items
             (Modal.typePassword (secretOf role) asked) in
  fst (fst r) = []
  /\ snd (fst r) = App.handleUpdateItem (Item.id item) (Modal.editFormData st) items
  /\ Item.e_name (Modal.editFormData st) <> ""
  /\ Item.e_code (Modal.editFormData st) <> ""
  /\ codesUnique (snd (fst r)).
Proof.
  cbv zeta.
  assert (Htoggle :
    JS.truthy (Item.e_name (Modal.editFormData st)) = true
    /\ JS.truthy (Item.e_code (Modal.editFormData st)) = true
    /\ Modal.isCodeDuplicate item (map Item.code items) st = false
    /\ Modal.handleToggleEdit item (map Item.code items) st
       = ([], Modal.setDialog st (Some (Modal.mkAction Modal.act_item None))
                (Modal.password st) (Modal.isEditing st)
                (Modal.editingTransactionId st))).
  { unfold Modal.handleToggleEdit in *. rewrite Hediting in *.
    destruct (JS.truthy (Item.e_name (Modal.editFormData st)));
      [|discriminate Hasked].
    destruct (JS.truthy (Item.e_code (Modal.editFormData st)));
      [|discriminate Hasked].
    cbn [negb orb] in *.
    destruct (Modal.isCodeDuplicate item (map Item.code items) st);
      [discriminate Hasked|]. auto. }
  destruct Htoggle as (Hn & Hc & Hdup & ->). cbn [snd].
  assert (Hr : fst (Modal.handleActionConfirm role item items
                      (Modal.typePassword (secretOf role)
                         (Modal.setDialog st
                            (Some (Modal.mkAction Modal.act_item None))
                            (Modal.password st) (Modal.isEditing st)
                            (Modal.editingTransactionId st))))
               = ([], App.handleUpdateItem (Item.id item)
                        (Modal.editFormData st) items)).
  { unfold Modal.handleActionConfirm.
    cbn [Modal.password Modal.showPasswordInput Modal.typePassword Modal.setDialog
         Modal.editFormData].
    destruct role; cbn [secretOf]; rewrite String.eqb_refl; reflexivity. }
  rewrite Hr. cbn [fst snd].
  split; [reflexivity|]. split; [reflexivity|].
  split; [now apply truthy_nonempty|]. split; [now apply truthy_nonempty|].
  destruct (selectedItem_In _ _ _ Hsel) as [Hitem _].
  unfold Modal.isCodeDuplicate in Hdup. rewrite Hc in Hdup. cbn [negb orb] in Hdup.
  unfold codesUnique, App.handleUpdateItem. rewrite map_map.
  destruct (Item.e_code (Modal.editFormData st) =? Item.code item)%string eqn:Hsame.
  - (* the code is not changed *)
    apply String.eqb_eq in Hsame.
    erewrite map_ext_in; [exact Hcodes|].
    intros i Hi. cbv beta.
    destruct (Item.id i =? Item.id item)%string eqn:Hid; [|reflexivity].
    apply String.eqb_eq in Hid.
    assert (i = item) by exact (NoDup_map_inj_on Item.id items i item Hids Hi Hitem Hid).
    subst i. cbn [Item.merge Item.code]. now rewrite Hsame.
  - (* the new code is the code of no item *)
    apply (NoDup_map_update Item.id (fun i => JS.toUpperCase (Item.code i)) _ items
             (Item.id item) (JS.toUpperCase (Item.e_code (Modal.editFormData st))));
      auto.
    + intros y Hy.
      assert (Hf := existsb_false_forall _ _ Hdup (Item.code y) (in_map _ _ _ Hy)).
      cbv beta in Hf. now apply String.eqb_neq in Hf.
    + intro y. now destruct (Item.id y =? Item.id item)%string.
Qed.

Lemma item_edit_keeps_codes_unique_witness :
  let item := sampleItem "i1" part "CT1" [] in
  let items := [item; sampleItem "i2" part "CT2" []] in
  let st := snd (Modal.handleToggleEdit item ["CT1"; "CT2"] sampleModal) in
  let asked := snd (Modal.handleToggleEdit item ["CT1"; "CT2"] st) in
  let r := Modal.handleActionConfirm admin item items
             (Modal.typePassword "0000" asked) in
  fst (fst r) = []
  /\ snd (fst r) = App.handleUpdateItem "i1" sampleEdit items
  /\ Item.e_name sampleEdit <> ""
  /\ Item.e_code sampleEdit <> ""
  /\ codesUnique (snd (fst r)).
Proof.
  cbv zeta.
  apply (item_edit_keeps_codes_unique admin "i1"
           (sampleItem "i1" part "CT1" [])
           [sampleItem "i1" part "CT1" []; sampleItem "i2" part "CT2" []]
           (snd (Modal.handleToggleEdit (sampleItem "i1" part "CT1" [])
                   ["CT1"; "CT2"] sampleModal)));
    try reflexivity.
  - unfold idsUnique. cbn. repeat constructor; cbn; intuition discriminate.
  - unfold codesUnique. cbn. repeat constructor; cbn; intuition discriminate.
Defined.

(** ** Deleting *)

Lemma count_le_NoDup (l l' : list string) :
  (forall x, (count_occ string_dec l' x <= count_occ string_dec l x)%nat) ->
  NoDup l -> NoDup l'.
Proof.
  intros Hle Hl. apply (NoDup_count_occ string_dec). intro x.
  apply (NoDup_count_occ string_dec) with (x := x) in Hl.
  specialize (Hle x). lia.
Qed.

Lemma count_flat_map_le {A} (F F' : A -> list string) (l : list A) (x : string) :
  (forall a, In a l ->
     (count_occ string_dec (F' a) x <= count_occ string_dec (F a) x)%nat) ->
  (count_occ string_dec (flat_map F' l) x
     <= count_occ string_dec (flat_map F l) x)%nat.
Proof.
  induction l as [|a l IH]; intro H; cbn [flat_map]; [lia|].
  rewrite !count_occ_app.
  assert (H1 := H a (or_introl eq_refl)).
  assert (H2 : (count_occ string_dec (flat_map F' l) x
                  <= count_occ string_dec (flat_map F l) x)%nat)
    by (apply IH; intros b Hb; apply H; now right).
  lia.
Qed.

Lemma count_flat_map_filter {A} (F : A -> list string) (g : A -> bool)
    (l : list A) (x : string) :
  (count_occ string_dec (flat_map F (filter g l)) x
     <= count_occ string_dec (flat_map F l) x)%nat.
Proof.
  induction l as [|a l IH]; cbn [filter flat_map]; [lia|].
  destruct (g a); cbn [flat_map]; rewrite !count_occ_app; lia.
Qed.

(** X17.  Deleting a transaction or an item breaks neither invariant
    of the ledger: quantities that were all positive stay so, and
    serials that were unique stay so. *)
Theorem deletion_keeps_ledger_invariants
    (itemId transactionId : string) (app : App.State)
    (Hpos : quantitiesPositive (App.items app) = true)
    (Huniq : serialsUnique (App.items app) = true) :
  let afterTx := App.handleDeleteTransaction itemId transactionId (App.items app) in
  let afterItem := App.items (snd (App.handleDeleteItemConfirm app)) in
  quantitiesPositive afterTx = true /\ serialsUnique afterTx = true
  /\ quantitiesPositive afterItem = true /\ serialsUnique afterItem = true.
Proof.
  cbv zeta. unfold serialsUnique in *.
  rewrite !distinct_NoDup in *.
  assert (HafterItem :
    App.items (snd (App.handleDeleteItemConfirm app)) = App.items app
    \/ exists target,
         App.items (snd (App.handleDeleteItemConfirm app))
         = filter (fun i => negb (Item.id i =? target)%string) (App.items app)).
  { unfold App.handleDeleteItemConfirm.
    destruct (negb _); [now left|].
    destruct (App.itemToDelete app) as [target|]; [right; now exists target | now left]. }
  repeat split.
  - unfold quantitiesPositive, App.handleDeleteTransaction in *.
    rewrite forallb_forall in *. intros i' Hi'.
    apply in_map_iff in Hi' as (i & <- & Hi). specialize (Hpos i Hi).
    destruct (Item.id i =? itemId)%string; [|exact Hpos].
    cbn [Item.withTransactions Item.transactions].
    rewrite forallb_forall in *. intros t Ht. apply filter_In in Ht as [Ht _]. auto.
  - eapply count_le_NoDup; [|exact Huniq]. intro x.
    unfold App.handleDeleteTransaction. rewrite flat_map_concat_map, map_map,
      <- flat_map_concat_map.
    apply count_flat_map_le. intros i _.
    destruct (Item.id i =? itemId)%string; [|lia].
    apply (count_flat_map_filter _ _ (Item.transactions i)).
  - destruct HafterItem as [->|[target ->]]; [exact Hpos|].
    unfold quantitiesPositive in *. rewrite forallb_forall in *.
    intros i Hi. apply filter_In in Hi as [Hi _]. auto.
  - destruct HafterItem as [->|[target ->]]; [exact Huniq|].
    eapply count_le_NoDup; [|exact Huniq]. intro x.
    apply count_flat_map_filter.
Qed.

Lemma deletion_keeps_ledger_invariants_witness :
  let items := [sampleItem "p1" product "PR1"
                  [sampleTx "t1" purchase 1 (Some "SN00001");
                   sampleTx "t2" purchase 1 (Some "SN00002")]] in
  let app := App.mkState items (Some admin) "0000" (Some "p1") in
  let afterTx := App.handleDeleteTransaction "p1" "t1" items in
  let afterItem := App.items (snd (App.handleDeleteItemConfirm app)) in
  quantitiesPositive afterTx = true /\ serialsUnique afterTx = true
  /\ quantitiesPositive afterItem = true /\ serialsUnique afterItem = true.
Proof.
  cbv zeta.
  apply (deletion_keeps_ledger_invariants "p1" "t1"
           (App.mkState
              [sampleItem "p1" product "PR1"
                 [sampleTx "t1" purchase 1 (Some "SN00001");
                  sampleTx "t2" purchase 1 (Some "SN00002")]]
              (Some admin) "0000" (Some "p1"))); reflexivity.
Defined.

(** Deleting can drive a stock below zero: nothing compares the
    receipts that remain with the releases made from them. *)
Lemma deletion_can_leave_negative_stock :
  let items := [sampleItem "i1" part "CT1"
                  [sampleTx "t1" purchase 10 None; sampleTx "t2" release 4 None]] in
  map calculateStock items = [6]
  /\ map calculateStock (App.handleDeleteTransaction "i1" "t1" items) = [-4].
Proof. split; reflexivity. Qed.

(** ** The registry as a set *)

Lemma setFrom_NoDup (seen l : list string) :
  NoDup seen -> NoDup (setFrom seen l).
Proof.
  revert seen. induction l as [|x l IH]; intros seen H; cbn [setFrom]; [exact H|].
  apply IH. destruct (includesString seen x) eqn:Hx; [exact H|].
  apply NoDup_app; [exact H | repeat constructor; intros [] |].
  intros a Ha [<-|[]]. apply includesString_In in Ha. congruence.
Qed.

(** X18.  The registry [allUsedSerials] lists, each once, exactly the
    non-empty serials of the transactions of the collection, put in
    upper case. *)
Theorem registry_is_the_set_of_serials (items : list Item.t) :
  NoDup (App.allUsedSerials items)
  /\ forall s,
       In s (App.allUsedSerials items) <->
       exists item t sn,
         In item items /\ In t (Item.transactions item)
         /\ Transaction.serialNumber t = Some sn /\ sn <> ""
         /\ s = JS.toUpperCase sn.
Proof.
  split.
  - unfold App.allUsedSerials. apply setFrom_NoDup. constructor.
  - apply registry_members.
Qed.

(** ** Editing a transaction and the stock *)

Lemma net_is_sum_of_contributions (ts : list Transaction.t) :
  inboundTotal ts - outboundTotal ts = sumZ (map contribution ts).
Proof.
  induction ts as [|t ts IH].
  - unfold inboundTotal, outboundTotal, sumZ. cbn. lia.
  - rewrite totals_cons, IH. cbn [map sumZ fold_right]. unfold contribution.
    destruct (Transaction.type t); reflexivity.
Qed.

(** While the quantities, added up in size, stay within 2^53, the stock
    is the sum of what the transactions contribute. *)
Lemma stock_is_sum_of_contributions (item : Item.t) :
  magnitude (Item.transactions item) <= JS.two53 ->
  calculateStock item = sumZ (map contribution (Item.transactions item)).
Proof.
  intro Hsafe. unfold calculateStock.
  rewrite stock_fold_total by (cbn [Z.abs]; lia).
  rewrite net_is_sum_of_contributions. lia.
Qed.

Lemma sum_after_update (tid : string) (u : Transaction.partial)
    (ts : list Transaction.t) (t : Transaction.t) :
  NoDup (map Transaction.id ts) -> In t ts -> Transaction.id t = tid ->
  sumZ (map contribution
          (map (fun t' => if (Transaction.id t' =? tid)%string
                          then Transaction.merge t' u else t') ts))
  = sumZ (map contribution ts) - contribution t
    + contribution (Transaction.merge t u).
Proof.
  intros Hnd Hin Hid. subst tid.
  induction ts as [|a ts IH]; [destruct Hin|].
  cbn [map] in Hnd. inversion Hnd as [|? ? Hnot Hnd']; subst.
  cbn [map sumZ fold_right]. fold (sumZ (map contribution ts)).
  fold (sumZ (map contribution
                (map (fun t' => if (Transaction.id t' =? Transaction.id t)%string
                                then Transaction.merge t' u else t') ts))).
  destruct Hin as [->|Hin].
  - rewrite String.eqb_refl.
    assert (Hsame : map (fun t' => if (Transaction.id t' =? Transaction.id t)%string
                                   then Transaction.merge t' u else t') ts = ts).
    { apply map_same. intros z Hz.
      destruct (Transaction.id z =? Transaction.id t)%string eqn:E; [|reflexivity].
      apply String.eqb_eq in E. exfalso. apply Hnot. rewrite <- E. now apply in_map. }
    rewrite Hsame. lia.
  - destruct (Transaction.id a =? Transaction.id t)%string eqn:E.
    + apply String.eqb_eq in E. exfalso. apply Hnot. rewrite E. now apply in_map.
    + rewrite (IH Hnd' Hin). lia.
Qed.

(** X19.  When transaction ids are unique in the item and its
    quantities, added up in size, stay within 2^53 before and after, an
    edit of one of its transactions moves the stock of the item by the
    difference between what the transaction contributes after the edit
    and what it contributed before, and by nothing else. *)
Theorem transaction_edit_moves_stock_by_difference
    (transactionId : string) (updatedData : Transaction.partial)
    (item : Item.t) (t : Transaction.t)
    (Hnd : txIdsUnique item)
    (Hin : In t (Item.transactions item))
    (Hid : Transaction.id t = transactionId)
    (Hbefore : magnitude (Item.transactions item) <= JS.two53)
    (Hafter : Forall (fun i => magnitude (Item.transactions i) <= JS.two53)
                (App.handleUpdateTransaction (Item.id item) transactionId
                   updatedData [item])) :
  map calculateStock
    (App.handleUpdateTransaction (Item.id item) transactionId updatedData [item])
  = [calculateStock item - contribution t
     + contribution (Transaction.merge t updatedData)].
Proof.
  unfold App.handleUpdateTransaction in *. cbn [map] in *.
  rewrite String.eqb_refl in *.
  inversion Hafter as [|? ? Hsafe _]; subst.
  rewrite !stock_is_sum_of_contributions by assumption.
  cbn [Item.withTransactions Item.transactions].
  now rewrite (sum_after_update _ updatedData _ t Hnd Hin eq_refl).
Qed.

Lemma transaction_edit_moves_stock_by_difference_witness :
  let t := sampleTx "t2" release 4 None in
  let item := sampleItem "i1" part "CT1" [sampleTx "t1" purchase 10 None; t] in
  let u := Modal.setField Modal.f_quantity "7" (Transaction.spread t) in
  map calculateStock (App.handleUpdateTransaction "i1" "t2" u [item])
  = [calculateStock item - contribution t + contribution (Transaction.merge t u)].
Proof.
  cbv zeta.
  apply (transaction_edit_moves_stock_by_difference "t2" _
           (sampleItem "i1" part "CT1"
              [sampleTx "t1" purchase 10 None; sampleTx "t2" release 4 None])
           (sampleTx "t2" release 4 None)).
  - unfold txIdsUnique. cbn. repeat constructor; cbn; intuition discriminate.
  - cbn. tauto.
  - reflexivity.
  - vm_compute. discriminate.
  - repeat constructor. vm_compute. discriminate.
Defined.

(** Beyond 2^53 the stock moves by more or less than the difference:
    next to a receipt of 2^53 units, the edit of a receipt of 1 unit
    into 3 units moves the stock by 4. *)
Lemma transaction_edit_beyond_2_53 :
  let t := sampleTx "t2" purchase 1 None in
  let item := sampleItem "i1" part "CT1"
                [sampleTx "t1" purchase 9007199254740992 None; t] in
  let u := Modal.setField Modal.f_quantity "3" (Transaction.spread t) in
  calculateStock item = 9007199254740992
  /\ contribution (Transaction.merge t u) - contribution t = 2
  /\ map calculateStock (App.handleUpdateTransaction "i1" "t2" u [item])
     = [9007199254740996].
Proof. cbv zeta. repeat split; reflexivity. Qed.

(** ** Ids that point at nothing *)

(** X20.  The four handlers that take an item id change nothing when no
    item has that id, and the two that take a transaction id change
    nothing when no transaction of the item has it. *)
Theorem unknown_ids_change_nothing
    (itemId transactionId newId : string) (transaction : Transaction.t)
    (updatedItem : Item.edit) (updatedData : Transaction.partial)
    (items : list Item.t) :
  (~ In itemId (map Item.id items) ->
     App.handleAddTransaction newId itemId transaction items = items
     /\ App.handleUpdateItem itemId updatedItem items = items
     /\ App.handleUpdateTransaction itemId transactionId updatedData items = items
     /\ App.handleDeleteTransaction itemId transactionId items = items)
  /\ ((forall item, In item items -> Item.id item = itemId ->
         ~ In transactionId (map Transaction.id (Item.transactions item))) ->
      App.handleUpdateTransaction itemId transactionId updatedData items = items
      /\ App.handleDeleteTransaction itemId transactionId items = items).
Proof.
  split.
  - intro Hno.
    assert (Hid : forall i, In i items -> (Item.id i =? itemId)%string = false).
    { intros i Hi. apply String.eqb_neq. intros <-. apply Hno. now apply in_map. }
    unfold App.handleAddTransaction, App.handleUpdateItem,
      App.handleUpdateTransaction, App.handleDeleteTransaction.
    repeat split; apply map_same; intros i Hi; now rewrite (Hid i Hi).
  - intro Hno.
    unfold App.handleUpdateTransaction, App.handleDeleteTransaction.
    split; apply map_same; intros i Hi;
      (destruct (Item.id i =? itemId)%string eqn:E; [|reflexivity]);
      apply String.eqb_eq in E; specialize (Hno i Hi E).
    + rewrite map_same; [apply withTransactions_same|].
      intros t Ht.
      destruct (Transaction.id t =? transactionId)%string eqn:Et; [|reflexivity].
      apply String.eqb_eq in Et. exfalso. apply Hno. rewrite <- Et. now apply in_map.
    + rewrite filter_all; [apply withTransactions_same|].
      intros t Ht. apply negb_true_iff, String.eqb_neq.
      intros Et. apply Hno. rewrite <- Et. now apply in_map.
Qed.
